(** * mcmcpainter: the rendering, scoring and proposal core

    A shallow embedding of [src/dot_painter_cpp.cpp] and
    [src/mcmc_painter_cpp.cpp], followed by the properties of the
    specification that were checked against it and by further properties
    of the code.

    Modelling conventions.
    - A C++ [double] is a real number ([R]): rounding, infinities and NaN
      are not modelled; a literal such as [1.0] is written [1].  Every division the code performs has a non-zero
      divisor on the paths that reach it, so no result below depends on
      the value Rocq gives to [x / 0].
    - A C++ [int] is an integer ([Z]); pixel coordinates and buffer
      indices stay far from the 32-bit limits, so overflow is not modelled.
    - An [Rcpp::NumericVector] is a [list R] indexed by a [Z].  Its
      [operator[]] does no bounds checking, so a read or write outside the
      buffer is undefined behaviour in the source: the embedding returns
      [None] for it, and every function that indexes a buffer lives in the
      [option] monad.
    - A [for] loop over an integer range is [for_range]; [continue] is a
      body that returns its state unchanged.
    - R's random-number generator is an injected capability ([Rng]): a
      state and the three draws the code uses, threaded explicitly. *)

From Stdlib Require Import Reals Lra Lia ZArith List Bool.
Import ListNotations.
Open Scope R_scope.

(** ** Comparisons on doubles, as booleans *)

Definition Rltb (a b : R) : bool := if Rlt_dec a b then true else false.
Definition Rleb (a b : R) : bool := if Rle_dec a b then true else false.

(** [(int)v] truncates toward zero; [std::round] rounds half away from zero. *)
Definition trunc (v : R) : Z := if Rltb v 0 then Zceil v else Zfloor v.
Definition round (v : R) : Z :=
  if Rltb v 0 then Zceil (v - 0.5) else Zfloor (v + 0.5).

(** ** The error monad of buffer accesses *)

Definition obind {A B : Type} (m : option A) (k : A -> option B) : option B :=
  match m with
  | Some a => k a
  | None => None
  end.

Notation "x <- m ;; k" := (obind m (fun x => k))
  (at level 61, m at next level, right associativity).

(** ** Numeric vectors *)

Definition NumericVector := list R.

Definition len (v : NumericVector) : Z := Z.of_nat (length v).

Fixpoint upd (n : nat) (a : R) (v : NumericVector) : NumericVector :=
  match v, n with
  | [], _ => []
  | _ :: t, O => a :: t
  | h :: t, S n' => h :: upd n' a t
  end.

(** [v[i]] as an rvalue. *)
Definition vget (v : NumericVector) (i : Z) : option R :=
  if (i <? 0)%Z then None else nth_error v (Z.to_nat i).

(** [v[i] = a]. *)
Definition vset (v : NumericVector) (i : Z) (a : R) : option NumericVector :=
  if ((i <? 0) || (len v <=? i))%Z then None
  else Some (upd (Z.to_nat i) a v).

(** [target - canvas] (Rcpp sugar), element by element. *)
Definition vsub (a b : NumericVector) : NumericVector :=
  map (fun p => fst p - snd p) (combine a b).

(** ** Loops *)

Fixpoint for_loop {St : Type} (n : nat) (i : Z)
         (body : Z -> St -> option St) (s : St) : option St :=
  match n with
  | O => Some s
  | S n' => s' <- body i s ;; for_loop n' (i + 1)%Z body s'
  end.

(** [for (int i = lo; i <= hi; ++i) body] *)
Definition for_range {St : Type} (lo hi : Z)
           (body : Z -> St -> option St) (s : St) : option St :=
  for_loop (Z.to_nat (hi - lo + 1)) lo body s.

(** [for (auto e : l) body], over an R list of primitives. *)
Fixpoint for_each {A St : Type} (l : list A)
         (body : A -> St -> option St) (s : St) : option St :=
  match l with
  | [] => Some s
  | e :: l' => s' <- body e s ;; for_each l' body s'
  end.

(** ** Primitives *)

(** [col]: a length-3 numeric (r, g, b). *)
Record Color : Type := mkColor { col0 : R; col1 : R; col2 : R }.

Record Dot : Type := mkDot {
  dot_x : R; dot_y : R; dot_radius : R; dot_alpha : R; dot_col : Color }.

Record Line : Type := mkLine {
  line_x1 : R; line_y1 : R; line_x2 : R; line_y2 : R;
  line_w : R; line_alpha : R; line_col : Color }.

(** The named list returned by [dot_bbox_cpp] and [line_bbox_cpp]. *)
Record BBox : Type := mkBBox { xmin : Z; xmax : Z; ymin : Z; ymax : Z }.

(** ** The random-number capability

    [R::runif(a, b)], [R::rnorm(mean, sd)] and [R::rbeta(a, b)] read and
    advance R's generator. *)

Record Rng : Type := mkRng {
  rng_state : Type;
  runif : R -> R -> rng_state -> R * rng_state;
  rnorm : R -> R -> rng_state -> R * rng_state;
  rbeta : R -> R -> rng_state -> R * rng_state }.

(** Computations that draw random numbers and may index a buffer. *)
Definition M (G : Rng) (A : Type) : Type :=
  rng_state G -> option (A * rng_state G).

Definition ret {G : Rng} {A : Type} (a : A) : M G A := fun g => Some (a, g).

Definition mbind {G : Rng} {A B : Type} (m : M G A) (k : A -> M G B) : M G B :=
  fun g => match m g with
           | Some (a, g') => k a g'
           | None => None
           end.

Definition draw {G : Rng} (f : rng_state G -> R * rng_state G) : M G R :=
  fun g => Some (f g).

Definition lift {G : Rng} {A : Type} (o : option A) : M G A :=
  fun g => match o with
           | Some a => Some (a, g)
           | None => None
           end.

Notation "x <~ m ;; k" := (mbind m (fun x => k))
  (at level 61, m at next level, right associativity).

(** * The seed pixel of the data-driven birth proposals

    [sample_dot_birth_datadriven_cpp] (dot_painter_cpp.cpp, lines 187-233)
    and [sample_line_birth_datadriven_cpp] (mcmc_painter_cpp.cpp, lines
    204-250) open with the same statements; they are embedded once. *)

Section Seed.

Variable G : Rng.

(** The residual magnitude of every pixel (lines 187-198 / 204-215). *)
Definition residual_magnitude (target canvas : NumericVector) (H W : Z)
  : option NumericVector :=
  let E := vsub target canvas in
  for_range 0 (H * W - 1) (fun i mag_sq =>
    d0 <- vget E (i + 0 * H * W)%Z ;;
    d1 <- vget E (i + 1 * H * W)%Z ;;
    d2 <- vget E (i + 2 * H * W)%Z ;;
    let sum := 0 + d0 * d0 + d1 * d1 + d2 * d2 in
    vset mag_sq i (sqrt sum)) (repeat 0 (Z.to_nat (H * W))).

(** The largest magnitude (lines 200-204 / 217-221). *)
Definition max_magnitude (mag_sq : NumericVector) (H W : Z) : option R :=
  for_range 0 (H * W - 1) (fun i max_mag =>
    m <- vget mag_sq i ;;
    Some (if Rltb max_mag m then m else max_mag)) 0.

(** The weights are normalised in place and summed (lines 214-218 /
    231-235). *)
Definition normalize (mag_sq : NumericVector) (max_mag : R) (H W : Z)
  : option (NumericVector * R) :=
  for_range 0 (H * W - 1) (fun i st =>
    let '(mag_sq, total_weight) := st in
    m <- vget mag_sq i ;;
    mag_sq <- vset mag_sq i (m / max_mag) ;;
    m <- vget mag_sq i ;;
    Some (mag_sq, total_weight + m)) (mag_sq, 0).

(** The first index whose running sum reaches [r] (lines 221-229 /
    238-246); [idx] keeps its initial value 0 when the loop ends without a
    [break]. *)
Fixpoint crossing_loop (n : nat) (i : Z) (mag_sq : NumericVector)
         (r cumsum : R) : option Z :=
  match n with
  | O => Some 0%Z
  | S n' =>
      m <- vget mag_sq i ;;
      let cumsum := cumsum + m in
      if Rleb r cumsum then Some i
      else crossing_loop n' (i + 1)%Z mag_sq r cumsum
  end.

Definition first_crossing (mag_sq : NumericVector) (r : R) (H W : Z)
  : option Z :=
  crossing_loop (Z.to_nat (H * W)) 0 mag_sq r 0.

(** The seed pixel [(x0, y0)] of a birth proposal. *)
Definition sample_seed (target canvas : NumericVector) (H W : Z)
  : M G (R * R) :=
  mag_sq <~ lift (residual_magnitude target canvas H W) ;;
  max_mag <~ lift (max_magnitude mag_sq H W) ;;
  if Rltb max_mag 1e-6 then
    x0 <~ draw (runif G 1 (IZR W)) ;;
    y0 <~ draw (runif G 1 (IZR H)) ;;
    ret (x0, y0)
  else
    nt <~ lift (normalize mag_sq max_mag H W) ;;
    let '(mag_sq, total_weight) := nt in
    r <~ draw (runif G 0 total_weight) ;;
    idx <~ lift (first_crossing mag_sq r H W) ;;
    let y0 := IZR (Z.rem idx H + 1) in
    let x0 := IZR (Z.quot idx H + 1) in
    ret (x0, y0).

End Seed.

(** * dot_painter_cpp.cpp *)

Module DotPainter.

(** [inline double clamp01(double v)] *)
Definition clamp01 (v : R) : R :=
  if Rltb v 0 then 0
  else if Rltb 1 v then 1
  else v.

(** [inline int idx3(int y, int x, int c, int H, int W)]: the linear index
    of an R array [H, W, 3]; [y] and [x] are 1-based and are converted to
    0-based here. *)
Definition idx3 (y x c H W : Z) : Z :=
  let y0 := (y - 1)%Z in
  let x0 := (x - 1)%Z in
  (y0 + x0 * H + c * H * W)%Z.

(** The coverage of a pixel at squared distance [d2] from the centre of a
    dot of radius [radius] (lines 59-68; the early [continue] of
    [d2 > r2] is the value 0, which the test [coverage <= 0] that
    follows turns into the same [continue]). *)
Definition dot_coverage (radius d2 : R) : R :=
  let r2 := radius * radius in
  if Rltb r2 d2 then 0
  else if Rltb ((radius - 1) * (radius - 1)) d2 then
    let coverage := 1 - sqrt d2 / radius in
    if Rltb coverage 0 then 0 else coverage
  else 1.

(** The body of the pixel loops of [composite_dot_bbox_cpp],
    [re_render_bbox_from_dots_cpp] and [render_full_canvas_from_dots_cpp]
    (lines 44-90, 316-357 and 391-432, the same statements). *)
Definition dot_pixel (H W : Z) (x y radius alpha : R) (col : Color)
           (y0 x0 : Z) (canvas : NumericVector) : option NumericVector :=
  let py := IZR y0 - 0.5 in
  let y_idx := (y0 - 1)%Z in
  let px := IZR x0 - 0.5 in
  let x_idx := (x0 - 1)%Z in
  if ((y_idx <? 0) || (H <=? y_idx) || (x_idx <? 0) || (W <=? x_idx))%Z
  then Some canvas
  else
    let dx := px - x in
    let dy := py - y in
    let d2 := dx * dx + dy * dy in
    let coverage := dot_coverage radius d2 in
    if Rleb coverage 0 || Rleb alpha 0 then Some canvas
    else
      let a := clamp01 (coverage * alpha) in
      let i0 := idx3 y_idx x_idx 0 H W in
      let i1 := idx3 y_idx x_idx 1 H W in
      let i2 := idx3 y_idx x_idx 2 H W in
      if ((i0 <? 0) || (len canvas <=? i0) ||
          (i1 <? 0) || (len canvas <=? i1) ||
          (i2 <? 0) || (len canvas <=? i2))%Z
      then Some canvas
      else
        inR <- vget canvas i0 ;;
        inG <- vget canvas i1 ;;
        inB <- vget canvas i2 ;;
        canvas <- vset canvas i0 (inR + a * (col0 col - inR)) ;;
        canvas <- vset canvas i1 (inG + a * (col1 col - inG)) ;;
        vset canvas i2 (inB + a * (col2 col - inB)).

(** The two nested pixel loops over a rectangle. *)
Definition dot_rect (H W : Z) (x y radius alpha : R) (col : Color)
           (xmin xmax ymin ymax : Z) (canvas : NumericVector)
  : option NumericVector :=
  for_range ymin ymax (fun y0 canvas =>
    for_range xmin xmax (fun x0 canvas =>
      dot_pixel H W x y radius alpha col y0 x0 canvas) canvas) canvas.

(** [composite_dot_bbox_cpp] *)
Definition composite_dot_bbox_cpp (canvas : NumericVector) (H W : Z)
           (x y radius alpha : R) (col : Color)
           (xmin xmax ymin ymax : Z) : option NumericVector :=
  dot_rect H W x y radius alpha col xmin xmax ymin ymax canvas.

(** [sse_bbox_dots_cpp] *)
Definition sse_bbox_dots_cpp (target canvas : NumericVector) (H W : Z)
           (xmin xmax ymin ymax : Z) : option R :=
  for_range ymin ymax (fun y sse =>
    let y_idx := (y - 1)%Z in
    for_range xmin xmax (fun x sse =>
      let x_idx := (x - 1)%Z in
      if ((y_idx <? 0) || (H <=? y_idx) || (x_idx <? 0) || (W <=? x_idx))%Z
      then Some sse
      else
        for_range 0 2 (fun c sse =>
          let idx := idx3 y_idx x_idx c H W in
          if ((idx <? 0) || (len target <=? idx) || (len canvas <=? idx))%Z
          then Some sse
          else
            t <- vget target idx ;;
            v <- vget canvas idx ;;
            let diff := t - v in
            Some (sse + diff * diff)) sse) sse) 0.

(** [dot_bbox_cpp] *)
Definition dot_bbox_cpp (x y radius : R) (W H : Z) : BBox :=
  {| xmin := Z.max 1 (Zfloor (x - radius));
     xmax := Z.min W (Zceil (x + radius));
     ymin := Z.max 1 (Zfloor (y - radius));
     ymax := Z.min H (Zceil (y + radius)) |}.

Section Samplers.

Variable G : Rng.

(** [sample_dot_prior_cpp] *)
Definition sample_dot_prior_cpp (W H : Z) : M G Dot :=
  x <~ draw (runif G 1 (IZR W)) ;;
  y <~ draw (runif G 1 (IZR H)) ;;
  n <~ draw (rnorm G 0 2) ;;
  let radius := Rabs n + 1 in
  alpha <~ draw (rbeta G 2 2) ;;
  c0 <~ draw (runif G 0 1) ;;
  c1 <~ draw (runif G 0 1) ;;
  c2 <~ draw (runif G 0 1) ;;
  ret (mkDot x y radius alpha (mkColor c0 c1 c2)).

(** [jitter_dot_cpp]; the defaults of the step sizes are
    [s_xy = 3], [s_r = 1], [s_a = 0.1], [s_c = 0.08]. *)
Definition jitter_dot_cpp (dot : Dot) (W H : Z) (s_xy s_r s_a s_c : R)
  : M G Dot :=
  n <~ draw (rnorm G 0 s_xy) ;;
  let x := Rmax 1 (Rmin (IZR W) (dot_x dot + n)) in
  n <~ draw (rnorm G 0 s_xy) ;;
  let y := Rmax 1 (Rmin (IZR H) (dot_y dot + n)) in
  n <~ draw (rnorm G 0 s_r) ;;
  let radius := Rmax 1 (dot_radius dot + n) in
  n <~ draw (rnorm G 0 s_a) ;;
  let alpha := Rmin 0.999 (Rmax 0.001 (dot_alpha dot + n)) in
  let col := dot_col dot in
  n <~ draw (rnorm G 0 s_c) ;;
  let c0 := Rmin 1 (Rmax 0 (col0 col + n)) in
  n <~ draw (rnorm G 0 s_c) ;;
  let c1 := Rmin 1 (Rmax 0 (col1 col + n)) in
  n <~ draw (rnorm G 0 s_c) ;;
  let c2 := Rmin 1 (Rmax 0 (col2 col + n)) in
  ret (mkDot x y radius alpha (mkColor c0 c1 c2)).

(** Lines 245-252: one channel of the colour read from the target. *)
Definition seed_channel (target : NumericVector) (H W y_idx x_idx c : Z)
  : M G R :=
  let target_idx := idx3 y_idx x_idx c H W in
  if ((0 <=? target_idx) && (target_idx <? len target))%Z
  then lift (vget target target_idx)
  else draw (runif G 0 1).

(** [sample_dot_birth_datadriven_cpp] *)
Definition sample_dot_birth_datadriven_cpp (target canvas : NumericVector)
           (H W : Z) : M G Dot :=
  seed <~ sample_seed G target canvas H W ;;
  let '(x0, y0) := seed in
  n <~ draw (rnorm G 0 1.5) ;;
  let radius := Rabs n + 1 in
  alpha <~ draw (rbeta G 2 2) ;;
  let x_idx := (trunc x0 - 1)%Z in
  let y_idx := (trunc y0 - 1)%Z in
  col <~ (if ((0 <=? x_idx) && (x_idx <? W) &&
              (0 <=? y_idx) && (y_idx <? H))%Z
          then
            c0 <~ seed_channel target H W y_idx x_idx 0 ;;
            c1 <~ seed_channel target H W y_idx x_idx 1 ;;
            c2 <~ seed_channel target H W y_idx x_idx 2 ;;
            ret (mkColor c0 c1 c2)
          else
            c0 <~ draw (runif G 0 1) ;;
            c1 <~ draw (rnorm G 0 1) ;;
            c2 <~ draw (runif G 0 1) ;;
            ret (mkColor c0 c1 c2)) ;;
  ret (mkDot x0 y0 radius alpha col).

End Samplers.

(** Lines 272-291: the rectangle is reset to white. *)
Definition clear_pixel (H W : Z) (y x : Z) (canvas : NumericVector)
  : option NumericVector :=
  let y_idx := (y - 1)%Z in
  let x_idx := (x - 1)%Z in
  if ((y_idx <? 0) || (H <=? y_idx) || (x_idx <? 0) || (W <=? x_idx))%Z
  then Some canvas
  else
    let i0 := idx3 y_idx x_idx 0 H W in
    let i1 := idx3 y_idx x_idx 1 H W in
    let i2 := idx3 y_idx x_idx 2 H W in
    if ((i0 <? 0) || (len canvas <=? i0) ||
        (i1 <? 0) || (len canvas <=? i1) ||
        (i2 <? 0) || (len canvas <=? i2))%Z
    then Some canvas
    else
      canvas <- vset canvas i0 1 ;;
      canvas <- vset canvas i1 1 ;;
      vset canvas i2 1.

Definition clear_rect (H W : Z) (xmin xmax ymin ymax : Z)
           (canvas : NumericVector) : option NumericVector :=
  for_range ymin ymax (fun y canvas =>
    for_range xmin xmax (fun x canvas => clear_pixel H W y x canvas) canvas)
    canvas.

(** Lines 294-360: one dot of the incremental re-render. *)
Definition re_render_dot (H W : Z) (xmin xmax ymin ymax : Z) (dot : Dot)
           (canvas : NumericVector) : option NumericVector :=
  let x := dot_x dot in
  let y := dot_y dot in
  let radius := dot_radius dot in
  if Rltb (x + radius) (IZR xmin) || Rltb (IZR xmax) (x - radius) ||
     Rltb (y + radius) (IZR ymin) || Rltb (IZR ymax) (y - radius)
  then Some canvas
  else
    let alpha := dot_alpha dot in
    let col := dot_col dot in
    let dot_xmin := Z.max xmin (Zfloor (x - radius)) in
    let dot_xmax := Z.min xmax (Zceil (x + radius)) in
    let dot_ymin := Z.max ymin (Zfloor (y - radius)) in
    let dot_ymax := Z.min ymax (Zceil (y + radius)) in
    dot_rect H W x y radius alpha col dot_xmin dot_xmax dot_ymin dot_ymax
             canvas.

(** [re_render_bbox_from_dots_cpp] *)
Definition re_render_bbox_from_dots_cpp (canvas : NumericVector)
           (dots : list Dot) (H W : Z) (xmin xmax ymin ymax : Z)
  : option NumericVector :=
  canvas <- clear_rect H W xmin xmax ymin ymax canvas ;;
  for_each dots (re_render_dot H W xmin xmax ymin ymax) canvas.

(** Lines 375-435: one dot of the full render. *)
Definition render_dot (H W : Z) (dot : Dot) (canvas : NumericVector)
  : option NumericVector :=
  let x := dot_x dot in
  let y := dot_y dot in
  let radius := dot_radius dot in
  let alpha := dot_alpha dot in
  let col := dot_col dot in
  let xmin := Z.max 1 (Zfloor (x - radius)) in
  let xmax := Z.min W (Zceil (x + radius)) in
  let ymin := Z.max 1 (Zfloor (y - radius)) in
  let ymax := Z.min H (Zceil (y + radius)) in
  dot_rect H W x y radius alpha col xmin xmax ymin ymax canvas.

(** [render_full_canvas_from_dots_cpp] *)
Definition render_full_canvas_from_dots_cpp (canvas : NumericVector)
           (dots : list Dot) (H W : Z) : option NumericVector :=
  canvas <- for_range 0 (len canvas - 1)
              (fun i canvas => vset canvas i 1) canvas ;;
  for_each dots (render_dot H W) canvas.

End DotPainter.

(** * mcmc_painter_cpp.cpp *)

Module McmcPainter.

(** [inline double clamp01(double v)] *)
Definition clamp01 (v : R) : R :=
  if Rltb v 0 then 0
  else if Rltb 1 v then v
  else v.

(** [inline int idx3(int y, int x, int c, int H, int W)] *)
Definition idx3 (y x c H W : Z) : Z :=
  let y0 := (y - 1)%Z in
  let x0 := (x - 1)%Z in
  (y0 + x0 * H + c * H * W)%Z.

(** The squared distance from the pixel centre [(px, py)] to the closest
    point of the segment (lines 39-40 and 61-69). *)
Definition line_d2 (x1 y1 x2 y2 px py : R) : R :=
  let vx := x2 - x1 in
  let vy := y2 - y1 in
  let v2 := vx * vx + vy * vy + 1e-12 in
  let t := ((px - x1) * vx + (py - y1) * vy) / v2 in
  let t := if Rltb t 0 then 0 else if Rltb 1 t then 1 else t in
  let projx := x1 + t * vx in
  let projy := y1 + t * vy in
  let dx := px - projx in
  let dy := py - projy in
  dx * dx + dy * dy.

(** The coverage of a pixel at squared distance [d2] from the segment of
    a line of width [w] (lines 42-47 and 71-84). *)
Definition line_coverage (w d2 : R) : R :=
  let r := 0.5 * w in
  let aa := 0.5 in
  let inr := r - aa in
  let outr := r + aa in
  let in2 := if Rltb 0 inr then inr * inr else 0 in
  let ou2 := outr * outr in
  if Rleb inr 0 then
    if Rltb d2 ou2 then
      let cov := 1 - sqrt d2 / outr in
      if Rltb cov 0 then 0 else cov
    else 0
  else
    if Rleb d2 in2 then 1
    else if Rleb ou2 d2 then 0
    else 1 - (sqrt d2 - inr) / (outr - inr).

(** The body of the pixel loops of [composite_line_bbox_cpp]
    (lines 52-104). *)
Definition composite_line_pixel (H W : Z) (x1 y1 x2 y2 w alpha : R)
           (col : Color) (y x : Z) (canvas : NumericVector)
  : option NumericVector :=
  let py := IZR y - 0.5 in
  let y0 := (y - 1)%Z in
  let px := IZR x - 0.5 in
  let x0 := (x - 1)%Z in
  if ((y0 <? 0) || (H <=? y0) || (x0 <? 0) || (W <=? x0))%Z
  then Some canvas
  else
    let d2 := line_d2 x1 y1 x2 y2 px py in
    let cov := line_coverage w d2 in
    if Rleb cov 0 || Rleb alpha 0 then Some canvas
    else
      let a := clamp01 (cov * alpha) in
      let i0 := idx3 y0 x0 0 H W in
      let i1 := idx3 y0 x0 1 H W in
      let i2 := idx3 y0 x0 2 H W in
      if ((i0 <? 0) || (len canvas <=? i0) ||
          (i1 <? 0) || (len canvas <=? i1) ||
          (i2 <? 0) || (len canvas <=? i2))%Z
      then Some canvas
      else
        inR <- vget canvas i0 ;;
        inG <- vget canvas i1 ;;
        inB <- vget canvas i2 ;;
        canvas <- vset canvas i0 (a * col0 col + (1 - a) * inR) ;;
        canvas <- vset canvas i1 (a * col1 col + (1 - a) * inG) ;;
        vset canvas i2 (a * col2 col + (1 - a) * inB).

(** [composite_line_bbox_cpp] *)
Definition composite_line_bbox_cpp (canvas : NumericVector) (H W : Z)
           (x1 y1 x2 y2 w alpha : R) (col : Color)
           (xmin xmax ymin ymax : Z) : option NumericVector :=
  for_range ymin ymax (fun y canvas =>
    for_range xmin xmax (fun x canvas =>
      composite_line_pixel H W x1 y1 x2 y2 w alpha col y x canvas) canvas)
    canvas.

(** [sse_bbox_cpp] *)
Definition sse_bbox_cpp (target canvas : NumericVector) (H W : Z)
           (xmin xmax ymin ymax : Z) : option R :=
  for_range ymin ymax (fun y acc =>
    for_range xmin xmax (fun x acc =>
      let i0 := idx3 y x 0 H W in
      let i1 := idx3 y x 1 H W in
      let i2 := idx3 y x 2 H W in
      t0 <- vget target i0 ;; c0 <- vget canvas i0 ;;
      let d0 := t0 - c0 in
      t1 <- vget target i1 ;; c1 <- vget canvas i1 ;;
      let d1 := t1 - c1 in
      t2 <- vget target i2 ;; c2 <- vget canvas i2 ;;
      let d2 := t2 - c2 in
      Some (acc + (d0 * d0 + d1 * d1 + d2 * d2))) acc) 0.

(** [line_bbox_cpp]; the default of [pad] is 2. *)
Definition line_bbox_cpp (x1 y1 x2 y2 w : R) (W H : Z) (pad : Z) : BBox :=
  let r := w / 2 + IZR pad in
  {| xmin := Z.max 1 (Zfloor (Rmin x1 x2 - r));
     xmax := Z.min W (Zceil (Rmax x1 x2 + r));
     ymin := Z.max 1 (Zfloor (Rmin y1 y2 - r));
     ymax := Z.min H (Zceil (Rmax y1 y2 + r)) |}.

(** One channel of the blend of lines 381-385 and 460-464. *)
Definition blend_channel (H W : Z) (a : R) (colc : R) (y x c : Z)
           (canvas : NumericVector) : option NumericVector :=
  let i := idx3 y x c H W in
  in_val <- vget canvas i ;;
  vset canvas i (a * colc + (1 - a) * in_val).

(** The body of the pixel loops of [re_render_bbox_from_lines_cpp] and
    [render_full_canvas_cpp] (lines 350-386 and 429-465, the same
    statements). *)
Definition line_pixel (H W : Z) (x1 y1 x2 y2 w alpha : R) (col : Color)
           (y x : Z) (canvas : NumericVector) : option NumericVector :=
  let py := IZR y - 0.5 in
  let px := IZR x - 0.5 in
  let d2 := line_d2 x1 y1 x2 y2 px py in
  let cov := line_coverage w d2 in
  if Rltb 0 cov && Rltb 0 alpha then
    let a := clamp01 (cov * alpha) in
    canvas <- blend_channel H W a (col0 col) y x 0 canvas ;;
    canvas <- blend_channel H W a (col1 col) y x 1 canvas ;;
    blend_channel H W a (col2 col) y x 2 canvas
  else Some canvas.

Definition line_rect (H W : Z) (line : Line) (xmin xmax ymin ymax : Z)
           (canvas : NumericVector) : option NumericVector :=
  for_range ymin ymax (fun y canvas =>
    for_range xmin xmax (fun x canvas =>
      line_pixel H W (line_x1 line) (line_y1 line) (line_x2 line)
                 (line_y2 line) (line_w line) (line_alpha line)
                 (line_col line) y x canvas) canvas) canvas.

Section Samplers.

Variable G : Rng.

(** [sample_line_prior_cpp] *)
Definition sample_line_prior_cpp (W H : Z) : M G Line :=
  x1 <~ draw (runif G 1 (IZR W)) ;;
  y1 <~ draw (runif G 1 (IZR H)) ;;
  ang <~ draw (runif G 0 (2 * PI)) ;;
  n <~ draw (rnorm G 0 30) ;;
  let len := Rabs n + 5 in
  let x2 := Rmax 1 (Rmin (IZR W) (x1 + len * cos ang)) in
  let y2 := Rmax 1 (Rmin (IZR H) (y1 + len * sin ang)) in
  n <~ draw (rnorm G 0 3) ;;
  let w := Rabs n + 1 in
  alpha <~ draw (rbeta G 2 2) ;;
  c0 <~ draw (runif G 0 1) ;;
  c1 <~ draw (runif G 0 1) ;;
  c2 <~ draw (runif G 0 1) ;;
  ret (mkLine x1 y1 x2 y2 w alpha (mkColor c0 c1 c2)).

(** [jitter_line_cpp]; the defaults of the step sizes are
    [s_xy = 3], [s_w = 0.6], [s_a = 0.1], [s_c = 0.08]. *)
Definition jitter_line_cpp (line : Line) (W H : Z) (s_xy s_w s_a s_c : R)
  : M G Line :=
  n <~ draw (rnorm G 0 s_xy) ;;
  let x1 := Rmax 1 (Rmin (IZR W) (line_x1 line + n)) in
  n <~ draw (rnorm G 0 s_xy) ;;
  let y1 := Rmax 1 (Rmin (IZR H) (line_y1 line + n)) in
  n <~ draw (rnorm G 0 s_xy) ;;
  let x2 := Rmax 1 (Rmin (IZR W) (line_x2 line + n)) in
  n <~ draw (rnorm G 0 s_xy) ;;
  let y2 := Rmax 1 (Rmin (IZR H) (line_y2 line + n)) in
  n <~ draw (rnorm G 0 s_w) ;;
  let w := Rmax 0.2 (line_w line + n) in
  n <~ draw (rnorm G 0 s_a) ;;
  let alpha := Rmin 0.999 (Rmax 0.001 (line_alpha line + n)) in
  let col := line_col line in
  n <~ draw (rnorm G 0 s_c) ;;
  let c0 := Rmin 1 (Rmax 0 (col0 col + n)) in
  n <~ draw (rnorm G 0 s_c) ;;
  let c1 := Rmin 1 (Rmax 0 (col1 col + n)) in
  n <~ draw (rnorm G 0 s_c) ;;
  let c2 := Rmin 1 (Rmax 0 (col2 col + n)) in
  ret (mkLine x1 y1 x2 y2 w alpha (mkColor c0 c1 c2)).

(** Lines 263-278: the colour of the target is accumulated at [nprobe]
    points of the segment; the state is the three sums and [count]. *)
Definition probe_colors (target : NumericVector) (H W : Z)
           (x1 y1 x2 y2 : R) (nprobe : Z) : option (R * R * R * Z) :=
  for_range 0 (nprobe - 1) (fun i st =>
    let '(s0, s1, s2, count) := st in
    let t := IZR i / IZR (nprobe - 1) in
    let px := Z.min W (Z.max 1 (round (x1 + t * (x2 - x1)))) in
    let py := Z.min H (Z.max 1 (round (y1 + t * (y2 - y1)))) in
    if ((1 <=? px) && (px <=? W) && (1 <=? py) && (py <=? H))%Z then
      t0 <- vget target (idx3 py px 0 H W) ;;
      t1 <- vget target (idx3 py px 1 H W) ;;
      t2 <- vget target (idx3 py px 2 H W) ;;
      Some (s0 + t0, s1 + t1, s2 + t2, (count + 1)%Z)
    else Some st) (0, 0, 0, 0%Z).

(** [sample_line_birth_datadriven_cpp] *)
Definition sample_line_birth_datadriven_cpp (target canvas : NumericVector)
           (H W : Z) : M G Line :=
  seed <~ sample_seed G target canvas H W ;;
  let '(x0, y0) := seed in
  ang <~ draw (runif G 0 (2 * PI)) ;;
  n <~ draw (rnorm G 0 35) ;;
  let len := Rabs n + 8 in
  let x1 := Rmax 1 (Rmin (IZR W) (x0 - len / 2 * cos ang)) in
  let y1 := Rmax 1 (Rmin (IZR H) (y0 - len / 2 * sin ang)) in
  let x2 := Rmax 1 (Rmin (IZR W) (x0 + len / 2 * cos ang)) in
  let y2 := Rmax 1 (Rmin (IZR H) (y0 + len / 2 * sin ang)) in
  n <~ draw (rnorm G 0 3) ;;
  let w := Rabs n + 1 in
  alpha <~ draw (rbeta G 3 3) ;;
  let nprobe := 20%Z in
  sums <~ lift (probe_colors target H W x1 y1 x2 y2 nprobe) ;;
  let '(s0, s1, s2, count) := sums in
  let col := if (0 <? count)%Z
             then mkColor (s0 / IZR count) (s1 / IZR count) (s2 / IZR count)
             else mkColor s0 s1 s2 in
  ret (mkLine x1 y1 x2 y2 w alpha col).

End Samplers.

(** Lines 303-309: the rectangle is reset to white. *)
Definition clear_rect (H W : Z) (xmin xmax ymin ymax : Z)
           (canvas : NumericVector) : option NumericVector :=
  for_range ymin ymax (fun y canvas =>
    for_range xmin xmax (fun x canvas =>
      for_range 0 2 (fun c canvas =>
        vset canvas (idx3 y x c H W) 1) canvas) canvas) canvas.

(** Lines 313-390: one line of the incremental re-render. *)
Definition re_render_line (H W : Z) (xmin xmax ymin ymax : Z) (line : Line)
           (canvas : NumericVector) : option NumericVector :=
  let x1 := line_x1 line in
  let y1 := line_y1 line in
  let x2 := line_x2 line in
  let y2 := line_y2 line in
  let w := line_w line in
  let r := w / 2 + 2 in
  let line_xmin := Rmin x1 x2 - r in
  let line_xmax := Rmax x1 x2 + r in
  let line_ymin := Rmin y1 y2 - r in
  let line_ymax := Rmax y1 y2 + r in
  if negb (Rltb line_xmax (IZR xmin) || Rltb (IZR xmax) line_xmin ||
           Rltb line_ymax (IZR ymin) || Rltb (IZR ymax) line_ymin)
  then
    let draw_xmin := Z.max xmin (Zfloor line_xmin) in
    let draw_xmax := Z.min xmax (Zceil line_xmax) in
    let draw_ymin := Z.max ymin (Zfloor line_ymin) in
    let draw_ymax := Z.min ymax (Zceil line_ymax) in
    line_rect H W line draw_xmin draw_xmax draw_ymin draw_ymax canvas
  else Some canvas.

(** [re_render_bbox_from_lines_cpp] *)
Definition re_render_bbox_from_lines_cpp (base_canvas : NumericVector)
           (lines : list Line) (xmin xmax ymin ymax : Z) (H W : Z)
  : option NumericVector :=
  let canvas := base_canvas in
  canvas <- clear_rect H W xmin xmax ymin ymax canvas ;;
  for_each lines (re_render_line H W xmin xmax ymin ymax) canvas.

(** Lines 401-468: one line of the full render. *)
Definition render_line (H W : Z) (line : Line) (canvas : NumericVector)
  : option NumericVector :=
  let x1 := line_x1 line in
  let y1 := line_y1 line in
  let x2 := line_x2 line in
  let y2 := line_y2 line in
  let w := line_w line in
  let r := w / 2 + 2 in
  let xmin := Z.max 1 (Zfloor (Rmin x1 x2 - r)) in
  let xmax := Z.min W (Zceil (Rmax x1 x2 + r)) in
  let ymin := Z.max 1 (Zfloor (Rmin y1 y2 - r)) in
  let ymax := Z.min H (Zceil (Rmax y1 y2 + r)) in
  line_rect H W line xmin xmax ymin ymax canvas.

(** [render_full_canvas_cpp] *)
Definition render_full_canvas_cpp (lines : list Line) (H W : Z)
  : option NumericVector :=
  let canvas := repeat 1 (Z.to_nat (H * W * 3)) in
  for_each lines (render_line H W) canvas.

End McmcPainter.

(** * Notions of the specification *)

(** ** Canvas, pixels and rectangles *)

(** The layout of §3: the sample of the pixel in row [y] and column [x]
    (both 1-based), channel [c], of an [H]x[W]x3 buffer; row stride 1,
    column stride [H], channel stride [H*W]. *)
Definition sample_index (H W y x c : Z) : Z :=
  ((y - 1) + (x - 1) * H + c * H * W)%Z.

Definition sample (v : NumericVector) (H W y x c : Z) : R :=
  nth (Z.to_nat (sample_index H W y x c)) v 0.

(** A pixel of the canvas. *)
Definition in_canvas (H W x y : Z) : Prop := (1 <= x <= W /\ 1 <= y <= H)%Z.

(** A rectangle (inclusive bounds) that lies within the canvas, and the
    pixels of a rectangle. *)
Definition rect_in_canvas (H W xmin xmax ymin ymax : Z) : Prop :=
  (1 <= xmin /\ xmax <= W /\ 1 <= ymin /\ ymax <= H)%Z.

Definition in_rect (xmin xmax ymin ymax x y : Z) : Prop :=
  (xmin <= x <= xmax /\ ymin <= y <= ymax)%Z.

Definition in_rectb (xmin xmax ymin ymax x y : Z) : bool :=
  ((xmin <=? x) && (x <=? xmax) && (ymin <=? y) && (y <=? ymax))%Z.

Definition in_bbox (b : BBox) (x y : Z) : Prop :=
  (xmin b <= x <= xmax b /\ ymin b <= y <= ymax b)%Z.

(** Every sample of a buffer satisfies [P]; the interval [0,1]. *)
Definition all_samples (P : R -> Prop) (v : NumericVector) : Prop :=
  Forall P v.

Definition in01 (v : R) : Prop := 0 <= v <= 1.

(** ** Coverage *)

(** The coverage the code computes for the pixel in column [x] and row
    [y], whose centre is [(x - 0.5, y - 0.5)]. *)
Definition dot_coverage_at (d : Dot) (x y : Z) : R :=
  let dx := IZR x - 0.5 - dot_x d in
  let dy := IZR y - 0.5 - dot_y d in
  DotPainter.dot_coverage (dot_radius d) (dx * dx + dy * dy).

Definition line_coverage_at (l : Line) (x y : Z) : R :=
  McmcPainter.line_coverage (line_w l)
    (McmcPainter.line_d2 (line_x1 l) (line_y1 l) (line_x2 l) (line_y2 l)
                         (IZR x - 0.5) (IZR y - 0.5)).

(** The dot coverage of §4.1: 0 beyond the radius, 1 within [radius - 1],
    and in between the linear ramp that is 1 at distance [radius - 1] and
    0 at distance [radius]. *)
Definition dot_coverage_spec (radius d2 : R) : R :=
  if Rltb (radius * radius) d2 then 0
  else if Rltb ((radius - 1) * (radius - 1)) d2 then radius - sqrt d2
  else 1.

(** ** Primitives and generators *)

(** The valid domain of every field of a primitive (§3, §4.5). *)
Definition valid_color (c : Color) : Prop :=
  in01 (col0 c) /\ in01 (col1 c) /\ in01 (col2 c).

Definition valid_dot (W H : Z) (d : Dot) : Prop :=
  1 <= dot_x d <= IZR W /\ 1 <= dot_y d <= IZR H /\
  1 <= dot_radius d /\ 0 < dot_alpha d < 1 /\ valid_color (dot_col d).

Definition valid_line (W H : Z) (l : Line) : Prop :=
  1 <= line_x1 l <= IZR W /\ 1 <= line_y1 l <= IZR H /\
  1 <= line_x2 l <= IZR W /\ 1 <= line_y2 l <= IZR H /\
  0 < line_w l /\ 0 < line_alpha l < 1 /\ valid_color (line_col l).

(** A line whose blend factor stays in [0,1]: width of at least -1, alpha
    strictly between 0 and 1, colour channels in [0,1]. *)
Definition tame_line (l : Line) : Prop :=
  -1 <= line_w l /\ 0 < line_alpha l < 1 /\ valid_color (line_col l).

(** A line of negative width, degenerate at the point (1.5, 1). *)
Definition thin_line : Line := mkLine 1.5 1 1.5 1 (-3) 0.9 (mkColor 0 0 0).

(** Every draw lies in the support of its distribution: a uniform draw
    between its bounds, a Beta draw strictly between 0 and 1; a normal
    draw is any number. *)
Definition rng_in_support (G : Rng) : Prop :=
  (forall a b g, a <= b -> a <= fst (runif G a b g) <= b) /\
  (forall a b g, 0 < fst (rbeta G a b g) < 1).

(** A deterministic generator: every uniform draw is the midpoint of its
    interval, every normal draw its mean, every Beta draw 0.5. *)
Definition midpoint_rng : Rng :=
  {| rng_state := unit;
     runif := fun a b g => ((a + b) / 2, g);
     rnorm := fun mean sd g => (mean, g);
     rbeta := fun a b g => (0.5, g) |}.

(** ** The painting *)

(** §3 and §4.2: the value of one sample once a line is composited over
    it by the alpha-over rule, and once a list of lines is, in list
    order, over white. *)
Definition channel (col : Color) (c : Z) : R :=
  if (c =? 0)%Z then col0 col else if (c =? 1)%Z then col1 col else col2 col.

Definition line_over (l : Line) (x y c : Z) (v : R) : R :=
  let cov := line_coverage_at l x y in
  if Rltb 0 cov && Rltb 0 (line_alpha l) then
    let a := McmcPainter.clamp01 (cov * line_alpha l) in
    a * channel (line_col l) c + (1 - a) * v
  else v.

Definition painting (lines : list Line) (x y c : Z) : R :=
  fold_left (fun v l => line_over l x y c v) lines 1.

(** A buffer operation that rewrites the samples of the pixel in row [y]
    and column [x] by [f] and keeps every other sample of the canvas. *)
Definition pixel_map (H W : Z)
           (body : NumericVector -> option NumericVector)
           (f : Z -> R -> R) (y x : Z) : Prop :=
  forall canvas, len canvas = (H * W * 3)%Z ->
    exists canvas',
      body canvas = Some canvas' /\ len canvas' = (H * W * 3)%Z /\
      (forall c, (0 <= c <= 2)%Z ->
                 sample canvas' H W y x c = f c (sample canvas H W y x c)) /\
      (forall y' x' c, in_canvas H W x' y' -> (0 <= c <= 2)%Z ->
                       (y', x') <> (y, x) ->
                       sample canvas' H W y' x' c = sample canvas H W y' x' c).

(** ** The objective *)

(** Sums over an integer range. *)
Fixpoint sum_from (n : nat) (i : Z) (f : Z -> R) : R :=
  match n with
  | O => 0
  | S n' => f i + sum_from n' (i + 1)%Z f
  end.

Definition sum_range (lo hi : Z) (f : Z -> R) : R :=
  sum_from (Z.to_nat (hi - lo + 1)) lo f.

(** The sum of squared error of §4.4: the sum over the pixels of the
    rectangle and the three channels of [(target[p,c] - canvas[p,c])^2]. *)
Definition pixel_sse (target canvas : NumericVector) (H W y x : Z) : R :=
  sum_range 0 2 (fun c =>
    (sample target H W y x c - sample canvas H W y x c) *
    (sample target H W y x c - sample canvas H W y x c)).

Definition rect_sse (target canvas : NumericVector) (H W : Z)
           (xmin xmax ymin ymax : Z) : R :=
  sum_range ymin ymax (fun y =>
    sum_range xmin xmax (fun x => pixel_sse target canvas H W y x)).

(** ** The birth scenario of §8 *)

(** A 4x4 canvas, all white, and a target that is white except for pixel
    (2,2), which is pure red (1,0,0); pixel (2,2) is pixel index 5, its
    green and blue samples are at 21 and 37. *)
Definition red_target : NumericVector :=
  [1; 1; 1; 1;  1; 1; 1; 1;  1; 1; 1; 1;  1; 1; 1; 1;
   1; 1; 1; 1;  1; 0; 1; 1;  1; 1; 1; 1;  1; 1; 1; 1;
   1; 1; 1; 1;  1; 0; 1; 1;  1; 1; 1; 1;  1; 1; 1; 1].

Definition white_canvas : NumericVector := repeat 1 48.

(** Sixteen weights, all 0 but the one of pixel index 5. *)
Definition peak (v : R) : NumericVector :=
  [0; 0; 0; 0;  0; v; 0; 0;  0; 0; 0; 0;  0; 0; 0; 0].

(** ** The compositing of a dot *)

(** The value of one sample once a dot is composited over it, written as
    the code blends it. *)
Definition dot_over (d : Dot) (x y c : Z) (v : R) : R :=
  let cov := dot_coverage_at d x y in
  if Rltb 0 cov && Rltb 0 (dot_alpha d) then
    let a := DotPainter.clamp01 (cov * dot_alpha d) in
    v + a * (channel (dot_col d) c - v)
  else v.

(** ** The seed and the probes *)

(** The sum of the first [k] weights of the first-crossing loop. *)
Definition prefix_sum (v : NumericVector) (k : Z) : R :=
  sum_range 0 (k - 1) (fun i => nth (Z.to_nat i) v 0).

(** The [i]-th of the [nprobe] pixels probed along a new line, one
    coordinate at a time, and the sum of the target's channel [c] over
    them. *)
Definition probe_pixel (N : Z) (a b : R) (nprobe i : Z) : Z :=
  Z.min N (Z.max 1 (round (a + IZR i / IZR (nprobe - 1) * (b - a)))).

Definition probe_sum (target : NumericVector) (H W : Z) (x1 y1 x2 y2 : R)
           (nprobe c : Z) : R :=
  sum_range 0 (nprobe - 1) (fun i =>
    sample target H W (probe_pixel H y1 y2 nprobe i)
           (probe_pixel W x1 x2 nprobe i) c).

(** * Properties *)

(** ** Comparisons *)

Lemma Rltb_true (a b : R) : Rltb a b = true <-> a < b.
Proof. unfold Rltb. destruct (Rlt_dec a b); split; intros; congruence || lra. Qed.

Lemma Rltb_false (a b : R) : Rltb a b = false <-> b <= a.
Proof. unfold Rltb. destruct (Rlt_dec a b); split; intros; congruence || lra. Qed.

Lemma Rleb_true (a b : R) : Rleb a b = true <-> a <= b.
Proof. unfold Rleb. destruct (Rle_dec a b); split; intros; congruence || lra. Qed.

Lemma Rleb_false (a b : R) : Rleb a b = false <-> b < a.
Proof. unfold Rleb. destruct (Rle_dec a b); split; intros; congruence || lra. Qed.

Lemma sq_nonneg (a : R) : 0 <= a * a.
Proof. apply Rle_0_sqr. Qed.

(** Case analysis on every comparison of doubles in the goal. *)
Ltac rcases :=
  repeat match goal with
         | |- context [Rltb ?a ?b] =>
             let E := fresh "E" in
             destruct (Rltb a b) eqn:E;
             [apply Rltb_true in E | apply Rltb_false in E]
         | |- context [Rleb ?a ?b] =>
             let E := fresh "E" in
             destruct (Rleb a b) eqn:E;
             [apply Rleb_true in E | apply Rleb_false in E]
         end.

(** Run the code on concrete integers and buffers, leaving the arithmetic
    of doubles untouched. *)
Ltac run :=
  cbv -[IZR Q2R Rplus Rminus Rmult Rdiv Ropp Rinv sqrt Rabs Rmax Rmin
        Rltb Rleb Zfloor Zceil PI cos sin].

(** Decide a comparison between two known numbers. *)
Ltac rdecide :=
  repeat match goal with
         | |- context [Rltb ?a ?b] =>
             first [ replace (Rltb a b) with true
                       by (symmetry; apply Rltb_true; lra)
                   | replace (Rltb a b) with false
                       by (symmetry; apply Rltb_false; lra) ]
         | |- context [Rleb ?a ?b] =>
             first [ replace (Rleb a b) with true
                       by (symmetry; apply Rleb_true; lra)
                   | replace (Rleb a b) with false
                       by (symmetry; apply Rleb_false; lra) ]
         end.

(** ** Buffers *)

Lemma length_upd (n : nat) (a : R) (v : NumericVector) :
  length (upd n a v) = length v.
Proof.
  revert n; induction v as [|h t IH]; intros [|n]; simpl; auto.
Qed.

Lemma nth_error_upd_eq (n : nat) (a : R) (v : NumericVector) :
  (n < length v)%nat -> nth_error (upd n a v) n = Some a.
Proof.
  revert n; induction v as [|h t IH]; intros [|n] Hn; simpl in *;
    try lia; auto.
  apply IH; lia.
Qed.

Lemma nth_error_upd_ne (n m : nat) (a : R) (v : NumericVector) :
  n <> m -> nth_error (upd n a v) m = nth_error v m.
Proof.
  revert n m; induction v as [|h t IH]; intros [|n] [|m] Hnm; simpl;
    try congruence; auto.
Qed.

Lemma len_nonneg (v : NumericVector) : (0 <= len v)%Z.
Proof. unfold len; lia. Qed.

Lemma vset_Some (v : NumericVector) (i : Z) (a : R) :
  (0 <= i < len v)%Z -> vset v i a = Some (upd (Z.to_nat i) a v).
Proof.
  intros Hi. unfold vset.
  destruct (Z.ltb_spec i 0); try lia.
  destruct (Z.leb_spec (len v) i); try lia. reflexivity.
Qed.

Lemma vset_inv (v v' : NumericVector) (i : Z) (a : R) :
  vset v i a = Some v' ->
  (0 <= i < len v)%Z /\ v' = upd (Z.to_nat i) a v.
Proof.
  unfold vset.
  destruct (Z.ltb_spec i 0); simpl; try discriminate.
  destruct (Z.leb_spec (len v) i); try discriminate.
  intros E; inversion E; split; auto; lia.
Qed.

Lemma vset_None (v : NumericVector) (i : Z) (a : R) :
  (i < 0 \/ len v <= i)%Z -> vset v i a = None.
Proof.
  intros Hi. unfold vset.
  destruct (Z.ltb_spec i 0); simpl; auto.
  destruct (Z.leb_spec (len v) i); auto; lia.
Qed.

Lemma vget_Some (v : NumericVector) (i : Z) :
  (0 <= i < len v)%Z -> exists a, vget v i = Some a.
Proof.
  intros Hi. unfold vget.
  destruct (Z.ltb_spec i 0); try lia.
  destruct (nth_error v (Z.to_nat i)) eqn:E; eauto.
  apply nth_error_None in E. unfold len in Hi. lia.
Qed.

Lemma vget_inv (v : NumericVector) (i : Z) (a : R) :
  vget v i = Some a -> (0 <= i < len v)%Z.
Proof.
  unfold vget. destruct (Z.ltb_spec i 0); try discriminate.
  intros E. assert (E' : nth_error v (Z.to_nat i) <> None) by congruence.
  apply nth_error_Some in E'. unfold len. lia.
Qed.

Lemma vget_None (v : NumericVector) (i : Z) :
  (i < 0 \/ len v <= i)%Z -> vget v i = None.
Proof.
  intros Hi. destruct (vget v i) eqn:E; auto.
  apply vget_inv in E. lia.
Qed.

Lemma len_upd (n : nat) (a : R) (v : NumericVector) : len (upd n a v) = len v.
Proof. unfold len. now rewrite length_upd. Qed.

Lemma vget_upd_eq (v : NumericVector) (i : Z) (a : R) :
  (0 <= i < len v)%Z -> vget (upd (Z.to_nat i) a v) i = Some a.
Proof.
  intros Hi. unfold vget. destruct (Z.ltb_spec i 0); try lia.
  apply nth_error_upd_eq. unfold len in Hi. lia.
Qed.

Lemma vget_upd_ne (v : NumericVector) (i j : Z) (a : R) :
  (0 <= i)%Z -> i <> j -> vget (upd (Z.to_nat i) a v) j = vget v j.
Proof.
  intros Hi Hij. unfold vget. destruct (Z.ltb_spec j 0); auto.
  apply nth_error_upd_ne. lia.
Qed.

Lemma all_samples_upd (P : R -> Prop) (n : nat) (a : R) (v : NumericVector) :
  P a -> all_samples P v -> all_samples P (upd n a v).
Proof.
  unfold all_samples. intros Pa. revert n.
  induction v as [|h t IH]; intros [|n] Hv; simpl; auto;
    inversion Hv; subst; constructor; auto.
Qed.

Lemma all_samples_vget (P : R -> Prop) (v : NumericVector) (i : Z) (a : R) :
  all_samples P v -> vget v i = Some a -> P a.
Proof.
  unfold all_samples, vget. intros Hv.
  destruct (Z.ltb_spec i 0); try discriminate.
  intros E. apply nth_error_In in E.
  rewrite Forall_forall in Hv. auto.
Qed.

(** Every sample of an explicit buffer lies in [0,1]. *)
Ltac samples_in01 :=
  unfold all_samples;
  repeat (apply Forall_cons; [unfold in01; lra|]);
  apply Forall_nil.

(** ** Loops *)

(** A loop whose body never faults under an invariant indexed by the loop
    counter runs to completion and establishes the invariant at the end. *)
Lemma for_loop_total {St : Type} (P : Z -> St -> Prop)
      (body : Z -> St -> option St) (n : nat) (i : Z) (s : St) :
  P i s ->
  (forall j t, (i <= j < i + Z.of_nat n)%Z -> P j t ->
               exists t', body j t = Some t' /\ P (j + 1)%Z t') ->
  exists s', for_loop n i body s = Some s' /\ P (i + Z.of_nat n)%Z s'.
Proof.
  revert i s. induction n as [|n IH]; intros i s Hs Hbody.
  - exists s. simpl. rewrite Z.add_0_r. auto.
  - simpl for_loop.
    destruct (Hbody i s) as [t [Et Pt]]; [lia | auto |].
    rewrite Et. cbn [obind].
    destruct (IH (i + 1)%Z t Pt) as [s' [Es' Ps']].
    + intros j u Hj Pu. apply Hbody; auto. lia.
    + exists s'. split; auto.
      replace (i + Z.of_nat (S n))%Z with (i + 1 + Z.of_nat n)%Z by lia.
      exact Ps'.
Qed.

Lemma for_range_total {St : Type} (P : Z -> St -> Prop)
      (body : Z -> St -> option St) (lo hi : Z) (s : St) :
  P lo s ->
  (forall j t, (lo <= j <= hi)%Z -> P j t ->
               exists t', body j t = Some t' /\ P (j + 1)%Z t') ->
  exists s', for_range lo hi body s = Some s' /\
             P (Z.max lo (hi + 1)) s'.
Proof.
  intros Hs Hbody. unfold for_range.
  destruct (for_loop_total P body (Z.to_nat (hi - lo + 1)) lo s Hs)
    as [s' [Es' Ps']].
  - intros j t Hj. apply Hbody. lia.
  - exists s'. split; auto.
    replace (Z.max lo (hi + 1)) with (lo + Z.of_nat (Z.to_nat (hi - lo + 1)))%Z
      by lia.
    exact Ps'.
Qed.

(** The same with an invariant that does not mention the counter. *)
Lemma for_range_inv {St : Type} (P : St -> Prop)
      (body : Z -> St -> option St) (lo hi : Z) (s : St) :
  P s ->
  (forall j t, (lo <= j <= hi)%Z -> P t ->
               exists t', body j t = Some t' /\ P t') ->
  exists s', for_range lo hi body s = Some s' /\ P s'.
Proof.
  intros Hs Hbody.
  destruct (for_range_total (fun _ => P) body lo hi s Hs Hbody)
    as [s' [E Ps']].
  eauto.
Qed.

Lemma for_each_inv {A St : Type} (P : St -> Prop)
      (body : A -> St -> option St) (l : list A) (s : St) :
  P s ->
  (forall e t, In e l -> P t -> exists t', body e t = Some t' /\ P t') ->
  exists s', for_each l body s = Some s' /\ P s'.
Proof.
  revert s. induction l as [|e l IH]; intros s Hs Hbody.
  - exists s. simpl. auto.
  - simpl for_each.
    destruct (Hbody e s) as [t [Et Pt]]; [left; auto | auto |].
    rewrite Et. cbn [obind]. apply IH; auto.
    intros e' u He'. apply Hbody. right; auto.
Qed.

Lemma for_loop_S {St : Type} (n : nat) (i : Z)
      (body : Z -> St -> option St) (s : St) :
  for_loop (S n) i body s = (s' <- body i s ;; for_loop n (i + 1)%Z body s').
Proof. reflexivity. Qed.

Lemma for_range_empty {St : Type} (body : Z -> St -> option St)
      (lo hi : Z) (s : St) :
  (hi < lo)%Z -> for_range lo hi body s = Some s.
Proof.
  intros Hlt. unfold for_range.
  replace (Z.to_nat (hi - lo + 1)) with O by lia. reflexivity.
Qed.

Lemma for_loop_preserves {St : Type} (P : St -> Prop)
      (body : Z -> St -> option St) (n : nat) (i : Z) (s s' : St) :
  P s ->
  (forall j t t', P t -> body j t = Some t' -> P t') ->
  for_loop n i body s = Some s' -> P s'.
Proof.
  revert i s. induction n as [|n IH]; intros i s Hs Hbody E.
  - cbn in E. inversion E. now subst.
  - cbn [for_loop] in E. destruct (body i s) as [t|] eqn:Et; [|discriminate].
    cbn [obind] in E. apply (IH (i + 1)%Z t); auto.
    apply (Hbody i s t); auto.
Qed.

Lemma for_range_preserves {St : Type} (P : St -> Prop)
      (body : Z -> St -> option St) (lo hi : Z) (s s' : St) :
  P s ->
  (forall j t t', P t -> body j t = Some t' -> P t') ->
  for_range lo hi body s = Some s' -> P s'.
Proof. unfold for_range. apply for_loop_preserves. Qed.

Lemma for_each_preserves {A St : Type} (P : St -> Prop)
      (body : A -> St -> option St) (l : list A) (s s' : St) :
  P s ->
  (forall e t t', In e l -> P t -> body e t = Some t' -> P t') ->
  for_each l body s = Some s' -> P s'.
Proof.
  revert s. induction l as [|e l IH]; intros s Hs Hbody E.
  - cbn in E. inversion E. now subst.
  - cbn [for_each] in E. destruct (body e s) as [t|] eqn:Et; [|discriminate].
    cbn [obind] in E. apply (IH t); auto.
    + apply (Hbody e s t); auto. now left.
    + intros e' u u' He'. apply Hbody. now right.
Qed.

(** ** The layout *)

Lemma sample_index_bounds (H W y x c : Z) :
  (1 <= y <= H)%Z -> (1 <= x <= W)%Z -> (0 <= c <= 2)%Z ->
  (0 <= sample_index H W y x c < H * W * 3)%Z.
Proof.
  intros Hy Hx Hc. unfold sample_index.
  rewrite <- (Z.mul_assoc c H W).
  assert (0 <= (x - 1) * H)%Z by nia.
  assert ((x - 1) * H + H <= H * W)%Z by nia.
  assert (0 <= c * (H * W))%Z by nia.
  assert (c * (H * W) <= 2 * (H * W))%Z by nia.
  lia.
Qed.

Lemma sample_index_inj (H W y x c y' x' c' : Z) :
  (1 <= y <= H)%Z -> (1 <= x <= W)%Z ->
  (1 <= y' <= H)%Z -> (1 <= x' <= W)%Z ->
  sample_index H W y x c = sample_index H W y' x' c' ->
  y = y' /\ x = x' /\ c = c'.
Proof.
  unfold sample_index. intros Hy Hx Hy' Hx' E.
  rewrite <- (Z.mul_assoc c H W), <- (Z.mul_assoc c' H W) in E.
  assert (0 <= (x - 1) * H)%Z by nia.
  assert ((x - 1) * H + H <= H * W)%Z by nia.
  assert (0 <= (x' - 1) * H)%Z by nia.
  assert ((x' - 1) * H + H <= H * W)%Z by nia.
  assert (Ec : c = c').
  { destruct (Z.lt_trichotomy c c') as [Hlt | [Heq | Hgt]]; auto; exfalso.
    - assert ((c + 1) * (H * W) <= c' * (H * W))%Z
        by (apply Z.mul_le_mono_nonneg_r; lia).
      lia.
    - assert ((c' + 1) * (H * W) <= c * (H * W))%Z
        by (apply Z.mul_le_mono_nonneg_r; lia).
      lia. }
  subst c'.
  assert (Ex : x = x').
  { destruct (Z.lt_trichotomy x x') as [Hlt | [Heq | Hgt]]; auto; exfalso.
    - assert (x * H <= (x' - 1) * H)%Z
        by (apply Z.mul_le_mono_nonneg_r; lia).
      lia.
    - assert (x' * H <= (x - 1) * H)%Z
        by (apply Z.mul_le_mono_nonneg_r; lia).
      lia. }
  subst x'. repeat split; auto. lia.
Qed.

Lemma vget_sample (v : NumericVector) (H W y x c : Z) :
  (0 <= sample_index H W y x c < len v)%Z ->
  vget v (sample_index H W y x c) = Some (sample v H W y x c).
Proof.
  intros Hi. unfold vget, sample.
  destruct (Z.ltb_spec (sample_index H W y x c) 0); try lia.
  apply nth_error_nth'. unfold len in Hi. lia.
Qed.

Lemma nth_upd_eq (n : nat) (a : R) (v : NumericVector) :
  (n < length v)%nat -> nth n (upd n a v) 0 = a.
Proof.
  revert n; induction v as [|h t IH]; intros [|n] Hn; simpl in *;
    try lia; auto.
  apply IH; lia.
Qed.

Lemma nth_upd_ne (n m : nat) (a : R) (v : NumericVector) :
  n <> m -> nth m (upd n a v) 0 = nth m v 0.
Proof.
  revert n m; induction v as [|h t IH]; intros [|n] [|m] Hnm; simpl;
    try congruence; auto.
Qed.

(** One sample of an in-canvas pixel is overwritten. *)
Lemma sample_upd (canvas : NumericVector) (H W y x c : Z) (a : R)
      (y' x' c' : Z) :
  len canvas = (H * W * 3)%Z ->
  in_canvas H W x y -> (0 <= c <= 2)%Z ->
  in_canvas H W x' y' -> (0 <= c' <= 2)%Z ->
  sample (upd (Z.to_nat (sample_index H W y x c)) a canvas) H W y' x' c'
  = if ((y' =? y) && (x' =? x) && (c' =? c))%Z then a
    else sample canvas H W y' x' c'.
Proof.
  intros L [Hx Hy] Hc [Hx' Hy'] Hc'. unfold sample.
  pose proof (sample_index_bounds H W y x c Hy Hx Hc) as B.
  pose proof (sample_index_bounds H W y' x' c' Hy' Hx' Hc') as B'.
  destruct ((y' =? y) && (x' =? x) && (c' =? c))%Z eqn:E.
  - apply andb_true_iff in E. destruct E as [E Ec].
    apply andb_true_iff in E. destruct E as [Ey Ex].
    apply Z.eqb_eq in Ey, Ex, Ec. subst.
    apply nth_upd_eq. unfold len in L. lia.
  - apply nth_upd_ne. intros Heq.
    assert (Hi : sample_index H W y x c = sample_index H W y' x' c') by lia.
    destruct (sample_index_inj H W y x c y' x' c' Hy Hx Hy' Hx' Hi)
      as (Ey & Ex & Ec).
    subst. rewrite !Z.eqb_refl in E. discriminate.
Qed.

(** ** Sums *)

Lemma sum_from_ext (n : nat) (i : Z) (f g : Z -> R) :
  (forall j, (i <= j < i + Z.of_nat n)%Z -> f j = g j) ->
  sum_from n i f = sum_from n i g.
Proof.
  revert i. induction n as [|n IH]; intros i Hfg; cbn [sum_from]; auto.
  rewrite Hfg by lia. rewrite (IH (i + 1)%Z); auto.
  intros j Hj. apply Hfg. lia.
Qed.

Lemma sum_from_nonneg (n : nat) (i : Z) (f : Z -> R) :
  (forall j, (i <= j < i + Z.of_nat n)%Z -> 0 <= f j) ->
  0 <= sum_from n i f.
Proof.
  revert i. induction n as [|n IH]; intros i Hf; cbn [sum_from]; [lra|].
  assert (0 <= f i) by (apply Hf; lia).
  assert (0 <= sum_from n (i + 1) f) by (apply IH; intros; apply Hf; lia).
  lra.
Qed.

Lemma sum_from_zero (n : nat) (i : Z) (f : Z -> R) :
  (forall j, (i <= j < i + Z.of_nat n)%Z -> 0 <= f j) ->
  (sum_from n i f = 0 <->
   forall j, (i <= j < i + Z.of_nat n)%Z -> f j = 0).
Proof.
  revert i. induction n as [|n IH]; intros i Hf; cbn [sum_from].
  - split; auto. intros _ j Hj. lia.
  - assert (H0 : 0 <= f i) by (apply Hf; lia).
    assert (Hn : forall j, (i + 1 <= j < i + 1 + Z.of_nat n)%Z -> 0 <= f j)
      by (intros; apply Hf; lia).
    pose proof (sum_from_nonneg n (i + 1) f Hn) as Hs.
    split.
    + intros E j Hj.
      destruct (Z.eq_dec j i) as [->|Hne]; [lra|].
      apply (proj1 (IH (i + 1)%Z Hn)); [lra | lia].
    + intros Hz. rewrite (Hz i) by lia.
      rewrite (proj2 (IH (i + 1)%Z Hn)); [lra|].
      intros j Hj. apply Hz. lia.
Qed.

Lemma sum_from_app (n m : nat) (i : Z) (f : Z -> R) :
  sum_from (n + m) i f = sum_from n i f + sum_from m (i + Z.of_nat n) f.
Proof.
  revert i. induction n as [|n IH]; intros i.
  - cbn [sum_from Nat.add]. rewrite Z.add_0_r. lra.
  - cbn [sum_from Nat.add]. rewrite IH.
    replace (i + 1 + Z.of_nat n)%Z with (i + Z.of_nat (S n))%Z by lia. lra.
Qed.

Lemma sum_range_nonneg (lo hi : Z) (f : Z -> R) :
  (forall j, (lo <= j <= hi)%Z -> 0 <= f j) -> 0 <= sum_range lo hi f.
Proof.
  intros Hf. apply sum_from_nonneg. intros j Hj. apply Hf. lia.
Qed.

Lemma sum_range_zero (lo hi : Z) (f : Z -> R) :
  (forall j, (lo <= j <= hi)%Z -> 0 <= f j) ->
  (sum_range lo hi f = 0 <-> forall j, (lo <= j <= hi)%Z -> f j = 0).
Proof.
  intros Hf. unfold sum_range.
  rewrite sum_from_zero by (intros j Hj; apply Hf; lia).
  split; intros Hz j Hj; apply Hz; lia.
Qed.

Lemma sum_range_split (lo mid hi : Z) (f : Z -> R) :
  (lo - 1 <= mid <= hi)%Z ->
  sum_range lo hi f = sum_range lo mid f + sum_range (mid + 1) hi f.
Proof.
  intros Hm. unfold sum_range.
  replace (Z.to_nat (hi - lo + 1))
    with (Z.to_nat (mid - lo + 1) + Z.to_nat (hi - (mid + 1) + 1))%nat by lia.
  rewrite sum_from_app.
  replace (lo + Z.of_nat (Z.to_nat (mid - lo + 1)))%Z with (mid + 1)%Z by lia.
  reflexivity.
Qed.

Lemma sum_range_ext (lo hi : Z) (f g : Z -> R) :
  (forall j, (lo <= j <= hi)%Z -> f j = g j) ->
  sum_range lo hi f = sum_range lo hi g.
Proof.
  intros Hfg. apply sum_from_ext. intros j Hj. apply Hfg. lia.
Qed.

Lemma sum_range_0_2 (f : Z -> R) : sum_range 0 2 f = f 0%Z + f 1%Z + f 2%Z.
Proof.
  unfold sum_range. change (Z.to_nat (2 - 0 + 1)) with 3%nat.
  cbn [sum_from]. change (0 + 1)%Z with 1%Z. change (1 + 1)%Z with 2%Z.
  lra.
Qed.

(** An accumulating loop computes a sum. *)
Lemma for_loop_sum (body : Z -> R -> option R) (f : Z -> R)
      (n : nat) (i : Z) (acc : R) :
  (forall j a, (i <= j < i + Z.of_nat n)%Z -> body j a = Some (a + f j)) ->
  for_loop n i body acc = Some (acc + sum_from n i f).
Proof.
  revert i acc. induction n as [|n IH]; intros i acc Hb; cbn [for_loop sum_from].
  - f_equal. lra.
  - rewrite Hb by lia. cbn [obind]. rewrite IH.
    + f_equal. lra.
    + intros j a Hj. apply Hb. lia.
Qed.

Lemma for_range_sum (body : Z -> R -> option R) (f : Z -> R)
      (lo hi : Z) (acc : R) :
  (forall j a, (lo <= j <= hi)%Z -> body j a = Some (a + f j)) ->
  for_range lo hi body acc = Some (acc + sum_range lo hi f).
Proof.
  intros Hb. apply for_loop_sum. intros j a Hj. apply Hb. lia.
Qed.

(** ** Coverage of a dot *)

Lemma dot_coverage_outside (radius d2 : R) :
  radius * radius < d2 -> DotPainter.dot_coverage radius d2 = 0.
Proof.
  intros Hd. unfold DotPainter.dot_coverage. cbv zeta.
  now replace (Rltb (radius * radius) d2) with true
    by (symmetry; apply Rltb_true; lra).
Qed.

Lemma dot_coverage_core (radius d2 : R) :
  1 <= radius -> d2 <= (radius - 1) * (radius - 1) ->
  DotPainter.dot_coverage radius d2 = 1.
Proof.
  intros Hr Hd. unfold DotPainter.dot_coverage. cbv zeta.
  replace (Rltb (radius * radius) d2) with false
    by (symmetry; apply Rltb_false; nra).
  now replace (Rltb ((radius - 1) * (radius - 1)) d2) with false
    by (symmetry; apply Rltb_false; lra).
Qed.

Lemma sqrt_le_radius (radius d2 : R) :
  0 <= radius -> 0 <= d2 -> d2 <= radius * radius -> sqrt d2 <= radius.
Proof.
  intros Hr Hd Hle.
  rewrite <- (sqrt_square radius) by lra.
  apply sqrt_le_1; nra.
Qed.

(** In the soft band the code computes [1 - sqrt d2 / radius]. *)
Lemma dot_coverage_band (radius d2 : R) :
  1 <= radius -> (radius - 1) * (radius - 1) < d2 <= radius * radius ->
  DotPainter.dot_coverage radius d2 = 1 - sqrt d2 / radius.
Proof.
  intros Hr [Hlo Hhi]. unfold DotPainter.dot_coverage. cbv zeta.
  replace (Rltb (radius * radius) d2) with false
    by (symmetry; apply Rltb_false; lra).
  replace (Rltb ((radius - 1) * (radius - 1)) d2) with true
    by (symmetry; apply Rltb_true; lra).
  assert (Hs : sqrt d2 <= radius) by (apply sqrt_le_radius; nra).
  assert (Hq : sqrt d2 / radius <= 1).
  { apply Rmult_le_reg_r with radius; [lra|].
    unfold Rdiv. rewrite Rmult_assoc, Rinv_l by lra. lra. }
  now replace (Rltb (1 - sqrt d2 / radius) 0) with false
    by (symmetry; apply Rltb_false; lra).
Qed.

(** For a radius above 1 that value lies strictly below the linear ramp
    of the specification at every point of the band short of its outer
    edge. *)
Lemma dot_coverage_below_ramp (radius d2 : R) :
  1 < radius -> (radius - 1) * (radius - 1) < d2 < radius * radius ->
  DotPainter.dot_coverage radius d2 < dot_coverage_spec radius d2.
Proof.
  intros Hr [Hlo Hhi].
  rewrite dot_coverage_band by lra.
  unfold dot_coverage_spec.
  replace (Rltb (radius * radius) d2) with false
    by (symmetry; apply Rltb_false; lra).
  replace (Rltb ((radius - 1) * (radius - 1)) d2) with true
    by (symmetry; apply Rltb_true; lra).
  assert (Hd : 0 <= d2) by nra.
  assert (Hs : sqrt d2 < radius).
  { rewrite <- (sqrt_square radius) by lra. apply sqrt_lt_1; nra. }
  assert (Hs0 : 0 <= sqrt d2) by apply sqrt_pos.
  assert (Hq : sqrt d2 / radius = sqrt d2 * / radius) by reflexivity.
  assert (Hi : 0 < / radius) by (apply Rinv_0_lt_compat; lra).
  assert (Hri : radius * / radius = 1) by (apply Rinv_r; lra).
  rewrite Hq.
  assert (Hk : (radius - sqrt d2) - (1 - sqrt d2 * / radius)
               = (radius - 1) * (radius - sqrt d2) * / radius).
  { transitivity ((radius - 1) * (radius * / radius)
                  - (radius - 1) * sqrt d2 * / radius); [|ring].
    rewrite Hri.
    transitivity (radius - 1 - (radius * / radius) * sqrt d2
                  + sqrt d2 * / radius); [rewrite Hri; ring | ring]. }
  assert (0 < (radius - 1) * (radius - sqrt d2) * / radius).
  { apply Rmult_lt_0_compat; [apply Rmult_lt_0_compat|]; lra. }
  lra.
Qed.

Lemma sqrt_2_25 : sqrt 2.25 = 1.5.
Proof. apply sqrt_lem_1; lra. Qed.

(** C3.  For a dot of radius 2 and a pixel at squared distance 2.25
    (distance 1.5, the middle of the soft band) the code computes the
    coverage [1 - 1.5 / 2 = 0.25]; the linear ramp from 1 at distance 1 to
    0 at distance 2 is 0.5 there. *)
Theorem dot_coverage_band_is_not_the_linear_ramp :
  (2 - 1) * (2 - 1) < 2.25 <= 2 * 2
  /\ DotPainter.dot_coverage 2 2.25 = 0.25
  /\ dot_coverage_spec 2 2.25 = 0.5.
Proof.
  split; [lra|]. split.
  - rewrite dot_coverage_band by lra. rewrite sqrt_2_25. lra.
  - unfold dot_coverage_spec.
    replace (Rltb (2 * 2) 2.25) with false
      by (symmetry; apply Rltb_false; lra).
    replace (Rltb ((2 - 1) * (2 - 1)) 2.25) with true
      by (symmetry; apply Rltb_true; lra).
    rewrite sqrt_2_25. lra.
Qed.

(** ** Coverage lies in [0,1] and vanishes outside the bounding box *)

Lemma dot_coverage_range (radius d2 : R) :
  0 <= d2 -> 0 <= DotPainter.dot_coverage radius d2 <= 1.
Proof.
  intros Hd. unfold DotPainter.dot_coverage. cbv zeta. rcases; try lra.
  assert (Hr : 0 < radius) by nra.
  assert (0 <= sqrt d2) by apply sqrt_pos.
  assert (0 < / radius) by (apply Rinv_0_lt_compat; lra).
  assert (0 <= sqrt d2 / radius)
    by (unfold Rdiv; apply Rmult_le_pos; lra).
  lra.
Qed.

Lemma sqrt_between (a b d2 : R) :
  0 <= a -> 0 <= b -> a * a < d2 -> d2 < b * b -> a < sqrt d2 < b.
Proof.
  intros Ha Hb Hlo Hhi. split.
  - rewrite <- (sqrt_square a) by lra. apply sqrt_lt_1; nra.
  - rewrite <- (sqrt_square b) by lra. apply sqrt_lt_1; nra.
Qed.

Lemma line_coverage_range (w d2 : R) :
  -1 <= w -> 0 <= d2 -> 0 <= McmcPainter.line_coverage w d2 <= 1.
Proof.
  intros Hw Hd. unfold McmcPainter.line_coverage. cbv zeta.
  destruct (Rleb (0.5 * w - 0.5) 0) eqn:Einr.
  - apply Rleb_true in Einr. rcases; try lra.
    assert (Ho : 0 < 0.5 * w + 0.5) by nra.
    assert (0 <= sqrt d2) by apply sqrt_pos.
    assert (0 < / (0.5 * w + 0.5)) by (apply Rinv_0_lt_compat; lra).
    assert (0 <= sqrt d2 / (0.5 * w + 0.5))
      by (unfold Rdiv; apply Rmult_le_pos; lra).
    lra.
  - apply Rleb_false in Einr.
    replace (Rltb 0 (0.5 * w - 0.5)) with true
      by (symmetry; apply Rltb_true; lra).
    rcases; try lra.
    replace (0.5 * w + 0.5 - (0.5 * w - 0.5)) with 1 by lra.
    destruct (sqrt_between (0.5 * w - 0.5) (0.5 * w + 0.5) d2); lra.
Qed.

Lemma line_coverage_far (w d2 : R) :
  -1 <= w -> (0.5 * w + 0.5) * (0.5 * w + 0.5) <= d2 ->
  McmcPainter.line_coverage w d2 = 0.
Proof.
  intros Hw Hd. unfold McmcPainter.line_coverage. cbv zeta.
  destruct (Rleb (0.5 * w - 0.5) 0) eqn:Einr.
  - replace (Rltb d2 ((0.5 * w + 0.5) * (0.5 * w + 0.5))) with false
      by (symmetry; apply Rltb_false; lra).
    reflexivity.
  - apply Rleb_false in Einr.
    replace (Rltb 0 (0.5 * w - 0.5)) with true
      by (symmetry; apply Rltb_true; lra).
    replace (Rleb d2 ((0.5 * w - 0.5) * (0.5 * w - 0.5))) with false
      by (symmetry; apply Rleb_false; nra).
    replace (Rleb ((0.5 * w + 0.5) * (0.5 * w + 0.5)) d2) with true
      by (symmetry; apply Rleb_true; lra).
    reflexivity.
Qed.

(** The closest point of the segment is [(x1, y1) + t (x2 - x1, y2 - y1)]
    for some [t] in [0,1]. *)
Lemma line_d2_projection (x1 y1 x2 y2 px py : R) :
  exists t, 0 <= t <= 1 /\
    McmcPainter.line_d2 x1 y1 x2 y2 px py
    = (px - (x1 + t * (x2 - x1))) * (px - (x1 + t * (x2 - x1)))
      + (py - (y1 + t * (y2 - y1))) * (py - (y1 + t * (y2 - y1))).
Proof.
  unfold McmcPainter.line_d2. cbv zeta.
  set (t := ((px - x1) * (x2 - x1) + (py - y1) * (y2 - y1)) /
            ((x2 - x1) * (x2 - x1) + (y2 - y1) * (y2 - y1) + 1e-12)).
  destruct (Rltb t 0) eqn:E0.
  - exists 0. split; [lra | reflexivity].
  - destruct (Rltb 1 t) eqn:E1.
    + exists 1. split; [lra | reflexivity].
    + apply Rltb_false in E0, E1. exists t. split; [lra | reflexivity].
Qed.

Lemma line_d2_nonneg (x1 y1 x2 y2 px py : R) :
  0 <= McmcPainter.line_d2 x1 y1 x2 y2 px py.
Proof.
  destruct (line_d2_projection x1 y1 x2 y2 px py) as [t [_ ->]].
  pose proof (sq_nonneg (px - (x1 + t * (x2 - x1)))).
  pose proof (sq_nonneg (py - (y1 + t * (y2 - y1)))). lra.
Qed.

Lemma segment_point_range (a b t : R) :
  0 <= t <= 1 -> Rmin a b <= a + t * (b - a) <= Rmax a b.
Proof.
  intros Ht.
  pose proof (Rmin_l a b). pose proof (Rmin_r a b).
  pose proof (Rmax_l a b). pose proof (Rmax_r a b).
  assert (0 <= (1 - t) * (a - Rmin a b)) by (apply Rmult_le_pos; lra).
  assert (0 <= t * (b - Rmin a b)) by (apply Rmult_le_pos; lra).
  assert (0 <= (1 - t) * (Rmax a b - a)) by (apply Rmult_le_pos; lra).
  assert (0 <= t * (Rmax a b - b)) by (apply Rmult_le_pos; lra).
  split; nra.
Qed.

(** A pixel centre at least [m] beyond the extent of the segment along
    one axis is at squared distance at least [m * m] from the segment. *)
Lemma line_d2_far (x1 y1 x2 y2 px py m : R) :
  0 <= m ->
  px <= Rmin x1 x2 - m \/ Rmax x1 x2 + m <= px \/
  py <= Rmin y1 y2 - m \/ Rmax y1 y2 + m <= py ->
  m * m <= McmcPainter.line_d2 x1 y1 x2 y2 px py.
Proof.
  intros Hm Hfar.
  destruct (line_d2_projection x1 y1 x2 y2 px py) as [t [Ht ->]].
  pose proof (segment_point_range x1 x2 t Ht) as Hx.
  pose proof (segment_point_range y1 y2 t Ht) as Hy.
  pose proof (sq_nonneg (px - (x1 + t * (x2 - x1)))) as Sx.
  pose proof (sq_nonneg (py - (y1 + t * (y2 - y1)))) as Sy.
  destruct Hfar as [Hf | [Hf | [Hf | Hf]]].
  - assert (m * m <= (px - (x1 + t * (x2 - x1))) * (px - (x1 + t * (x2 - x1))))
      by nra. lra.
  - assert (m * m <= (px - (x1 + t * (x2 - x1))) * (px - (x1 + t * (x2 - x1))))
      by nra. lra.
  - assert (m * m <= (py - (y1 + t * (y2 - y1))) * (py - (y1 + t * (y2 - y1))))
      by nra. lra.
  - assert (m * m <= (py - (y1 + t * (y2 - y1))) * (py - (y1 + t * (y2 - y1))))
      by nra. lra.
Qed.

(** Integers strictly beyond a floor or a ceiling. *)
Lemma below_floor (k : Z) (v : R) : (k < Zfloor v)%Z -> IZR k + 1 <= v.
Proof.
  intros Hk. pose proof (Zfloor_bound v) as [Hb _].
  assert (IZR (k + 1) <= IZR (Zfloor v)) by (apply IZR_le; lia).
  rewrite plus_IZR in *. lra.
Qed.

Lemma above_ceil (k : Z) (v : R) : (Zceil v < k)%Z -> v + 1 <= IZR k.
Proof.
  intros Hk. pose proof (Zceil_bound v) as [_ Hb].
  assert (IZR (Zceil v + 1) <= IZR k) by (apply IZR_le; lia).
  rewrite plus_IZR in *. lra.
Qed.

Lemma dot_coverage_zero_outside_bbox (d : Dot) (W H x y : Z) :
  0 <= dot_radius d -> (1 <= x <= W)%Z -> (1 <= y <= H)%Z ->
  ~ in_bbox (DotPainter.dot_bbox_cpp (dot_x d) (dot_y d) (dot_radius d) W H)
            x y ->
  dot_coverage_at d x y = 0.
Proof.
  intros Hr Hx Hy Hout. unfold dot_coverage_at. cbv zeta.
  apply dot_coverage_outside.
  unfold in_bbox, DotPainter.dot_bbox_cpp in Hout. cbn [xmin xmax ymin ymax] in Hout.
  pose proof (sq_nonneg (IZR x - 0.5 - dot_x d)) as Sx.
  pose proof (sq_nonneg (IZR y - 0.5 - dot_y d)) as Sy.
  assert (Hcase : (x < Zfloor (dot_x d - dot_radius d) \/
                   Zceil (dot_x d + dot_radius d) < x \/
                   y < Zfloor (dot_y d - dot_radius d) \/
                   Zceil (dot_y d + dot_radius d) < y)%Z) by lia.
  destruct Hcase as [Hc | [Hc | [Hc | Hc]]].
  - apply below_floor in Hc. nra.
  - apply above_ceil in Hc. nra.
  - apply below_floor in Hc. nra.
  - apply above_ceil in Hc. nra.
Qed.

Lemma line_coverage_zero_outside_bbox (l : Line) (W H x y : Z) :
  0 <= line_w l -> (1 <= x <= W)%Z -> (1 <= y <= H)%Z ->
  ~ in_bbox (McmcPainter.line_bbox_cpp (line_x1 l) (line_y1 l) (line_x2 l)
               (line_y2 l) (line_w l) W H 2) x y ->
  line_coverage_at l x y = 0.
Proof.
  intros Hw Hx Hy Hout. unfold line_coverage_at.
  apply line_coverage_far; [lra|].
  unfold in_bbox, McmcPainter.line_bbox_cpp in Hout.
  cbn [xmin xmax ymin ymax] in Hout.
  set (r := line_w l / 2 + 2) in *.
  assert (Hcase : (x < Zfloor (Rmin (line_x1 l) (line_x2 l) - r) \/
                   Zceil (Rmax (line_x1 l) (line_x2 l) + r) < x \/
                   y < Zfloor (Rmin (line_y1 l) (line_y2 l) - r) \/
                   Zceil (Rmax (line_y1 l) (line_y2 l) + r) < y)%Z) by lia.
  apply Rle_trans with ((0.5 * line_w l + 0.5) * (0.5 * line_w l + 0.5));
    [lra|].
  apply line_d2_far; [lra|].
  subst r.
  destruct Hcase as [Hc | [Hc | [Hc | Hc]]].
  - apply below_floor in Hc. left. lra.
  - apply above_ceil in Hc. right; left. lra.
  - apply below_floor in Hc. right; right; left. lra.
  - apply above_ceil in Hc. right; right; right. lra.
Qed.

(** C4.  For a dot of non-negative radius, a line of non-negative width
    and a pixel of the canvas, the coverage the code computes lies in
    [0,1]; and it is 0 when the pixel lies outside the box of
    [dot_bbox_cpp], respectively of [line_bbox_cpp] with the default pad
    2. *)
Theorem coverage_in_unit_interval_and_zero_outside_bbox
        (d : Dot) (l : Line) (W H x y : Z) :
  0 <= dot_radius d -> 0 <= line_w l ->
  (1 <= x <= W)%Z -> (1 <= y <= H)%Z ->
  0 <= dot_coverage_at d x y <= 1
  /\ 0 <= line_coverage_at l x y <= 1
  /\ (~ in_bbox (DotPainter.dot_bbox_cpp (dot_x d) (dot_y d) (dot_radius d)
                   W H) x y ->
      dot_coverage_at d x y = 0)
  /\ (~ in_bbox (McmcPainter.line_bbox_cpp (line_x1 l) (line_y1 l)
                   (line_x2 l) (line_y2 l) (line_w l) W H 2) x y ->
      line_coverage_at l x y = 0).
Proof.
  intros Hr Hw Hx Hy. repeat split.
  - apply dot_coverage_range.
    pose proof (sq_nonneg (IZR x - 0.5 - dot_x d)).
    pose proof (sq_nonneg (IZR y - 0.5 - dot_y d)). lra.
  - apply dot_coverage_range.
    pose proof (sq_nonneg (IZR x - 0.5 - dot_x d)).
    pose proof (sq_nonneg (IZR y - 0.5 - dot_y d)). lra.
  - apply line_coverage_range; [lra | apply line_d2_nonneg].
  - apply line_coverage_range; [lra | apply line_d2_nonneg].
  - now apply dot_coverage_zero_outside_bbox.
  - now apply line_coverage_zero_outside_bbox.
Qed.

Lemma coverage_in_unit_interval_and_zero_outside_bbox_witness :
  let d := mkDot 5 5 2 0.5 (mkColor 0 0 0) in
  let l := mkLine 2 2 4 4 1 0.5 (mkColor 0 0 0) in
  0 <= dot_coverage_at d 9 9 <= 1
  /\ 0 <= line_coverage_at l 9 9 <= 1
  /\ (~ in_bbox (DotPainter.dot_bbox_cpp (dot_x d) (dot_y d) (dot_radius d)
                   10 10) 9 9 ->
      dot_coverage_at d 9 9 = 0)
  /\ (~ in_bbox (McmcPainter.line_bbox_cpp (line_x1 l) (line_y1 l)
                   (line_x2 l) (line_y2 l) (line_w l) 10 10 2) 9 9 ->
      line_coverage_at l 9 9 = 0).
Proof.
  intros d l.
  apply (coverage_in_unit_interval_and_zero_outside_bbox d l 10 10 9 9);
    simpl; lra || lia.
Defined.

(** ** The pixel loops of the dot painter never fault *)

(** What one pixel of a dot does to the buffer: nothing, or the three
    samples it addresses are blended with the dot's colour. *)
Lemma dot_pixel_cases (H W : Z) (x y radius alpha : R) (col : Color)
      (y0 x0 : Z) (canvas : NumericVector) :
  DotPainter.dot_pixel H W x y radius alpha col y0 x0 canvas = Some canvas \/
  exists a inR inG inB,
    let i0 := DotPainter.idx3 (y0 - 1) (x0 - 1) 0 H W in
    let i1 := DotPainter.idx3 (y0 - 1) (x0 - 1) 1 H W in
    let i2 := DotPainter.idx3 (y0 - 1) (x0 - 1) 2 H W in
    let d2 := (IZR x0 - 0.5 - x) * (IZR x0 - 0.5 - x) +
              (IZR y0 - 0.5 - y) * (IZR y0 - 0.5 - y) in
    (1 <= y0 <= H)%Z /\ (1 <= x0 <= W)%Z /\
    (0 <= i0 < len canvas)%Z /\ (0 <= i1 < len canvas)%Z /\
    (0 <= i2 < len canvas)%Z /\
    a = DotPainter.clamp01 (DotPainter.dot_coverage radius d2 * alpha) /\
    0 < DotPainter.dot_coverage radius d2 /\ 0 < alpha /\
    vget canvas i0 = Some inR /\ vget canvas i1 = Some inG /\
    vget canvas i2 = Some inB /\
    DotPainter.dot_pixel H W x y radius alpha col y0 x0 canvas =
      Some (upd (Z.to_nat i2) (inB + a * (col2 col - inB))
             (upd (Z.to_nat i1) (inG + a * (col1 col - inG))
               (upd (Z.to_nat i0) (inR + a * (col0 col - inR)) canvas))).
Proof.
  unfold DotPainter.dot_pixel.
  destruct ((y0 - 1 <? 0)%Z || (H <=? y0 - 1)%Z || (x0 - 1 <? 0)%Z ||
            (W <=? x0 - 1)%Z) eqn:Eb; [left; reflexivity|].
  set (d2 := (IZR x0 - 0.5 - x) * (IZR x0 - 0.5 - x) +
             (IZR y0 - 0.5 - y) * (IZR y0 - 0.5 - y)).
  destruct (Rleb (DotPainter.dot_coverage radius d2) 0 || Rleb alpha 0)
    eqn:Ec; [left; reflexivity|].
  set (i0 := DotPainter.idx3 (y0 - 1) (x0 - 1) 0 H W).
  set (i1 := DotPainter.idx3 (y0 - 1) (x0 - 1) 1 H W).
  set (i2 := DotPainter.idx3 (y0 - 1) (x0 - 1) 2 H W).
  destruct ((i0 <? 0)%Z || (len canvas <=? i0)%Z || (i1 <? 0)%Z ||
            (len canvas <=? i1)%Z || (i2 <? 0)%Z || (len canvas <=? i2)%Z)
    eqn:Ei; [left; reflexivity|].
  right.
  repeat rewrite orb_false_iff in Eb, Ec, Ei.
  repeat match goal with
         | H : _ /\ _ |- _ => destruct H
         | H : (_ <? _)%Z = false |- _ => apply Z.ltb_ge in H
         | H : (_ <=? _)%Z = false |- _ => apply Z.leb_gt in H
         | H : Rleb _ _ = false |- _ => apply Rleb_false in H
         end.
  destruct (vget_Some canvas i0) as [inR ER]; [lia|].
  destruct (vget_Some canvas i1) as [inG EG]; [lia|].
  destruct (vget_Some canvas i2) as [inB EB]; [lia|].
  exists (DotPainter.clamp01 (DotPainter.dot_coverage radius d2 * alpha)),
    inR, inG, inB.
  cbv zeta. rewrite ER, EG, EB. cbn [obind].
  rewrite vset_Some by lia. cbn [obind].
  rewrite vset_Some by (rewrite len_upd; lia). cbn [obind].
  rewrite vset_Some by (rewrite !len_upd; lia).
  repeat split; auto; lia.
Qed.

(** A property of buffers that every blend of one pixel keeps is kept by
    the two nested loops over a rectangle, which never fault. *)
Lemma dot_rect_inv (P : NumericVector -> Prop) (H W : Z)
      (x y radius alpha : R) (col : Color) (xmin xmax ymin ymax : Z)
      (canvas : NumericVector) :
  P canvas ->
  (forall y0 x0 c c', (ymin <= y0 <= ymax)%Z -> (xmin <= x0 <= xmax)%Z ->
     P c -> DotPainter.dot_pixel H W x y radius alpha col y0 x0 c = Some c' ->
     P c') ->
  exists canvas',
    DotPainter.dot_rect H W x y radius alpha col xmin xmax ymin ymax canvas
      = Some canvas' /\ P canvas'.
Proof.
  intros HP Hstep. unfold DotPainter.dot_rect.
  apply for_range_inv; auto.
  intros y0 c Hy Pc. apply for_range_inv; auto.
  intros x0 c' Hx Pc'.
  destruct (dot_pixel_cases H W x y radius alpha col y0 x0 c')
    as [E | (a & inR & inG & inB & Hc)].
  - exists c'. split; auto.
  - cbv zeta in Hc. decompose [and] Hc. eexists. split; [eassumption|].
    eapply Hstep; eauto.
Qed.

Lemma dot_pixel_len (H W : Z) (x y radius alpha : R) (col : Color)
      (y0 x0 : Z) (c c' : NumericVector) :
  DotPainter.dot_pixel H W x y radius alpha col y0 x0 c = Some c' ->
  len c' = len c.
Proof.
  intros E.
  destruct (dot_pixel_cases H W x y radius alpha col y0 x0 c)
    as [E' | (a & inR & inG & inB & Hc)].
  - congruence.
  - cbv zeta in Hc. decompose [and] Hc.
    assert (Some c' = Some (upd (Z.to_nat (DotPainter.idx3 (y0 - 1) (x0 - 1) 2 H W))
                                (inB + a * (col2 col - inB))
                             (upd (Z.to_nat (DotPainter.idx3 (y0 - 1) (x0 - 1) 1 H W))
                                (inG + a * (col1 col - inG))
                             (upd (Z.to_nat (DotPainter.idx3 (y0 - 1) (x0 - 1) 0 H W))
                                (inR + a * (col0 col - inR)) c)))) as E2
        by congruence.
    inversion E2. now rewrite !len_upd.
Qed.

(** [render_full_canvas_from_dots_cpp] first overwrites every sample. *)
Lemma fill_white_loop (p l : NumericVector) :
  for_loop (length l) (Z.of_nat (length p)) (fun i c => vset c i 1) (p ++ l)
  = Some (p ++ repeat 1 (length l)).
Proof.
  revert p. induction l as [|h t IH]; intros p.
  - reflexivity.
  - cbn [for_loop length repeat].
    rewrite vset_Some
      by (unfold len; rewrite length_app; cbn [length]; lia).
    cbn [obind]. rewrite Nat2Z.id.
    assert (Eu : upd (length p) 1 (p ++ h :: t) = (p ++ [1]) ++ t).
    { clear IH. induction p as [|a p IHp]; simpl; auto. now rewrite IHp. }
    rewrite Eu.
    replace (Z.of_nat (length p) + 1)%Z with (Z.of_nat (length (p ++ [1])))
      by (rewrite length_app; cbn [length]; lia).
    rewrite IH. now rewrite <- app_assoc.
Qed.

Lemma fill_white (canvas : NumericVector) :
  for_range 0 (len canvas - 1) (fun i c => vset c i 1) canvas
  = Some (repeat 1 (length canvas)).
Proof.
  unfold for_range, len.
  replace (Z.to_nat (Z.of_nat (length canvas) - 1 - 0 + 1)) with (length canvas)
    by lia.
  exact (fill_white_loop [] canvas).
Qed.

Lemma render_dots_total (H W : Z) (dots : list Dot) (canvas : NumericVector) :
  exists out, for_each dots (DotPainter.render_dot H W) canvas = Some out /\
              len out = len canvas.
Proof.
  apply (for_each_inv (fun c => len c = len canvas)); auto.
  intros d c _ Hc. unfold DotPainter.render_dot.
  apply (dot_rect_inv (fun c' => len c' = len canvas)); auto.
  intros y0 x0 c1 c2 _ _ H1 E. apply dot_pixel_len in E. congruence.
Qed.

(** C10.  The full render of a dot list does not depend on the contents of
    the buffer it is given: on two buffers of [H*W*3] samples it returns
    the same canvas (and it does return one).  The full render of a line
    list takes no buffer at all and starts from [H*W*3] white samples. *)
Theorem full_render_independent_of_input_canvas
        (dots : list Dot) (H W : Z) (canvas1 canvas2 : NumericVector) :
  len canvas1 = (H * W * 3)%Z -> len canvas2 = (H * W * 3)%Z ->
  (exists out,
      DotPainter.render_full_canvas_from_dots_cpp canvas1 dots H W = Some out /\
      DotPainter.render_full_canvas_from_dots_cpp canvas2 dots H W = Some out)
  /\ McmcPainter.render_full_canvas_cpp [] H W
     = Some (repeat 1 (Z.to_nat (H * W * 3))).
Proof.
  intros L1 L2. split; [|reflexivity].
  unfold DotPainter.render_full_canvas_from_dots_cpp.
  rewrite !fill_white. cbn [obind].
  assert (El : length canvas1 = length canvas2) by (unfold len in *; lia).
  rewrite El.
  destruct (render_dots_total H W dots (repeat 1 (length canvas2)))
    as [out [E _]].
  exists out. auto.
Qed.

Lemma full_render_independent_of_input_canvas_witness :
  (exists out,
      DotPainter.render_full_canvas_from_dots_cpp [0; 0; 0]
        [mkDot 0.5 0.5 1 0.5 (mkColor 0 0 0)] 1 1 = Some out /\
      DotPainter.render_full_canvas_from_dots_cpp [0.5; 1; 0.25]
        [mkDot 0.5 0.5 1 0.5 (mkColor 0 0 0)] 1 1 = Some out)
  /\ McmcPainter.render_full_canvas_cpp [] 1 1
     = Some (repeat 1 (Z.to_nat (1 * 1 * 3))).
Proof.
  apply (full_render_independent_of_input_canvas
           [mkDot 0.5 0.5 1 0.5 (mkColor 0 0 0)] 1 1
           [0; 0; 0] [0.5; 1; 0.25]); reflexivity.
Defined.

(** ** Blending and the interval [0,1] *)

Lemma vset_in01 (v v' : NumericVector) (i : Z) (a : R) :
  all_samples in01 v -> in01 a -> vset v i a = Some v' -> all_samples in01 v'.
Proof.
  intros Hv Ha E. apply vset_inv in E. destruct E as [_ ->].
  now apply all_samples_upd.
Qed.

(** *** Dots *)

Lemma dot_clamp01_in01 (v : R) : in01 (DotPainter.clamp01 v).
Proof. unfold DotPainter.clamp01, in01. rcases; lra. Qed.

Lemma blend_in01 (a c v : R) :
  in01 a -> in01 c -> in01 v -> in01 (v + a * (c - v)).
Proof. unfold in01. intros Ha Hc Hv. split; nra. Qed.

Lemma dot_pixel_in01 (H W : Z) (x y radius alpha : R) (col : Color)
      (y0 x0 : Z) (c c' : NumericVector) :
  valid_color col -> all_samples in01 c ->
  DotPainter.dot_pixel H W x y radius alpha col y0 x0 c = Some c' ->
  all_samples in01 c'.
Proof.
  intros (Hc0 & Hc1 & Hc2) Hc E.
  destruct (dot_pixel_cases H W x y radius alpha col y0 x0 c)
    as [E' | (a & inR & inG & inB & Hcase)].
  - congruence.
  - cbv zeta in Hcase.
    destruct Hcase as (_ & _ & _ & _ & _ & Ha & _ & _ & ER & EG & EB & E').
    rewrite E' in E. inversion E. subst c'.
    assert (in01 a) by (rewrite Ha; apply dot_clamp01_in01).
    repeat apply all_samples_upd; auto; apply blend_in01; auto;
      eapply all_samples_vget; eauto.
Qed.

Lemma dot_rect_in01 (H W : Z) (x y radius alpha : R) (col : Color)
      (xmin xmax ymin ymax : Z) (canvas : NumericVector) :
  valid_color col -> all_samples in01 canvas ->
  exists out,
    DotPainter.dot_rect H W x y radius alpha col xmin xmax ymin ymax canvas
    = Some out /\ all_samples in01 out.
Proof.
  intros Hcol Hc. apply dot_rect_inv; auto.
  intros y0 x0 c c' _ _. now apply dot_pixel_in01.
Qed.

Lemma dot_clear_pixel_in01 (H W y x : Z) (canvas : NumericVector) :
  all_samples in01 canvas ->
  exists out, DotPainter.clear_pixel H W y x canvas = Some out /\
              all_samples in01 out.
Proof.
  intros Hc. unfold DotPainter.clear_pixel. cbv zeta.
  destruct ((y - 1 <? 0) || (H <=? y - 1) || (x - 1 <? 0) || (W <=? x - 1))%Z;
    [eauto|].
  set (i0 := DotPainter.idx3 (y - 1) (x - 1) 0 H W).
  set (i1 := DotPainter.idx3 (y - 1) (x - 1) 1 H W).
  set (i2 := DotPainter.idx3 (y - 1) (x - 1) 2 H W).
  destruct ((i0 <? 0) || (len canvas <=? i0) || (i1 <? 0) ||
            (len canvas <=? i1) || (i2 <? 0) || (len canvas <=? i2))%Z eqn:Ei;
    [eauto|].
  repeat rewrite orb_false_iff in Ei.
  repeat match goal with
         | H : _ /\ _ |- _ => destruct H
         | H : (_ <? _)%Z = false |- _ => apply Z.ltb_ge in H
         | H : (_ <=? _)%Z = false |- _ => apply Z.leb_gt in H
         end.
  rewrite vset_Some by lia. cbn [obind].
  rewrite vset_Some by (rewrite ?len_upd; lia). cbn [obind].
  rewrite vset_Some by (rewrite ?len_upd; lia).
  eexists. split; [reflexivity|].
  repeat apply all_samples_upd; auto; unfold in01; lra.
Qed.

(** X27.  The rendering operations of the dot painter return a canvas
    and keep every sample in [0,1], whatever the geometry and the alpha of
    the dots: [clamp01] bounds the blend factor on both sides. *)
Lemma dot_operations_keep_unit_interval
      (canvas : NumericVector) (H W : Z) (d : Dot) (dots : list Dot)
      (xmin xmax ymin ymax : Z) :
  all_samples in01 canvas -> valid_color (dot_col d) ->
  Forall (fun d => valid_color (dot_col d)) dots ->
  (exists out,
      DotPainter.composite_dot_bbox_cpp canvas H W (dot_x d) (dot_y d)
        (dot_radius d) (dot_alpha d) (dot_col d) xmin xmax ymin ymax
      = Some out /\ all_samples in01 out)
  /\ (exists out,
         DotPainter.re_render_bbox_from_dots_cpp canvas dots H W
           xmin xmax ymin ymax = Some out /\ all_samples in01 out)
  /\ (exists out,
         DotPainter.render_full_canvas_from_dots_cpp canvas dots H W
         = Some out /\ all_samples in01 out).
Proof.
  intros Hc Hd Hds. rewrite Forall_forall in Hds. repeat split.
  - now apply dot_rect_in01.
  - unfold DotPainter.re_render_bbox_from_dots_cpp.
    destruct (for_range_inv (all_samples in01)
                (fun y canvas => for_range xmin xmax (fun x canvas =>
                   DotPainter.clear_pixel H W y x canvas) canvas)
                ymin ymax canvas Hc) as [c0 [E0 H0]].
    { intros y c _ Hcc. apply for_range_inv; auto.
      intros x c' _ Hc'. now apply dot_clear_pixel_in01. }
    unfold DotPainter.clear_rect. rewrite E0. cbn [obind].
    apply for_each_inv; auto.
    intros e c Hin Hcc. unfold DotPainter.re_render_dot. cbv zeta.
    destruct (Rltb _ _ || Rltb _ _ || Rltb _ _ || Rltb _ _); [eauto|].
    apply dot_rect_in01; auto.
  - unfold DotPainter.render_full_canvas_from_dots_cpp.
    rewrite fill_white. cbn [obind].
    apply for_each_inv.
    + unfold all_samples. apply Forall_forall. intros v Hv.
      apply repeat_spec in Hv. subst. unfold in01. lra.
    + intros e c Hin Hcc. unfold DotPainter.render_dot. cbv zeta.
      apply dot_rect_in01; auto.
Qed.

Lemma dot_operations_keep_unit_interval_witness :
  (exists out,
      DotPainter.composite_dot_bbox_cpp [0; 0; 0] 1 1 0.5 0.5 1 0.5
        (mkColor 0 0 0) 1 1 1 1 = Some out /\ all_samples in01 out)
  /\ (exists out,
         DotPainter.re_render_bbox_from_dots_cpp [0; 0; 0]
           [mkDot 0.5 0.5 1 0.5 (mkColor 0 0 0)] 1 1 1 1 1 1 = Some out /\
         all_samples in01 out)
  /\ (exists out,
         DotPainter.render_full_canvas_from_dots_cpp [0; 0; 0]
           [mkDot 0.5 0.5 1 0.5 (mkColor 0 0 0)] 1 1 = Some out /\
         all_samples in01 out).
Proof.
  apply (dot_operations_keep_unit_interval [0; 0; 0] 1 1
           (mkDot 0.5 0.5 1 0.5 (mkColor 0 0 0))
           [mkDot 0.5 0.5 1 0.5 (mkColor 0 0 0)] 1 1 1 1).
  - samples_in01.
  - unfold valid_color, in01; simpl; lra.
  - apply Forall_cons; [unfold valid_color, in01; simpl; lra | apply Forall_nil].
Defined.

(** *** Lines *)

Lemma mcmc_clamp01_in01 (v : R) : v <= 1 -> in01 (McmcPainter.clamp01 v).
Proof. intros Hv. unfold McmcPainter.clamp01, in01. rcases; lra. Qed.

Lemma line_blend_in01 (a c v : R) :
  in01 a -> in01 c -> in01 v -> in01 (a * c + (1 - a) * v).
Proof. unfold in01. intros Ha Hc Hv. split; nra. Qed.

Lemma line_factor_in01 (w alpha d2 : R) :
  -1 <= w -> 0 <= d2 -> 0 < alpha < 1 ->
  in01 (McmcPainter.clamp01 (McmcPainter.line_coverage w d2 * alpha)).
Proof.
  intros Hw Hd Ha.
  pose proof (line_coverage_range w d2 Hw Hd).
  apply mcmc_clamp01_in01. nra.
Qed.

Lemma blend_channel_in01 (H W : Z) (a colc : R) (y x c : Z)
      (canvas canvas' : NumericVector) :
  in01 a -> in01 colc -> all_samples in01 canvas ->
  McmcPainter.blend_channel H W a colc y x c canvas = Some canvas' ->
  all_samples in01 canvas'.
Proof.
  intros Ha Hc Hv. unfold McmcPainter.blend_channel. cbv zeta.
  destruct (vget canvas (McmcPainter.idx3 y x c H W)) as [v|] eqn:Ev;
    [|discriminate].
  cbn [obind]. apply vset_in01; auto.
  apply line_blend_in01; auto. eapply all_samples_vget; eauto.
Qed.

Lemma line_pixel_in01 (H W : Z) (l : Line) (y x : Z)
      (canvas canvas' : NumericVector) :
  -1 <= line_w l -> 0 < line_alpha l < 1 -> valid_color (line_col l) ->
  all_samples in01 canvas ->
  McmcPainter.line_pixel H W (line_x1 l) (line_y1 l) (line_x2 l) (line_y2 l)
    (line_w l) (line_alpha l) (line_col l) y x canvas = Some canvas' ->
  all_samples in01 canvas'.
Proof.
  intros Hw Ha (Hc0 & Hc1 & Hc2) Hv. unfold McmcPainter.line_pixel. cbv zeta.
  destruct (Rltb 0 _ && Rltb 0 _); [|intros E; inversion E; now subst].
  pose proof (line_factor_in01 (line_w l) (line_alpha l)
                (McmcPainter.line_d2 (line_x1 l) (line_y1 l) (line_x2 l)
                   (line_y2 l) (IZR x - 0.5) (IZR y - 0.5))
                Hw (line_d2_nonneg _ _ _ _ _ _) Ha) as Hf.
  destruct (McmcPainter.blend_channel H W _ (col0 _) y x 0 canvas)
    as [c1|] eqn:E1; [|discriminate].
  cbn [obind].
  destruct (McmcPainter.blend_channel H W _ (col1 _) y x 1 c1)
    as [c2|] eqn:E2; [|discriminate].
  cbn [obind]. intros E3.
  eapply blend_channel_in01 in E1; eauto.
  eapply blend_channel_in01 in E2; eauto.
  eapply blend_channel_in01 in E3; eauto.
Qed.

Lemma line_rect_in01 (H W : Z) (l : Line) (xmin xmax ymin ymax : Z)
      (canvas canvas' : NumericVector) :
  -1 <= line_w l -> 0 < line_alpha l < 1 -> valid_color (line_col l) ->
  all_samples in01 canvas ->
  McmcPainter.line_rect H W l xmin xmax ymin ymax canvas = Some canvas' ->
  all_samples in01 canvas'.
Proof.
  intros Hw Ha Hcol Hv. unfold McmcPainter.line_rect.
  apply for_range_preserves; auto.
  intros y c c' Hc. apply for_range_preserves; auto.
  intros x c1 c2 Hc1. now apply line_pixel_in01.
Qed.

Lemma composite_line_pixel_in01 (H W : Z) (l : Line) (y x : Z)
      (canvas canvas' : NumericVector) :
  -1 <= line_w l -> 0 < line_alpha l < 1 -> valid_color (line_col l) ->
  all_samples in01 canvas ->
  McmcPainter.composite_line_pixel H W (line_x1 l) (line_y1 l) (line_x2 l)
    (line_y2 l) (line_w l) (line_alpha l) (line_col l) y x canvas
  = Some canvas' ->
  all_samples in01 canvas'.
Proof.
  intros Hw Ha (Hc0 & Hc1 & Hc2) Hv.
  unfold McmcPainter.composite_line_pixel. cbv zeta.
  destruct ((y - 1 <? 0) || (H <=? y - 1) || (x - 1 <? 0) || (W <=? x - 1))%Z;
    [intros E; inversion E; now subst|].
  destruct (Rleb _ 0 || Rleb _ 0); [intros E; inversion E; now subst|].
  match goal with
  | |- (if ?b then _ else _) = _ -> _ =>
      destruct b; [intros E; inversion E; now subst|]
  end.
  pose proof (line_factor_in01 (line_w l) (line_alpha l)
                (McmcPainter.line_d2 (line_x1 l) (line_y1 l) (line_x2 l)
                   (line_y2 l) (IZR x - 0.5) (IZR y - 0.5))
                Hw (line_d2_nonneg _ _ _ _ _ _) Ha) as Hf.
  set (i0 := McmcPainter.idx3 (y - 1) (x - 1) 0 H W).
  set (i1 := McmcPainter.idx3 (y - 1) (x - 1) 1 H W).
  set (i2 := McmcPainter.idx3 (y - 1) (x - 1) 2 H W).
  destruct (vget canvas i0) as [inR|] eqn:ER; [|discriminate]. cbn [obind].
  destruct (vget canvas i1) as [inG|] eqn:EG; [|discriminate]. cbn [obind].
  destruct (vget canvas i2) as [inB|] eqn:EB; [|discriminate]. cbn [obind].
  destruct (vset canvas i0 _) as [c1|] eqn:E1; [|discriminate]. cbn [obind].
  destruct (vset c1 i1 _) as [c2|] eqn:E2; [|discriminate]. cbn [obind].
  intros E3.
  assert (Hin : forall i v, vget canvas i = Some v -> in01 v)
    by (intros i v; apply all_samples_vget; exact Hv).
  assert (H1 : all_samples in01 c1).
  { eapply vset_in01; [exact Hv | | exact E1].
    apply line_blend_in01; eauto. }
  assert (H2 : all_samples in01 c2).
  { eapply vset_in01; [exact H1 | | exact E2].
    apply line_blend_in01; eauto. }
  eapply vset_in01; [exact H2 | | exact E3].
  apply line_blend_in01; eauto.
Qed.

(** With widths of at least -1 the coverage is at most 1, [clamp01] is
    never asked to clamp from above, and the four rendering operations of
    the line painter keep every sample in [0,1] whenever they return. *)
Lemma line_operations_keep_unit_interval
      (canvas out : NumericVector) (H W : Z) (l : Line) (lines : list Line)
      (xmin xmax ymin ymax : Z) :
  all_samples in01 canvas -> tame_line l -> Forall tame_line lines ->
  (McmcPainter.composite_line_bbox_cpp canvas H W (line_x1 l) (line_y1 l)
     (line_x2 l) (line_y2 l) (line_w l) (line_alpha l) (line_col l)
     xmin xmax ymin ymax = Some out -> all_samples in01 out)
  /\ (McmcPainter.re_render_bbox_from_lines_cpp canvas lines
        xmin xmax ymin ymax H W = Some out -> all_samples in01 out)
  /\ (McmcPainter.render_full_canvas_cpp lines H W = Some out ->
      all_samples in01 out).
Proof.
  intros Hc (Hw & Ha & Hcol) Hls. rewrite Forall_forall in Hls.
  repeat split.
  - unfold McmcPainter.composite_line_bbox_cpp.
    apply for_range_preserves; auto.
    intros y c c' Hcc. apply for_range_preserves; auto.
    intros x c1 c2 Hc1. now apply composite_line_pixel_in01.
  - unfold McmcPainter.re_render_bbox_from_lines_cpp. cbv zeta.
    destruct (McmcPainter.clear_rect H W xmin xmax ymin ymax canvas)
      as [c0|] eqn:E0; [|discriminate].
    cbn [obind].
    assert (H0 : all_samples in01 c0).
    { revert E0. unfold McmcPainter.clear_rect.
      apply for_range_preserves; auto.
      intros y c c' Hcc. apply for_range_preserves; auto.
      intros x c1 c2 Hc1. apply for_range_preserves; auto.
      intros ch c3 c4 Hc3 E. eapply vset_in01; eauto. unfold in01; lra. }
    apply for_each_preserves; auto.
    intros e c c' Hin Hcc. destruct (Hls e Hin) as (Hew & Hea & Hecol).
    unfold McmcPainter.re_render_line. cbv zeta.
    destruct (negb _); [|intros E; inversion E; now subst].
    now apply line_rect_in01.
  - unfold McmcPainter.render_full_canvas_cpp. cbv zeta.
    apply for_each_preserves.
    + unfold all_samples. apply Forall_forall. intros v Hv.
      apply repeat_spec in Hv. subst. unfold in01. lra.
    + intros e c c' Hin Hcc. destruct (Hls e Hin) as (Hew & Hea & Hecol).
      unfold McmcPainter.render_line. cbv zeta.
      now apply line_rect_in01.
Qed.

Lemma sqrt_0_25 : sqrt 0.25 = 0.5.
Proof. apply sqrt_lem_1; lra. Qed.

Lemma thin_line_d2 (px py : R) :
  McmcPainter.line_d2 1.5 1 1.5 1 px py
  = (px - 1.5) * (px - 1.5) + (py - 1) * (py - 1).
Proof.
  unfold McmcPainter.line_d2. cbv zeta.
  replace (((px - 1.5) * (1.5 - 1.5) + (py - 1) * (1 - 1)) /
           ((1.5 - 1.5) * (1.5 - 1.5) + (1 - 1) * (1 - 1) + 1e-12)) with 0
    by (unfold Rdiv; replace ((px - 1.5) * (1.5 - 1.5) + (py - 1) * (1 - 1))
          with 0 by ring; ring).
  rdecide. ring.
Qed.

Lemma thin_line_coverage_near : McmcPainter.line_coverage (-3) 0.25 = 1.5.
Proof.
  unfold McmcPainter.line_coverage. cbv zeta. rdecide.
  rewrite sqrt_0_25.
  replace (1 - 0.5 / (0.5 * -3 + 0.5)) with 1.5 by lra.
  rdecide. reflexivity.
Qed.

Lemma thin_line_coverage_far : McmcPainter.line_coverage (-3) 1.25 = 0.
Proof.
  unfold McmcPainter.line_coverage. cbv zeta. rdecide. reflexivity.
Qed.


Lemma thin_line_pixel_1 (canvas : NumericVector) :
  McmcPainter.line_pixel 1 2 1.5 1 1.5 1 (-3) 0.9 (mkColor 0 0 0) 1 1 canvas
  = Some canvas.
Proof.
  unfold McmcPainter.line_pixel. cbv zeta. rewrite thin_line_d2.
  replace ((1 - 0.5 - 1.5) * (1 - 0.5 - 1.5) + (1 - 0.5 - 1) * (1 - 0.5 - 1))
    with 1.25 by lra.
  rewrite thin_line_coverage_far. rdecide. reflexivity.
Qed.

Lemma thin_line_pixel_2 :
  McmcPainter.line_pixel 1 2 1.5 1 1.5 1 (-3) 0.9 (mkColor 0 0 0) 1 2
    [1; 1; 1; 1; 1; 1]
  = Some [1; -0.35; 1; -0.35; 1; -0.35].
Proof.
  unfold McmcPainter.line_pixel. cbv zeta. rewrite thin_line_d2.
  replace ((2 - 0.5 - 1.5) * (2 - 0.5 - 1.5) + (1 - 0.5 - 1) * (1 - 0.5 - 1))
    with 0.25 by lra.
  rewrite thin_line_coverage_near. rdecide. cbn [andb].
  unfold McmcPainter.clamp01. rdecide.
  replace (1.5 * 0.9 * col0 (mkColor 0 0 0)) with 0. 2:{ cbn. lra. }
  unfold McmcPainter.blend_channel.
  run.
  repeat f_equal; lra.
Qed.

(** A latent slip.  [clamp01] of mcmc_painter_cpp.cpp returns [v] itself
    when [v > 1.0].  The branch needs a coverage above 1, hence a width
    below -1, which no primitive has: the samplers return widths of at
    least 1, jitter of at least 0.2.  Were such a width passed, the blend
    factor would leave [0,1]: on the white 1x2 canvas, the line of width
    -3, alpha 0.9 and colour black that is degenerate at (1.5, 1) covers
    pixel (2,1) with coverage 1.5; the factor is 1.35 and the three
    samples of that pixel become -0.35. *)
Lemma line_render_leaves_unit_interval :
  all_samples in01 (repeat 1 (Z.to_nat (1 * 2 * 3)))
  /\ 0 < line_alpha thin_line < 1
  /\ in01 (col0 (line_col thin_line)) /\ in01 (col1 (line_col thin_line))
  /\ in01 (col2 (line_col thin_line))
  /\ McmcPainter.clamp01 (1.5 * 0.9) = 1.5 * 0.9
  /\ McmcPainter.render_full_canvas_cpp [thin_line] 1 2
     = Some [1; -0.35; 1; -0.35; 1; -0.35]
  /\ ~ all_samples in01 [1; -0.35; 1; -0.35; 1; -0.35].
Proof.
  split; [cbn [repeat Z.to_nat Z.mul Pos.mul Pos.to_nat Pos.iter_op
                 Init.Nat.add Pos.add Pos.succ]; samples_in01|].
  split; [cbn; lra|].
  split; [cbn; unfold in01; lra|].
  split; [cbn; unfold in01; lra|].
  split; [cbn; unfold in01; lra|].
  split; [unfold McmcPainter.clamp01; rdecide; reflexivity|].
  split.
  - unfold McmcPainter.render_full_canvas_cpp. cbn [for_each].
    unfold McmcPainter.render_line, thin_line.
    cbn [line_x1 line_x2 line_y1 line_y2 line_w].
    rewrite !Rmin_left, !Rmax_left by lra.
    rewrite (Zfloor_eq 1), (Zceil_eq 2), (Zfloor_eq 0), (Zceil_eq 2) by lra.
    unfold McmcPainter.line_rect, for_range.
    cbn [line_x1 line_x2 line_y1 line_y2 line_w line_alpha line_col].
    change (Z.to_nat (Z.min 1 2 - Z.max 1 0 + 1)) with 1%nat.
    change (Z.to_nat (Z.min 2 2 - Z.max 1 1 + 1)) with 2%nat.
    change (Z.max 1 0) with 1%Z. change (Z.max 1 1) with 1%Z.
    change (repeat 1 (Z.to_nat (1 * 2 * 3))) with [1; 1; 1; 1; 1; 1].
    cbn [for_loop]. change (1 + 1)%Z with 2%Z.
    rewrite thin_line_pixel_1. cbn [obind].
    rewrite thin_line_pixel_2. reflexivity.
  - unfold all_samples, in01. intros Hall.
    inversion Hall as [|? ? _ Hrest]; subst.
    inversion Hrest as [|? ? Hbad _]; subst. lra.
Qed.

(** ** The objective: [sse_bbox_cpp] and [sse_bbox_dots_cpp] *)

Lemma mcmc_idx3_sample_index (y x c H W : Z) :
  McmcPainter.idx3 y x c H W = sample_index H W y x c.
Proof. reflexivity. Qed.

(** On a rectangle within the canvas, [sse_bbox_cpp] returns the sum of
    squared error of the rectangle. *)
Lemma sse_bbox_cpp_exact (target canvas : NumericVector) (H W : Z)
      (xmin xmax ymin ymax : Z) :
  len target = (H * W * 3)%Z -> len canvas = (H * W * 3)%Z ->
  rect_in_canvas H W xmin xmax ymin ymax ->
  McmcPainter.sse_bbox_cpp target canvas H W xmin xmax ymin ymax
  = Some (rect_sse target canvas H W xmin xmax ymin ymax).
Proof.
  intros Lt Lc (Hx1 & Hx2 & Hy1 & Hy2).
  unfold McmcPainter.sse_bbox_cpp, rect_sse.
  rewrite (for_range_sum _ (fun y =>
             sum_range xmin xmax (fun x => pixel_sse target canvas H W y x))).
  - f_equal. lra.
  - intros y a Hy.
    apply for_range_sum. intros x b Hx.
    rewrite !mcmc_idx3_sample_index.
    rewrite !vget_sample
      by (rewrite ?Lt, ?Lc; apply sample_index_bounds; lia).
    cbn [obind]. f_equal.
    unfold pixel_sse. rewrite sum_range_0_2. lra.
Qed.

Lemma pixel_sse_nonneg (target canvas : NumericVector) (H W y x : Z) :
  0 <= pixel_sse target canvas H W y x.
Proof.
  apply sum_range_nonneg. intros c _. apply sq_nonneg.
Qed.

Lemma rect_sse_nonneg (target canvas : NumericVector) (H W : Z)
      (xmin xmax ymin ymax : Z) :
  0 <= rect_sse target canvas H W xmin xmax ymin ymax.
Proof.
  apply sum_range_nonneg. intros y _.
  apply sum_range_nonneg. intros x _. apply pixel_sse_nonneg.
Qed.

(** The sum is zero exactly when the two buffers agree on every sample of
    the rectangle. *)
Lemma rect_sse_zero_iff (target canvas : NumericVector) (H W : Z)
      (xmin xmax ymin ymax : Z) :
  rect_sse target canvas H W xmin xmax ymin ymax = 0 <->
  forall y x c, in_rect xmin xmax ymin ymax x y -> (0 <= c <= 2)%Z ->
                sample target H W y x c = sample canvas H W y x c.
Proof.
  unfold rect_sse.
  rewrite sum_range_zero
    by (intros; apply sum_range_nonneg; intros; apply pixel_sse_nonneg).
  split.
  - intros Hz y x c [Hx Hy] Hc.
    specialize (Hz y Hy).
    rewrite sum_range_zero in Hz by (intros; apply pixel_sse_nonneg).
    specialize (Hz x Hx). unfold pixel_sse in Hz.
    rewrite sum_range_zero in Hz by (intros; apply sq_nonneg).
    specialize (Hz c Hc). cbv beta in Hz.
    apply Rmult_integral in Hz. lra.
  - intros Ha y Hy.
    apply sum_range_zero; [intros; apply pixel_sse_nonneg|].
    intros x Hx. unfold pixel_sse.
    apply sum_range_zero; [intros; apply sq_nonneg|].
    intros c Hc. rewrite (Ha y x c); [lra | split; auto | auto].
Qed.

(** Additivity: a rectangle cut into two along a row or along a column. *)
Lemma rect_sse_split_rows (target canvas : NumericVector) (H W : Z)
      (xmin xmax ymin ymid ymax : Z) :
  (ymin - 1 <= ymid <= ymax)%Z ->
  rect_sse target canvas H W xmin xmax ymin ymax
  = rect_sse target canvas H W xmin xmax ymin ymid
    + rect_sse target canvas H W xmin xmax (ymid + 1) ymax.
Proof. intros Hm. unfold rect_sse. now apply sum_range_split. Qed.

Lemma sum_range_plus (lo hi : Z) (f g : Z -> R) :
  sum_range lo hi (fun j => f j + g j)
  = sum_range lo hi f + sum_range lo hi g.
Proof.
  unfold sum_range. generalize (Z.to_nat (hi - lo + 1)) as n. intros n.
  revert lo. induction n as [|n IH]; intros lo; cbn [sum_from]; [lra|].
  rewrite IH. lra.
Qed.

Lemma rect_sse_split_columns (target canvas : NumericVector) (H W : Z)
      (xmin xmid xmax ymin ymax : Z) :
  (xmin - 1 <= xmid <= xmax)%Z ->
  rect_sse target canvas H W xmin xmax ymin ymax
  = rect_sse target canvas H W xmin xmid ymin ymax
    + rect_sse target canvas H W (xmid + 1) xmax ymin ymax.
Proof.
  intros Hm. unfold rect_sse. rewrite <- sum_range_plus.
  apply sum_range_ext. intros y _. now apply sum_range_split.
Qed.

(** [sse_bbox_dots_cpp] guards every read: it returns a number for every
    rectangle and all buffers. *)
Lemma sse_bbox_dots_cpp_total (target canvas : NumericVector) (H W : Z)
      (xmin xmax ymin ymax : Z) :
  exists sse,
    DotPainter.sse_bbox_dots_cpp target canvas H W xmin xmax ymin ymax
    = Some sse.
Proof.
  unfold DotPainter.sse_bbox_dots_cpp.
  destruct (for_range_inv (fun _ : R => True)
              (fun y sse =>
                 for_range xmin xmax (fun x sse =>
                   if ((y - 1 <? 0) || (H <=? y - 1) || (x - 1 <? 0)
                       || (W <=? x - 1))%Z
                   then Some sse
                   else for_range 0 2 (fun c sse =>
                     if ((DotPainter.idx3 (y - 1) (x - 1) c H W <? 0)
                         || (len target <=? DotPainter.idx3 (y - 1) (x - 1) c H W)
                         || (len canvas <=? DotPainter.idx3 (y - 1) (x - 1) c H W))%Z
                     then Some sse
                     else t <- vget target (DotPainter.idx3 (y - 1) (x - 1) c H W) ;;
                          v <- vget canvas (DotPainter.idx3 (y - 1) (x - 1) c H W) ;;
                          Some (sse + (t - v) * (t - v))) sse) sse)
              ymin ymax 0 I) as [sse [E _]]; [|eauto].
  intros y a _ _. apply for_range_inv; auto.
  intros x b _ _.
  destruct ((y - 1 <? 0) || (H <=? y - 1) || (x - 1 <? 0) || (W <=? x - 1))%Z;
    [eauto|].
  apply for_range_inv; auto.
  intros c d _ _.
  destruct ((DotPainter.idx3 (y - 1) (x - 1) c H W <? 0)
            || (len target <=? DotPainter.idx3 (y - 1) (x - 1) c H W)
            || (len canvas <=? DotPainter.idx3 (y - 1) (x - 1) c H W))%Z eqn:Eb;
    [eauto|].
  repeat rewrite orb_false_iff in Eb. destruct Eb as [[E1 E2] E3].
  apply Z.ltb_ge in E1. apply Z.leb_gt in E2. apply Z.leb_gt in E3.
  destruct (vget_Some target (DotPainter.idx3 (y - 1) (x - 1) c H W))
    as [t Et]; [lia|].
  destruct (vget_Some canvas (DotPainter.idx3 (y - 1) (x - 1) c H W))
    as [v Ev]; [lia|].
  rewrite Et, Ev. cbn [obind]. eauto.
Qed.

(** C6.  [sse_bbox_dots_cpp] passes the 0-based [y_idx], [x_idx] to
    [idx3], which subtracts 1 again: on a 2x2 canvas and the rectangle
    made of pixel (1,1) alone it reads samples 1 and 5 (pixel (1,2),
    channels 0 and 1) and returns 0, although target and canvas differ on
    pixel (1,1), whose sum of squared error is 1. *)
Theorem sse_bbox_dots_cpp_wrong_pixels :
  DotPainter.sse_bbox_dots_cpp [1; 0; 0; 0; 0; 0; 0; 0; 0; 0; 0; 0]
                               [0; 0; 0; 0; 0; 0; 0; 0; 0; 0; 0; 0]
                               2 2 1 1 1 1
  = Some (0 + (0 - 0) * (0 - 0) + (0 - 0) * (0 - 0))
  /\ 0 + (0 - 0) * (0 - 0) + (0 - 0) * (0 - 0) = 0
  /\ rect_sse [1; 0; 0; 0; 0; 0; 0; 0; 0; 0; 0; 0]
              [0; 0; 0; 0; 0; 0; 0; 0; 0; 0; 0; 0] 2 2 1 1 1 1 = 1.
Proof.
  split; [reflexivity|]. split; [lra|].
  run. lra.
Qed.

(** C7.  [sse_bbox_cpp] indexes both buffers without any bounds check: on
    a 2x2 canvas and the rectangle made of the out-of-canvas pixel
    (x, y) = (3, 1) it reads index 12 of two buffers of 12 samples. *)
Theorem sse_bbox_cpp_reads_out_of_bounds :
  McmcPainter.idx3 1 3 2 2 2 = 12%Z
  /\ len [0; 0; 0; 0; 0; 0; 0; 0; 0; 0; 0; 0] = 12%Z
  /\ McmcPainter.sse_bbox_cpp [0; 0; 0; 0; 0; 0; 0; 0; 0; 0; 0; 0]
                              [0; 0; 0; 0; 0; 0; 0; 0; 0; 0; 0; 0]
                              2 2 3 3 1 1 = None.
Proof. repeat split. Qed.

(** ** Incremental re-render of dots *)

(** C1.  [re_render_bbox_from_dots_cpp] passes the 0-based [y_idx],
    [x_idx] to [idx3], which subtracts 1 again, so the samples it resets
    and blends are those of the pixel one row up and one column left.  On
    a black 2x2 base canvas, an empty dot list and the rectangle made of
    pixel (2,2) alone, pixel (2,2) keeps the base value 0 in every
    channel, while the full render of the same list gives 1 there. *)
Theorem re_render_dots_differs_from_full_render :
  rect_in_canvas 2 2 2 2 2 2
  /\ DotPainter.re_render_bbox_from_dots_cpp
       [0; 0; 0; 0; 0; 0; 0; 0; 0; 0; 0; 0] [] 2 2 2 2 2 2
     = Some [1; 0; 0; 0; 1; 0; 0; 0; 1; 0; 0; 0]
  /\ DotPainter.render_full_canvas_from_dots_cpp
       [0; 0; 0; 0; 0; 0; 0; 0; 0; 0; 0; 0] [] 2 2
     = Some [1; 1; 1; 1; 1; 1; 1; 1; 1; 1; 1; 1]
  /\ sample [1; 0; 0; 0; 1; 0; 0; 0; 1; 0; 0; 0] 2 2 2 2 0 = 0
  /\ sample [1; 1; 1; 1; 1; 1; 1; 1; 1; 1; 1; 1] 2 2 2 2 0 = 1.
Proof.
  split; [unfold rect_in_canvas; lia|].
  repeat split.
Qed.

(** C2.  On the same input the incremental re-render overwrites sample 0,
    the red channel of pixel (1,1), which lies outside the rectangle made
    of pixel (2,2): the base value 0 becomes 1. *)
Theorem re_render_dots_writes_outside_rectangle :
  rect_in_canvas 2 2 2 2 2 2
  /\ ~ in_rect 2 2 2 2 1 1
  /\ DotPainter.re_render_bbox_from_dots_cpp
       [0; 0; 0; 0; 0; 0; 0; 0; 0; 0; 0; 0] [] 2 2 2 2 2 2
     = Some [1; 0; 0; 0; 1; 0; 0; 0; 1; 0; 0; 0]
  /\ sample [0; 0; 0; 0; 0; 0; 0; 0; 0; 0; 0; 0] 2 2 1 1 0 = 0
  /\ sample [1; 0; 0; 0; 1; 0; 0; 0; 1; 0; 0; 0] 2 2 1 1 0 = 1.
Proof.
  split; [unfold rect_in_canvas; lia|].
  split; [unfold in_rect; lia|].
  repeat split.
Qed.

(** ** The line painter computes the painting *)

Lemma blend_channel_spec (H W : Z) (a colc : R) (y x c : Z)
      (canvas : NumericVector) :
  len canvas = (H * W * 3)%Z -> in_canvas H W x y -> (0 <= c <= 2)%Z ->
  McmcPainter.blend_channel H W a colc y x c canvas
  = Some (upd (Z.to_nat (sample_index H W y x c))
              (a * colc + (1 - a) * sample canvas H W y x c) canvas).
Proof.
  intros L [Hx Hy] Hc. unfold McmcPainter.blend_channel. cbv zeta.
  rewrite mcmc_idx3_sample_index.
  pose proof (sample_index_bounds H W y x c Hy Hx Hc) as B.
  rewrite vget_sample by lia. cbn [obind].
  rewrite vset_Some by lia. reflexivity.
Qed.

Lemma line_pixel_map (H W : Z) (l : Line) (y x : Z) :
  in_canvas H W x y ->
  pixel_map H W
    (McmcPainter.line_pixel H W (line_x1 l) (line_y1 l) (line_x2 l)
       (line_y2 l) (line_w l) (line_alpha l) (line_col l) y x)
    (fun c v => line_over l x y c v) y x.
Proof.
  intros Hin canvas L. unfold McmcPainter.line_pixel, line_over. cbv zeta.
  fold (line_coverage_at l x y).
  destruct (Rltb 0 (line_coverage_at l x y) && Rltb 0 (line_alpha l)).
  - set (a := McmcPainter.clamp01 (line_coverage_at l x y * line_alpha l)).
    rewrite blend_channel_spec by (auto; lia). cbn [obind].
    rewrite blend_channel_spec by (rewrite ?len_upd; auto; lia). cbn [obind].
    rewrite blend_channel_spec by (rewrite ?len_upd; auto; lia).
    eexists. split; [reflexivity|]. split; [now rewrite !len_upd|].
    split.
    + intros c Hc.
      rewrite !sample_upd by (rewrite ?len_upd; auto; lia).
      rewrite !Z.eqb_refl. cbn [andb]. unfold channel.
      assert (Hcc : c = 0%Z \/ c = 1%Z \/ c = 2%Z) by lia.
      destruct Hcc as [-> | [-> | ->]]; reflexivity.
    + intros y' x' c Hin' Hc Hne.
      rewrite !sample_upd by (rewrite ?len_upd; auto; lia).
      destruct (Z.eqb_spec y' y); destruct (Z.eqb_spec x' x);
        cbn [andb]; try reflexivity.
      subst. congruence.
  - exists canvas. repeat split; auto.
Qed.

Lemma in_rectb_spec (xmin xmax ymin ymax x y : Z) :
  in_rectb xmin xmax ymin ymax x y = true <-> in_rect xmin xmax ymin ymax x y.
Proof.
  unfold in_rectb, in_rect. rewrite !andb_true_iff, !Z.leb_le. tauto.
Qed.

(** One row of a rectangle: the pixels of columns [xmin..xmax] of row [y]
    are rewritten, every other sample is kept. *)
Lemma row_loop (H W : Z) (body : Z -> NumericVector -> option NumericVector)
      (f : Z -> Z -> R -> R) (y xmin xmax : Z) (canvas : NumericVector) :
  (1 <= y <= H)%Z -> (1 <= xmin)%Z -> (xmax <= W)%Z ->
  (forall x, (xmin <= x <= xmax)%Z -> pixel_map H W (body x) (f x) y x) ->
  len canvas = (H * W * 3)%Z ->
  exists out,
    for_range xmin xmax body canvas = Some out /\
    len out = (H * W * 3)%Z /\
    forall y' x' c, in_canvas H W x' y' -> (0 <= c <= 2)%Z ->
      sample out H W y' x' c
      = if ((y' =? y) && (xmin <=? x') && (x' <=? xmax))%Z
        then f x' c (sample canvas H W y' x' c)
        else sample canvas H W y' x' c.
Proof.
  intros Hy Hlo Hhi Hbody L.
  destruct (for_range_total
              (fun j c =>
                 len c = (H * W * 3)%Z /\
                 forall y' x' ch, in_canvas H W x' y' -> (0 <= ch <= 2)%Z ->
                   sample c H W y' x' ch
                   = if ((y' =? y) && (xmin <=? x') && (x' <? j))%Z
                     then f x' ch (sample canvas H W y' x' ch)
                     else sample canvas H W y' x' ch)
              body xmin xmax canvas) as [out [E [Lo Ho]]].
  - split; auto. intros y' x' ch _ _.
    destruct (Z.leb_spec xmin x'); destruct (Z.ltb_spec x' xmin);
      rewrite ?andb_false_r; auto; lia.
  - intros j c Hj [Lc Hc].
    destruct (Hbody j Hj c Lc) as (c' & Ec' & Lc' & Hat & Helse).
    exists c'. split; auto. split; auto.
    intros y' x' ch Hin Hch.
    destruct (Z.eq_dec y' y) as [->|Hny];
      [destruct (Z.eq_dec x' j) as [->|Hnx]|].
    + rewrite Hat by auto. rewrite Hc by auto.
      rewrite Z.eqb_refl.
      destruct (Z.leb_spec xmin j); try lia.
      destruct (Z.ltb_spec j j); try lia.
      destruct (Z.ltb_spec j (j + 1)); try lia. reflexivity.
    + rewrite Helse by (auto; congruence). rewrite Hc by auto.
      rewrite Z.eqb_refl. cbn [andb].
      destruct (Z.leb_spec xmin x'); cbn [andb]; auto.
      destruct (Z.ltb_spec x' j); destruct (Z.ltb_spec x' (j + 1));
        auto; lia.
    + rewrite Helse by (auto; congruence). rewrite Hc by auto.
      destruct (Z.eqb_spec y' y); try congruence. reflexivity.
  - exists out. split; auto. split; auto.
    intros y' x' c Hin Hc. rewrite Ho by auto.
    destruct (Z.eqb_spec y' y); cbn [andb]; auto.
    destruct (Z.leb_spec xmin x'); cbn [andb]; auto.
    destruct (Z.ltb_spec x' (Z.max xmin (xmax + 1)));
      destruct (Z.leb_spec x' xmax); auto; lia.
Qed.

(** The two nested loops over a rectangle within the canvas. *)
Lemma rect_loop (H W : Z)
      (body : Z -> Z -> NumericVector -> option NumericVector)
      (f : Z -> Z -> Z -> R -> R) (xmin xmax ymin ymax : Z)
      (canvas : NumericVector) :
  rect_in_canvas H W xmin xmax ymin ymax ->
  (forall y x, (ymin <= y <= ymax)%Z -> (xmin <= x <= xmax)%Z ->
               pixel_map H W (body y x) (f y x) y x) ->
  len canvas = (H * W * 3)%Z ->
  exists out,
    for_range ymin ymax (fun y c =>
      for_range xmin xmax (fun x c => body y x c) c) canvas = Some out /\
    len out = (H * W * 3)%Z /\
    forall y' x' c, in_canvas H W x' y' -> (0 <= c <= 2)%Z ->
      sample out H W y' x' c
      = if in_rectb xmin xmax ymin ymax x' y'
        then f y' x' c (sample canvas H W y' x' c)
        else sample canvas H W y' x' c.
Proof.
  intros (Hx1 & Hx2 & Hy1 & Hy2) Hbody L.
  destruct (for_range_total
              (fun i c =>
                 len c = (H * W * 3)%Z /\
                 forall y' x' ch, in_canvas H W x' y' -> (0 <= ch <= 2)%Z ->
                   sample c H W y' x' ch
                   = if ((xmin <=? x') && (x' <=? xmax) &&
                         (ymin <=? y') && (y' <? i))%Z
                     then f y' x' ch (sample canvas H W y' x' ch)
                     else sample canvas H W y' x' ch)
              (fun y c => for_range xmin xmax (fun x c => body y x c) c)
              ymin ymax canvas) as [out [E [Lo Ho]]].
  - split; auto. intros y' x' ch _ _.
    destruct (Z.leb_spec ymin y'); destruct (Z.ltb_spec y' ymin);
      rewrite ?andb_false_r; auto; lia.
  - intros i c Hi [Lc Hc].
    destruct (row_loop H W (fun x c => body i x c) (f i) i xmin xmax c)
      as (c' & Ec' & Lc' & Hrow); auto; try lia.
    exists c'. split; auto. split; auto.
    intros y' x' ch Hin Hch. rewrite Hrow by auto. rewrite Hc by auto.
    destruct (Z.eqb_spec y' i) as [->|Hne]; cbn [andb].
    + destruct (Z.leb_spec xmin x'); cbn [andb].
      2:{ reflexivity. }
      destruct (Z.leb_spec x' xmax); cbn [andb].
      2:{ reflexivity. }
      destruct (Z.leb_spec ymin i); try lia. cbn [andb].
      destruct (Z.ltb_spec i i); try lia.
      destruct (Z.ltb_spec i (i + 1)); try lia. reflexivity.
    + destruct ((xmin <=? x') && (x' <=? xmax) && (ymin <=? y'))%Z;
        cbn [andb]; auto.
      destruct (Z.ltb_spec y' i); destruct (Z.ltb_spec y' (i + 1));
        auto; lia.
  - exists out. split; auto. split; auto.
    intros y' x' c Hin Hc. rewrite Ho by auto. unfold in_rectb.
    destruct ((xmin <=? x') && (x' <=? xmax) && (ymin <=? y'))%Z eqn:Eb;
      cbn [andb]; auto.
    destruct (Z.ltb_spec y' (Z.max ymin (ymax + 1)));
      destruct (Z.leb_spec y' ymax); auto.
    + apply andb_true_iff in Eb. destruct Eb as [_ Eb].
      apply Z.leb_le in Eb. lia.
    + lia.
Qed.

Lemma line_over_zero (l : Line) (x y c : Z) (v : R) :
  line_coverage_at l x y = 0 -> line_over l x y c v = v.
Proof.
  intros E. unfold line_over. cbv zeta. rewrite E.
  replace (Rltb 0 0) with false by (symmetry; apply Rltb_false; lra).
  reflexivity.
Qed.

(** A line drawn over a rectangle within the canvas. *)
Lemma line_rect_spec (H W : Z) (l : Line) (xmin xmax ymin ymax : Z)
      (canvas : NumericVector) :
  rect_in_canvas H W xmin xmax ymin ymax ->
  len canvas = (H * W * 3)%Z ->
  exists out,
    McmcPainter.line_rect H W l xmin xmax ymin ymax canvas = Some out /\
    len out = (H * W * 3)%Z /\
    forall y x c, in_canvas H W x y -> (0 <= c <= 2)%Z ->
      sample out H W y x c
      = if in_rectb xmin xmax ymin ymax x y
        then line_over l x y c (sample canvas H W y x c)
        else sample canvas H W y x c.
Proof.
  intros Hr L. unfold McmcPainter.line_rect.
  apply (rect_loop H W
           (fun y x c =>
              McmcPainter.line_pixel H W (line_x1 l) (line_y1 l) (line_x2 l)
                (line_y2 l) (line_w l) (line_alpha l) (line_col l) y x c)
           (fun y x c v => line_over l x y c v)); auto.
  intros y x Hy Hx. apply line_pixel_map.
  destruct Hr as (? & ? & ? & ?). unfold in_canvas. lia.
Qed.

(** One line of the full render composites the line over every pixel of
    the canvas: outside its bounding box its coverage is 0. *)
Lemma render_line_spec (H W : Z) (l : Line) (canvas : NumericVector) :
  0 <= line_w l -> len canvas = (H * W * 3)%Z ->
  exists out,
    McmcPainter.render_line H W l canvas = Some out /\
    len out = (H * W * 3)%Z /\
    forall y x c, in_canvas H W x y -> (0 <= c <= 2)%Z ->
      sample out H W y x c = line_over l x y c (sample canvas H W y x c).
Proof.
  intros Hw L. unfold McmcPainter.render_line. cbv zeta.
  set (r := line_w l / 2 + 2).
  destruct (line_rect_spec H W l
              (Z.max 1 (Zfloor (Rmin (line_x1 l) (line_x2 l) - r)))
              (Z.min W (Zceil (Rmax (line_x1 l) (line_x2 l) + r)))
              (Z.max 1 (Zfloor (Rmin (line_y1 l) (line_y2 l) - r)))
              (Z.min H (Zceil (Rmax (line_y1 l) (line_y2 l) + r)))
              canvas) as (out & E & Lo & Ho); auto.
  { unfold rect_in_canvas. lia. }
  exists out. split; auto. split; auto.
  intros y x c Hin Hc. rewrite Ho by auto.
  destruct (in_rectb _ _ _ _ x y) eqn:Eb; auto.
  symmetry. apply line_over_zero.
  destruct Hin as [Hx Hy].
  apply (line_coverage_zero_outside_bbox l W H x y); auto.
  intros Hbb.
  match type of Eb with
  | ?t = false => assert (Et : t = true) by (apply in_rectb_spec; exact Hbb)
  end.
  congruence.
Qed.

Lemma sample_repeat (v : R) (n : nat) (H W y x c : Z) :
  (0 <= sample_index H W y x c < Z.of_nat n)%Z ->
  sample (repeat v n) H W y x c = v.
Proof.
  intros Hi. unfold sample.
  apply nth_repeat_lt. lia.
Qed.

Lemma render_lines_spec (H W : Z) (lines : list Line)
      (canvas : NumericVector) :
  Forall (fun l => 0 <= line_w l) lines -> len canvas = (H * W * 3)%Z ->
  exists out,
    for_each lines (McmcPainter.render_line H W) canvas = Some out /\
    len out = (H * W * 3)%Z /\
    forall y x c, in_canvas H W x y -> (0 <= c <= 2)%Z ->
      sample out H W y x c
      = fold_left (fun v l => line_over l x y c v) lines
                  (sample canvas H W y x c).
Proof.
  intros Hw. revert canvas. induction Hw as [|l lines Hl Hls IH]; intros canvas L.
  - exists canvas. repeat split; auto.
  - cbn [for_each fold_left].
    destruct (render_line_spec H W l canvas Hl L) as (c1 & E1 & L1 & H1).
    rewrite E1. cbn [obind].
    destruct (IH c1 L1) as (out & E & Lo & Ho).
    exists out. split; auto. split; auto.
    intros y x c Hin Hc. rewrite Ho by auto. now rewrite H1 by auto.
Qed.

(** The full render of a list of lines computes the painting. *)
Lemma render_full_canvas_cpp_spec (lines : list Line) (H W : Z) :
  (1 <= H)%Z -> (1 <= W)%Z ->
  Forall (fun l => 0 <= line_w l) lines ->
  exists out,
    McmcPainter.render_full_canvas_cpp lines H W = Some out /\
    len out = (H * W * 3)%Z /\
    forall y x c, in_canvas H W x y -> (0 <= c <= 2)%Z ->
      sample out H W y x c = painting lines x y c.
Proof.
  intros HH HW Hw. unfold McmcPainter.render_full_canvas_cpp. cbv zeta.
  assert (L : len (repeat 1 (Z.to_nat (H * W * 3))) = (H * W * 3)%Z).
  { unfold len. rewrite repeat_length. nia. }
  destruct (render_lines_spec H W lines _ Hw L) as (out & E & Lo & Ho).
  exists out. split; auto. split; auto.
  intros y x c [Hx Hy] Hc. rewrite (Ho y x c (conj Hx Hy) Hc).
  unfold painting. f_equal.
  apply sample_repeat.
  pose proof (sample_index_bounds H W y x c Hy Hx Hc). lia.
Qed.

(** The rectangle is reset to white. *)
Lemma clear_pixel_map (H W y x : Z) :
  in_canvas H W x y ->
  pixel_map H W
    (fun canvas => for_range 0 2 (fun c canvas =>
                     vset canvas (McmcPainter.idx3 y x c H W) 1) canvas)
    (fun _ _ => 1) y x.
Proof.
  intros [Hx Hy] canvas L.
  unfold for_range. change (Z.to_nat (2 - 0 + 1)) with 3%nat.
  cbn [for_loop]. change (0 + 1)%Z with 1%Z. change (1 + 1)%Z with 2%Z.
  rewrite !mcmc_idx3_sample_index.
  pose proof (sample_index_bounds H W y x 0 Hy Hx ltac:(lia)).
  pose proof (sample_index_bounds H W y x 1 Hy Hx ltac:(lia)).
  pose proof (sample_index_bounds H W y x 2 Hy Hx ltac:(lia)).
  rewrite vset_Some by lia. cbn [obind].
  rewrite vset_Some by (rewrite ?len_upd; lia). cbn [obind].
  rewrite vset_Some by (rewrite ?len_upd; lia). cbn [obind].
  eexists. split; [reflexivity|]. split; [now rewrite !len_upd|].
  split.
  - intros c Hc.
    rewrite !sample_upd by (rewrite ?len_upd; unfold in_canvas; auto; lia).
    rewrite !Z.eqb_refl. cbn [andb].
    assert (Hcc : c = 0%Z \/ c = 1%Z \/ c = 2%Z) by lia.
    destruct Hcc as [-> | [-> | ->]]; reflexivity.
  - intros y' x' c Hin' Hc Hne.
    rewrite !sample_upd by (rewrite ?len_upd; unfold in_canvas; auto; lia).
    destruct (Z.eqb_spec y' y); destruct (Z.eqb_spec x' x);
      cbn [andb]; try reflexivity.
    subst. congruence.
Qed.

Lemma clear_rect_spec (H W : Z) (xmin xmax ymin ymax : Z)
      (canvas : NumericVector) :
  rect_in_canvas H W xmin xmax ymin ymax ->
  len canvas = (H * W * 3)%Z ->
  exists out,
    McmcPainter.clear_rect H W xmin xmax ymin ymax canvas = Some out /\
    len out = (H * W * 3)%Z /\
    forall y x c, in_canvas H W x y -> (0 <= c <= 2)%Z ->
      sample out H W y x c
      = if in_rectb xmin xmax ymin ymax x y then 1
        else sample canvas H W y x c.
Proof.
  intros Hr L. unfold McmcPainter.clear_rect.
  apply (rect_loop H W
           (fun y x canvas => for_range 0 2 (fun c canvas =>
              vset canvas (McmcPainter.idx3 y x c H W) 1) canvas)
           (fun _ _ _ _ => 1)); auto.
  intros y x Hy Hx. apply clear_pixel_map.
  destruct Hr as (? & ? & ? & ?). unfold in_canvas. lia.
Qed.

(** Where the intersection test of the incremental re-render rejects a
    line, the line covers no pixel of the rectangle. *)
Lemma line_coverage_zero_when_skipped (l : Line) (xmin xmax ymin ymax x y : Z) :
  0 <= line_w l -> in_rect xmin xmax ymin ymax x y ->
  let r := line_w l / 2 + 2 in
  Rltb (Rmax (line_x1 l) (line_x2 l) + r) (IZR xmin)
  || Rltb (IZR xmax) (Rmin (line_x1 l) (line_x2 l) - r)
  || Rltb (Rmax (line_y1 l) (line_y2 l) + r) (IZR ymin)
  || Rltb (IZR ymax) (Rmin (line_y1 l) (line_y2 l) - r) = true ->
  line_coverage_at l x y = 0.
Proof.
  intros Hw [Hx Hy] r Hskip. unfold line_coverage_at.
  apply line_coverage_far; [lra|].
  apply Rle_trans with ((line_w l / 2 + 1.5) * (line_w l / 2 + 1.5)); [nra|].
  apply line_d2_far; [lra|].
  assert (IZR xmin <= IZR x <= IZR xmax) by (split; apply IZR_le; lia).
  assert (IZR ymin <= IZR y <= IZR ymax) by (split; apply IZR_le; lia).
  subst r.
  repeat rewrite orb_true_iff in Hskip. rewrite !Rltb_true in Hskip.
  destruct Hskip as [[[Hs | Hs] | Hs] | Hs].
  - right; left. lra.
  - left. lra.
  - right; right; right. lra.
  - right; right; left. lra.
Qed.

(** Project the fields of a bounding box in a hypothesis. *)
Ltac bbox_fields Hb := cbn [xmin xmax ymin ymax] in Hb.

(** One line of the incremental re-render composites the line over every
    pixel of the rectangle and touches no other pixel. *)
Lemma re_render_line_spec (H W : Z) (xmin xmax ymin ymax : Z) (l : Line)
      (canvas : NumericVector) :
  0 <= line_w l -> rect_in_canvas H W xmin xmax ymin ymax ->
  len canvas = (H * W * 3)%Z ->
  exists out,
    McmcPainter.re_render_line H W xmin xmax ymin ymax l canvas = Some out /\
    len out = (H * W * 3)%Z /\
    forall y x c, in_canvas H W x y -> (0 <= c <= 2)%Z ->
      sample out H W y x c
      = if in_rectb xmin xmax ymin ymax x y
        then line_over l x y c (sample canvas H W y x c)
        else sample canvas H W y x c.
Proof.
  intros Hw Hr L. unfold McmcPainter.re_render_line. cbv zeta.
  set (r := line_w l / 2 + 2).
  destruct (Rltb (Rmax (line_x1 l) (line_x2 l) + r) (IZR xmin)
            || Rltb (IZR xmax) (Rmin (line_x1 l) (line_x2 l) - r)
            || Rltb (Rmax (line_y1 l) (line_y2 l) + r) (IZR ymin)
            || Rltb (IZR ymax) (Rmin (line_y1 l) (line_y2 l) - r)) eqn:Eskip;
    cbn [negb].
  - exists canvas. split; auto. split; auto.
    intros y x c Hin Hc.
    destruct (in_rectb xmin xmax ymin ymax x y) eqn:Eb; auto.
    symmetry. apply line_over_zero.
    apply (line_coverage_zero_when_skipped l xmin xmax ymin ymax); auto.
    now apply in_rectb_spec.
  - destruct Hr as (Hx1 & Hx2 & Hy1 & Hy2).
    destruct (line_rect_spec H W l
                (Z.max xmin (Zfloor (Rmin (line_x1 l) (line_x2 l) - r)))
                (Z.min xmax (Zceil (Rmax (line_x1 l) (line_x2 l) + r)))
                (Z.max ymin (Zfloor (Rmin (line_y1 l) (line_y2 l) - r)))
                (Z.min ymax (Zceil (Rmax (line_y1 l) (line_y2 l) + r)))
                canvas) as (out & E & Lo & Ho); auto.
    { unfold rect_in_canvas. lia. }
    exists out. split; auto. split; auto.
    intros y x c Hin Hc. rewrite Ho by auto.
    destruct (in_rectb (Z.max xmin _) _ _ _ x y) eqn:Ed;
      destruct (in_rectb xmin xmax ymin ymax x y) eqn:Eb; auto.
    + apply in_rectb_spec in Ed.
      assert (Hr : in_rect xmin xmax ymin ymax x y)
        by (unfold in_rect in *; lia).
      apply in_rectb_spec in Hr. congruence.
    + symmetry. apply line_over_zero.
      destruct Hin as [Hx Hy].
      apply (line_coverage_zero_outside_bbox l W H x y); auto.
      intros Hbb. unfold in_bbox, McmcPainter.line_bbox_cpp in Hbb.
      bbox_fields Hbb.
      fold r in Hbb.
      apply in_rectb_spec in Eb.
      match type of Ed with
      | ?t = false => assert (Et : t = true)
      end.
      { apply in_rectb_spec. unfold in_rect in *. lia. }
      congruence.
Qed.

Lemma re_render_lines_spec (H W : Z) (xmin xmax ymin ymax : Z)
      (lines : list Line) (canvas : NumericVector) :
  Forall (fun l => 0 <= line_w l) lines ->
  rect_in_canvas H W xmin xmax ymin ymax ->
  len canvas = (H * W * 3)%Z ->
  exists out,
    for_each lines (McmcPainter.re_render_line H W xmin xmax ymin ymax) canvas
    = Some out /\
    len out = (H * W * 3)%Z /\
    forall y x c, in_canvas H W x y -> (0 <= c <= 2)%Z ->
      sample out H W y x c
      = if in_rectb xmin xmax ymin ymax x y
        then fold_left (fun v l => line_over l x y c v) lines
                       (sample canvas H W y x c)
        else sample canvas H W y x c.
Proof.
  intros Hw Hr. revert canvas.
  induction Hw as [|l lines Hl Hls IH]; intros canvas L.
  - exists canvas. split; auto. split; auto.
    intros y x c _ _. cbn [fold_left]. now destruct (in_rectb _ _ _ _ x y).
  - cbn [for_each fold_left].
    destruct (re_render_line_spec H W xmin xmax ymin ymax l canvas Hl Hr L)
      as (c1 & E1 & L1 & H1).
    rewrite E1. cbn [obind].
    destruct (IH c1 L1) as (out & E & Lo & Ho).
    exists out. split; auto. split; auto.
    intros y x c Hin Hc. rewrite Ho by auto. rewrite H1 by auto.
    now destruct (in_rectb _ _ _ _ x y).
Qed.

(** The incremental re-render of a list of lines computes the painting on
    the rectangle and keeps the base canvas elsewhere. *)
Lemma re_render_bbox_from_lines_cpp_spec (base_canvas : NumericVector)
      (lines : list Line) (xmin xmax ymin ymax H W : Z) :
  Forall (fun l => 0 <= line_w l) lines ->
  rect_in_canvas H W xmin xmax ymin ymax ->
  len base_canvas = (H * W * 3)%Z ->
  exists out,
    McmcPainter.re_render_bbox_from_lines_cpp base_canvas lines
      xmin xmax ymin ymax H W = Some out /\
    len out = (H * W * 3)%Z /\
    forall y x c, in_canvas H W x y -> (0 <= c <= 2)%Z ->
      sample out H W y x c
      = if in_rectb xmin xmax ymin ymax x y then painting lines x y c
        else sample base_canvas H W y x c.
Proof.
  intros Hw Hr L. unfold McmcPainter.re_render_bbox_from_lines_cpp. cbv zeta.
  destruct (clear_rect_spec H W xmin xmax ymin ymax base_canvas Hr L)
    as (c0 & E0 & L0 & H0).
  rewrite E0. cbn [obind].
  destruct (re_render_lines_spec H W xmin xmax ymin ymax lines c0 Hw Hr L0)
    as (out & E & Lo & Ho).
  exists out. split; auto. split; auto.
  intros y x c Hin Hc. rewrite Ho by auto. rewrite H0 by auto.
  now destruct (in_rectb _ _ _ _ x y).
Qed.

(** X26.  The line pipeline has the locality and the frame property of
    the incremental re-render: on a rectangle within the canvas it agrees
    with the full render of the same list, and outside the rectangle it
    keeps the base canvas. *)
Lemma re_render_lines_locality_and_frame (base_canvas : NumericVector)
      (lines : list Line) (xmin xmax ymin ymax H W : Z) :
  (1 <= H)%Z -> (1 <= W)%Z ->
  Forall (fun l => 0 <= line_w l) lines ->
  rect_in_canvas H W xmin xmax ymin ymax ->
  len base_canvas = (H * W * 3)%Z ->
  exists incremental full,
    McmcPainter.re_render_bbox_from_lines_cpp base_canvas lines
      xmin xmax ymin ymax H W = Some incremental /\
    McmcPainter.render_full_canvas_cpp lines H W = Some full /\
    (forall y x c, in_rect xmin xmax ymin ymax x y -> (0 <= c <= 2)%Z ->
       sample incremental H W y x c = sample full H W y x c) /\
    (forall y x c, in_canvas H W x y -> ~ in_rect xmin xmax ymin ymax x y ->
       (0 <= c <= 2)%Z ->
       sample incremental H W y x c = sample base_canvas H W y x c).
Proof.
  intros HH HW Hw Hr L.
  destruct (re_render_bbox_from_lines_cpp_spec base_canvas lines
              xmin xmax ymin ymax H W Hw Hr L) as (inc & Ei & _ & Hi).
  destruct (render_full_canvas_cpp_spec lines H W HH HW Hw)
    as (full & Ef & _ & Hf).
  exists inc, full. split; auto. split; auto. split.
  - intros y x c Hin Hc.
    assert (Hcan : in_canvas H W x y).
    { destruct Hr as (? & ? & ? & ?). unfold in_rect, in_canvas in *. lia. }
    rewrite Hi, Hf by auto.
    apply in_rectb_spec in Hin. now rewrite Hin.
  - intros y x c Hcan Hout Hc. rewrite Hi by auto.
    destruct (in_rectb xmin xmax ymin ymax x y) eqn:Eb; auto.
    apply in_rectb_spec in Eb. contradiction.
Qed.

Lemma re_render_lines_locality_and_frame_witness :
  exists incremental full,
    McmcPainter.re_render_bbox_from_lines_cpp white_canvas
      [mkLine 1 1 4 4 1 0.5 (mkColor 0 0 0)] 2 3 2 3 4 4 = Some incremental /\
    McmcPainter.render_full_canvas_cpp
      [mkLine 1 1 4 4 1 0.5 (mkColor 0 0 0)] 4 4 = Some full /\
    (forall y x c, in_rect 2 3 2 3 x y -> (0 <= c <= 2)%Z ->
       sample incremental 4 4 y x c = sample full 4 4 y x c) /\
    (forall y x c, in_canvas 4 4 x y -> ~ in_rect 2 3 2 3 x y ->
       (0 <= c <= 2)%Z ->
       sample incremental 4 4 y x c = sample white_canvas 4 4 y x c).
Proof.
  apply (re_render_lines_locality_and_frame white_canvas
           [mkLine 1 1 4 4 1 0.5 (mkColor 0 0 0)] 2 3 2 3 4 4);
    [lia | lia | apply Forall_cons; [simpl; lra | apply Forall_nil]
    | unfold rect_in_canvas; lia | reflexivity].
Defined.

(** ** The samplers *)

Ltac draw_uniform Hu :=
  match goal with
  | |- context [runif ?G ?a ?b ?g] =>
      let u := fresh "u" in
      let g' := fresh "g" in
      let E := fresh "E" in
      pose proof (Hu a b g) as E;
      destruct (runif G a b g) as [u g']; cbn [fst] in E
  end.

Ltac draw_beta Hb :=
  match goal with
  | |- context [rbeta ?G ?a ?b ?g] =>
      let u := fresh "u" in
      let g' := fresh "g" in
      let E := fresh "E" in
      pose proof (Hb a b g) as E;
      destruct (rbeta G a b g) as [u g']; cbn [fst] in E
  end.

Ltac draw_normal :=
  match goal with
  | |- context [rnorm ?G ?a ?b ?g] =>
      let u := fresh "n" in
      let g' := fresh "g" in
      destruct (rnorm G a b g) as [u g']
  end.

Ltac draws Hu Hb :=
  repeat first [draw_uniform Hu | draw_beta Hb | draw_normal].

Lemma clamp_range (lo hi v : R) :
  lo <= hi -> lo <= Rmax lo (Rmin hi v) <= hi.
Proof.
  intros Hle. unfold Rmax, Rmin.
  repeat destruct (Rle_dec _ _); lra.
Qed.

Lemma clamp_range' (lo hi v : R) :
  lo <= hi -> lo <= Rmin hi (Rmax lo v) <= hi.
Proof.
  intros Hle. unfold Rmax, Rmin.
  repeat destruct (Rle_dec _ _); lra.
Qed.

Lemma one_le_IZR (k : Z) : (1 <= k)%Z -> 1 <= IZR k.
Proof. intros Hk. apply (IZR_le 1 k Hk). Qed.

Lemma sample_dot_prior_valid (G : Rng) (W H : Z) (g : rng_state G) :
  rng_in_support G -> (1 <= W)%Z -> (1 <= H)%Z ->
  exists d g', DotPainter.sample_dot_prior_cpp G W H g = Some (d, g') /\
               valid_dot W H d.
Proof.
  intros [Hu Hb] HW HH. apply one_le_IZR in HW, HH.
  unfold DotPainter.sample_dot_prior_cpp, mbind, draw, ret.
  draws Hu Hb.
  eexists; eexists; split; [reflexivity|].
  unfold valid_dot, valid_color, in01. cbn.
  pose proof (Rabs_pos n). lra.
Qed.

Lemma jitter_dot_valid (G : Rng) (dot : Dot) (W H : Z) (s_xy s_r s_a s_c : R)
      (g : rng_state G) :
  (1 <= W)%Z -> (1 <= H)%Z ->
  exists d g', DotPainter.jitter_dot_cpp G dot W H s_xy s_r s_a s_c g
               = Some (d, g') /\ valid_dot W H d.
Proof.
  intros HW HH. apply one_le_IZR in HW, HH.
  unfold DotPainter.jitter_dot_cpp, mbind, draw, ret.
  repeat draw_normal.
  eexists; eexists; split; [reflexivity|].
  unfold valid_dot, valid_color, in01. cbn.
  repeat split;
    try (apply clamp_range; lra); try (apply clamp_range'; lra);
    try apply Rmax_l.
  - pose proof (clamp_range' 0.001 0.999 (dot_alpha dot + n2)). lra.
  - pose proof (clamp_range' 0.001 0.999 (dot_alpha dot + n2)). lra.
Qed.

Lemma sample_line_prior_valid (G : Rng) (W H : Z) (g : rng_state G) :
  rng_in_support G -> (1 <= W)%Z -> (1 <= H)%Z ->
  exists l g', McmcPainter.sample_line_prior_cpp G W H g = Some (l, g') /\
               valid_line W H l.
Proof.
  intros [Hu Hb] HW HH. apply one_le_IZR in HW, HH.
  unfold McmcPainter.sample_line_prior_cpp, mbind, draw, ret.
  draws Hu Hb.
  eexists; eexists; split; [reflexivity|].
  unfold valid_line, valid_color, in01. cbn.
  pose proof (Rabs_pos n0).
  repeat split; try (apply clamp_range; lra); lra.
Qed.

Lemma jitter_line_valid (G : Rng) (line : Line) (W H : Z)
      (s_xy s_w s_a s_c : R) (g : rng_state G) :
  (1 <= W)%Z -> (1 <= H)%Z ->
  exists l g', McmcPainter.jitter_line_cpp G line W H s_xy s_w s_a s_c g
               = Some (l, g') /\ valid_line W H l.
Proof.
  intros HW HH. apply one_le_IZR in HW, HH.
  unfold McmcPainter.jitter_line_cpp, mbind, draw, ret.
  repeat draw_normal.
  eexists; eexists; split; [reflexivity|].
  unfold valid_line, valid_color, in01. cbn.
  repeat split;
    try (apply clamp_range; lra); try (apply clamp_range'; lra).
  - pose proof (Rmax_l 0.2 (line_w line + n3)). lra.
  - pose proof (clamp_range' 0.001 0.999 (line_alpha line + n4)). lra.
  - pose proof (clamp_range' 0.001 0.999 (line_alpha line + n4)). lra.
Qed.

Lemma len_vsub (a b : NumericVector) :
  len a = len b -> len (vsub a b) = len a.
Proof.
  unfold len, vsub. intros E.
  rewrite length_map, length_combine. lia.
Qed.

Lemma len_repeat (v : R) (n : nat) : len (repeat v n) = Z.of_nat n.
Proof. unfold len. now rewrite repeat_length. Qed.

Lemma channel_index_bounds (H W i c : Z) :
  (0 <= i <= H * W - 1)%Z -> (0 <= c <= 2)%Z ->
  (0 <= i + c * H * W < H * W * 3)%Z.
Proof.
  intros Hi Hc. rewrite <- (Z.mul_assoc c H W).
  assert (0 <= c * (H * W))%Z by nia.
  assert (c * (H * W) <= 2 * (H * W))%Z by nia.
  lia.
Qed.

Lemma residual_magnitude_total (target canvas : NumericVector) (H W : Z) :
  (1 <= W)%Z -> (1 <= H)%Z ->
  len target = (H * W * 3)%Z -> len canvas = (H * W * 3)%Z ->
  exists mag_sq, residual_magnitude target canvas H W = Some mag_sq /\
                 len mag_sq = (H * W)%Z.
Proof.
  intros HW HH Lt Lc. unfold residual_magnitude.
  assert (LE : len (vsub target canvas) = (H * W * 3)%Z)
    by (rewrite len_vsub; congruence).
  apply for_range_inv.
  - rewrite len_repeat. nia.
  - intros i mag Hi Lm.
    destruct (vget_Some (vsub target canvas) (i + 0 * H * W)) as [d0 E0];
      [rewrite LE; apply channel_index_bounds; lia|].
    destruct (vget_Some (vsub target canvas) (i + 1 * H * W)) as [d1 E1];
      [rewrite LE; apply channel_index_bounds; lia|].
    destruct (vget_Some (vsub target canvas) (i + 2 * H * W)) as [d2 E2];
      [rewrite LE; apply channel_index_bounds; lia|].
    rewrite E0, E1, E2. cbn [obind].
    rewrite vset_Some by lia.
    eexists. split; [reflexivity|]. now rewrite len_upd.
Qed.

Lemma max_magnitude_total (mag_sq : NumericVector) (H W : Z) :
  len mag_sq = (H * W)%Z ->
  exists max_mag, max_magnitude mag_sq H W = Some max_mag.
Proof.
  intros Lm. unfold max_magnitude.
  destruct (for_range_inv (fun _ : R => True)
              (fun i max_mag => m <- vget mag_sq i ;;
                 Some (if Rltb max_mag m then m else max_mag))
              0 (H * W - 1) 0 I) as [m [E _]]; [|eauto].
  intros i t Hi _.
  destruct (vget_Some mag_sq i) as [m Em]; [lia|].
  rewrite Em. cbn [obind]. eauto.
Qed.

Lemma normalize_total (mag_sq : NumericVector) (max_mag : R) (H W : Z) :
  len mag_sq = (H * W)%Z ->
  exists mag' total_weight,
    normalize mag_sq max_mag H W = Some (mag', total_weight) /\
    len mag' = (H * W)%Z.
Proof.
  intros Lm. unfold normalize.
  destruct (for_range_inv (fun st : NumericVector * R => len (fst st) = (H * W)%Z)
              (fun i st =>
                 let '(mag_sq, total_weight) := st in
                 m <- vget mag_sq i ;;
                 mag_sq <- vset mag_sq i (m / max_mag) ;;
                 m <- vget mag_sq i ;;
                 Some (mag_sq, total_weight + m))
              0 (H * W - 1) (mag_sq, 0) Lm) as [[mag' tw] [E L']].
  - intros i [mag tw] Hi Lmag. cbn [fst] in Lmag.
    destruct (vget_Some mag i) as [m Em]; [lia|].
    rewrite Em. cbn [obind].
    rewrite vset_Some by lia. cbn [obind].
    rewrite vget_upd_eq by lia. cbn [obind].
    eexists. split; [reflexivity|]. cbn [fst]. now rewrite len_upd.
  - exists mag', tw. auto.
Qed.

Lemma crossing_loop_range (n : nat) (i : Z) (mag_sq : NumericVector)
      (r cumsum : R) :
  (0 <= i)%Z -> (i + Z.of_nat n <= len mag_sq)%Z ->
  exists idx, crossing_loop n i mag_sq r cumsum = Some idx /\
              (idx = 0 \/ i <= idx < i + Z.of_nat n)%Z.
Proof.
  revert i cumsum. induction n as [|n IH]; intros i cumsum Hi Hn.
  - exists 0%Z. split; [reflexivity | auto].
  - cbn [crossing_loop].
    destruct (vget_Some mag_sq i) as [m Em]; [lia|].
    rewrite Em. cbn [obind].
    destruct (Rleb r (cumsum + m)).
    + exists i. split; [reflexivity | lia].
    + destruct (IH (i + 1)%Z (cumsum + m)) as [idx [E Hr]]; try lia.
      exists idx. split; [exact E | lia].
Qed.

Lemma pixel_of_index (H W idx : Z) :
  (1 <= H)%Z -> (0 <= idx < H * W)%Z ->
  (1 <= Z.quot idx H + 1 <= W /\ 1 <= Z.rem idx H + 1 <= H)%Z.
Proof.
  intros HH Hidx.
  rewrite Z.quot_div_nonneg, Z.rem_mod_nonneg by lia.
  pose proof (Z.mod_pos_bound idx H ltac:(lia)).
  pose proof (Z.div_pos idx H ltac:(lia) ltac:(lia)).
  assert (idx / H < W)%Z by (apply Z.div_lt_upper_bound; lia).
  lia.
Qed.

Lemma sample_seed_valid (G : Rng) (target canvas : NumericVector) (H W : Z)
      (g : rng_state G) :
  rng_in_support G -> (1 <= W)%Z -> (1 <= H)%Z ->
  len target = (H * W * 3)%Z -> len canvas = (H * W * 3)%Z ->
  exists x0 y0 g',
    sample_seed G target canvas H W g = Some ((x0, y0), g') /\
    1 <= x0 <= IZR W /\ 1 <= y0 <= IZR H.
Proof.
  intros [Hu Hb] HW HH Lt Lc.
  unfold sample_seed, mbind, lift, draw, ret.
  destruct (residual_magnitude_total target canvas H W HW HH Lt Lc)
    as [mag [-> Lm]].
  destruct (max_magnitude_total mag H W Lm) as [max_mag ->].
  destruct (Rltb max_mag 1e-6).
  - pose proof (one_le_IZR W HW). pose proof (one_le_IZR H HH).
    draws Hu Hb.
    eexists; eexists; eexists; split; [reflexivity|]. lra.
  - destruct (normalize_total mag max_mag H W Lm) as [mag' [tw [-> Lm']]].
    destruct (runif G 0 tw g) as [r g'].
    unfold first_crossing.
    destruct (crossing_loop_range (Z.to_nat (H * W)) 0 mag' r 0)
      as [idx [-> Hidx]]; [lia | lia |].
    eexists; eexists; eexists; split; [reflexivity|].
    assert (Hi : (0 <= idx < H * W)%Z) by nia.
    destruct (pixel_of_index H W idx HH Hi) as [Hq Hr].
    split; split; apply IZR_le; lia.
Qed.

Lemma trunc_range (v : R) (N : Z) :
  1 <= v <= IZR N -> (1 <= trunc v <= N)%Z.
Proof.
  intros [Hlo Hhi]. unfold trunc.
  replace (Rltb v 0) with false by (symmetry; apply Rltb_false; lra).
  split.
  - apply Zfloor_lub. simpl. lra.
  - apply le_IZR. pose proof (Zfloor_bound v). lra.
Qed.

Lemma seed_channel_valid (G : Rng) (target : NumericVector)
      (H W y_idx x_idx c : Z) (g : rng_state G) :
  rng_in_support G -> all_samples in01 target ->
  exists v g', DotPainter.seed_channel G target H W y_idx x_idx c g
               = Some (v, g') /\ in01 v.
Proof.
  intros [Hu Hb] Ht. unfold DotPainter.seed_channel. cbv zeta.
  destruct ((0 <=? DotPainter.idx3 y_idx x_idx c H W)%Z &&
            (DotPainter.idx3 y_idx x_idx c H W <? len target)%Z) eqn:Eb.
  - apply andb_true_iff in Eb. destruct Eb as [E1 E2].
    apply Z.leb_le in E1. apply Z.ltb_lt in E2.
    destruct (vget_Some target (DotPainter.idx3 y_idx x_idx c H W))
      as [v Ev]; [lia|].
    unfold lift. rewrite Ev. exists v, g. split; auto.
    eapply all_samples_vget; eauto.
  - unfold draw. draw_uniform Hu.
    eexists; eexists; split; [reflexivity|]. unfold in01. lra.
Qed.

Lemma sample_dot_birth_valid (G : Rng) (target canvas : NumericVector)
      (H W : Z) (g : rng_state G) :
  rng_in_support G -> (1 <= W)%Z -> (1 <= H)%Z ->
  len target = (H * W * 3)%Z -> len canvas = (H * W * 3)%Z ->
  all_samples in01 target ->
  exists d g',
    DotPainter.sample_dot_birth_datadriven_cpp G target canvas H W g
    = Some (d, g') /\ valid_dot W H d /\
    exists g1, sample_seed G target canvas H W g
               = Some ((dot_x d, dot_y d), g1).
Proof.
  intros HG HW HH Lt Lc Ht.
  destruct (sample_seed_valid G target canvas H W g HG HW HH Lt Lc)
    as (x0 & y0 & g1 & Eseed & Hx & Hy).
  unfold DotPainter.sample_dot_birth_datadriven_cpp.
  unfold mbind at 1. rewrite Eseed.
  destruct HG as [Hu Hb].
  unfold mbind at 1, draw at 1. destruct (rnorm G 0 1.5 g1) as [n gn].
  unfold mbind at 1, draw at 1. pose proof (Hb 2 2 gn) as Ea.
  destruct (rbeta G 2 2 gn) as [alpha ga]. cbn [fst] in Ea.
  pose proof (trunc_range x0 W Hx) as Tx.
  pose proof (trunc_range y0 H Hy) as Ty.
  replace ((0 <=? trunc x0 - 1)%Z && (trunc x0 - 1 <? W)%Z &&
           (0 <=? trunc y0 - 1)%Z && (trunc y0 - 1 <? H)%Z) with true.
  2:{ symmetry. repeat (apply andb_true_iff; split);
      try apply Z.leb_le; try apply Z.ltb_lt; lia. }
  unfold mbind.
  destruct (seed_channel_valid G target H W (trunc y0 - 1) (trunc x0 - 1) 0 ga
              (conj Hu Hb) Ht) as (c0 & gc0 & -> & Hc0).
  destruct (seed_channel_valid G target H W (trunc y0 - 1) (trunc x0 - 1) 1 gc0
              (conj Hu Hb) Ht) as (c1 & gc1 & -> & Hc1).
  destruct (seed_channel_valid G target H W (trunc y0 - 1) (trunc x0 - 1) 2 gc1
              (conj Hu Hb) Ht) as (c2 & gc2 & -> & Hc2).
  unfold ret.
  eexists; eexists; split; [reflexivity|]. split.
  - unfold valid_dot, valid_color, in01 in *. cbn.
    pose proof (Rabs_pos n). lra.
  - cbn. eauto.
Qed.

Lemma clamp_Z_range (N k : Z) : (1 <= N)%Z -> (1 <= Z.min N (Z.max 1 k) <= N)%Z.
Proof. lia. Qed.

Lemma probe_colors_valid (target : NumericVector) (H W : Z)
      (x1 y1 x2 y2 : R) (nprobe : Z) :
  (1 <= W)%Z -> (1 <= H)%Z -> len target = (H * W * 3)%Z ->
  all_samples in01 target ->
  exists s0 s1 s2 count,
    McmcPainter.probe_colors target H W x1 y1 x2 y2 nprobe
    = Some (s0, s1, s2, count) /\
    (0 <= count)%Z /\
    0 <= s0 <= IZR count /\ 0 <= s1 <= IZR count /\ 0 <= s2 <= IZR count.
Proof.
  intros HW HH Lt Ht. unfold McmcPainter.probe_colors.
  destruct (for_range_inv
              (fun st : R * R * R * Z =>
                 let '(s0, s1, s2, count) := st in
                 (0 <= count)%Z /\ 0 <= s0 <= IZR count /\
                 0 <= s1 <= IZR count /\ 0 <= s2 <= IZR count)
              (fun i st =>
                 let '(s0, s1, s2, count) := st in
                 let t := IZR i / IZR (nprobe - 1) in
                 let px := Z.min W (Z.max 1 (round (x1 + t * (x2 - x1)))) in
                 let py := Z.min H (Z.max 1 (round (y1 + t * (y2 - y1)))) in
                 if ((1 <=? px) && (px <=? W) && (1 <=? py) && (py <=? H))%Z
                 then
                   t0 <- vget target (McmcPainter.idx3 py px 0 H W) ;;
                   t1 <- vget target (McmcPainter.idx3 py px 1 H W) ;;
                   t2 <- vget target (McmcPainter.idx3 py px 2 H W) ;;
                   Some (s0 + t0, s1 + t1, s2 + t2, (count + 1)%Z)
                 else Some st)
              0 (nprobe - 1) (0, 0, 0, 0%Z))
    as [[[[s0 s1] s2] count] [E Hinv]].
  - simpl. split; [lia | lra].
  - intros i [[[s0 s1] s2] count] Hi (Hc & H0 & H1 & H2). cbv zeta.
    set (px := Z.min W (Z.max 1 (round (x1 + IZR i / IZR (nprobe - 1) * (x2 - x1))))).
    set (py := Z.min H (Z.max 1 (round (y1 + IZR i / IZR (nprobe - 1) * (y2 - y1))))).
    destruct ((1 <=? px) && (px <=? W) && (1 <=? py) && (py <=? H))%Z;
      [|eexists; split; [reflexivity | cbv beta iota; tauto]].
    assert (Hpx : (1 <= px <= W)%Z) by (apply clamp_Z_range; lia).
    assert (Hpy : (1 <= py <= H)%Z) by (apply clamp_Z_range; lia).
    rewrite !mcmc_idx3_sample_index.
    rewrite !vget_sample
      by (rewrite Lt; apply sample_index_bounds; lia).
    cbn [obind]. eexists. split; [reflexivity|].
    assert (Hs : forall c, (0 <= c <= 2)%Z -> in01 (sample target H W py px c)).
    { intros c Hcc. eapply all_samples_vget; [exact Ht|].
      apply vget_sample. rewrite Lt. apply sample_index_bounds; lia. }
    pose proof (Hs 0%Z ltac:(lia)) as S0.
    pose proof (Hs 1%Z ltac:(lia)) as S1.
    pose proof (Hs 2%Z ltac:(lia)) as S2.
    unfold in01 in *. rewrite plus_IZR.
    split; [lia | lra].
  - exists s0, s1, s2, count. auto.
Qed.

Lemma average_in01 (s : R) (count : Z) :
  (0 < count)%Z -> 0 <= s <= IZR count -> in01 (s / IZR count).
Proof.
  intros Hc Hs. assert (Hp : 0 < IZR count) by (apply (IZR_lt 0); lia).
  assert (Hi : 0 < / IZR count) by (apply Rinv_0_lt_compat; lra).
  unfold in01, Rdiv. split.
  - apply Rmult_le_pos; lra.
  - apply Rmult_le_reg_r with (IZR count); [lra|].
    rewrite Rmult_assoc, Rinv_l by lra. lra.
Qed.

Lemma sample_line_birth_valid (G : Rng) (target canvas : NumericVector)
      (H W : Z) (g : rng_state G) :
  rng_in_support G -> (1 <= W)%Z -> (1 <= H)%Z ->
  len target = (H * W * 3)%Z -> len canvas = (H * W * 3)%Z ->
  all_samples in01 target ->
  exists l g',
    McmcPainter.sample_line_birth_datadriven_cpp G target canvas H W g
    = Some (l, g') /\ valid_line W H l.
Proof.
  intros HG HW HH Lt Lc Ht.
  destruct (sample_seed_valid G target canvas H W g HG HW HH Lt Lc)
    as (x0 & y0 & g1 & Eseed & Hx & Hy).
  unfold McmcPainter.sample_line_birth_datadriven_cpp.
  unfold mbind at 1. rewrite Eseed.
  destruct HG as [Hu Hb].
  unfold mbind, draw, lift, ret.
  destruct (runif G 0 (2 * PI) g1) as [ang g2].
  destruct (rnorm G 0 35 g2) as [n g3].
  destruct (rnorm G 0 3 g3) as [m g4].
  pose proof (Hb 3 3 g4) as Ea.
  destruct (rbeta G 3 3 g4) as [alpha g5]. cbn [fst] in Ea.
  cbv zeta.
  match goal with
  | |- context [McmcPainter.probe_colors target H W ?a ?b ?c ?d 20] =>
      destruct (probe_colors_valid target H W a b c d 20 HW HH Lt Ht)
        as (s0 & s1 & s2 & count & -> & Hc & H0 & H1 & H2)
  end.
  eexists; eexists; split; [reflexivity|].
  apply one_le_IZR in HW, HH.
  unfold valid_line. cbn [line_x1 line_y1 line_x2 line_y2 line_w line_alpha line_col].
  pose proof (Rabs_pos m).
  repeat split; try (apply clamp_range; lra); try lra.
  all: destruct (Z.ltb_spec 0 count) as [Hpos | Hzero];
    cbn [col0 col1 col2];
    try (apply average_in01; assumption).
  all: assert (count = 0%Z) by lia; subst count; unfold in01; simpl in *; lra.
Qed.

(** C8.  On a canvas of at least one pixel, with a generator whose draws
    lie in the support of their distributions and target and canvas
    buffers of [H*W*3] samples in [0,1], each of the six samplers returns
    a primitive, and every field of it is in its valid domain: positions
    in [1,W]x[1,H], a dot radius of at least 1, a positive line width, an
    alpha strictly between 0 and 1 and colour channels in [0,1]. *)
Theorem samplers_return_valid_primitives
        (G : Rng) (W H : Z) (target canvas : NumericVector)
        (dot : Dot) (line : Line) (s_xy s_r s_w s_a s_c : R)
        (g : rng_state G) :
  rng_in_support G -> (1 <= W)%Z -> (1 <= H)%Z ->
  len target = (H * W * 3)%Z -> len canvas = (H * W * 3)%Z ->
  all_samples in01 target -> all_samples in01 canvas ->
  valid_dot W H dot -> valid_line W H line ->
  (exists d g', DotPainter.sample_dot_prior_cpp G W H g = Some (d, g') /\
                valid_dot W H d)
  /\ (exists l g', McmcPainter.sample_line_prior_cpp G W H g = Some (l, g') /\
                   valid_line W H l)
  /\ (exists d g', DotPainter.jitter_dot_cpp G dot W H s_xy s_r s_a s_c g
                   = Some (d, g') /\ valid_dot W H d)
  /\ (exists l g', McmcPainter.jitter_line_cpp G line W H s_xy s_w s_a s_c g
                   = Some (l, g') /\ valid_line W H l)
  /\ (exists d g',
         DotPainter.sample_dot_birth_datadriven_cpp G target canvas H W g
         = Some (d, g') /\ valid_dot W H d)
  /\ (exists l g',
         McmcPainter.sample_line_birth_datadriven_cpp G target canvas H W g
         = Some (l, g') /\ valid_line W H l).
Proof.
  intros HG HW HH Lt Lc Ht Hc Hd Hl.
  split; [now apply sample_dot_prior_valid|].
  split; [now apply sample_line_prior_valid|].
  split; [now apply jitter_dot_valid|].
  split; [now apply jitter_line_valid|].
  split; [|now apply sample_line_birth_valid].
  destruct (sample_dot_birth_valid G target canvas H W g HG HW HH Lt Lc Ht)
    as (d & g' & E & Hv & _).
  eauto.
Qed.

Lemma midpoint_rng_in_support : rng_in_support midpoint_rng.
Proof.
  split; intros; cbn; lra.
Qed.

Lemma samplers_return_valid_primitives_witness :
  let dot := mkDot 1 1 1 0.5 (mkColor 0 0 0) in
  let line := mkLine 1 1 1 1 1 0.5 (mkColor 0 0 0) in
  (exists d g', DotPainter.sample_dot_prior_cpp midpoint_rng 1 1 tt
                = Some (d, g') /\ valid_dot 1 1 d)
  /\ (exists l g', McmcPainter.sample_line_prior_cpp midpoint_rng 1 1 tt
                   = Some (l, g') /\ valid_line 1 1 l)
  /\ (exists d g', DotPainter.jitter_dot_cpp midpoint_rng dot 1 1
                     3 1 0.1 0.08 tt = Some (d, g') /\ valid_dot 1 1 d)
  /\ (exists l g', McmcPainter.jitter_line_cpp midpoint_rng line 1 1
                     3 0.6 0.1 0.08 tt = Some (l, g') /\ valid_line 1 1 l)
  /\ (exists d g',
         DotPainter.sample_dot_birth_datadriven_cpp midpoint_rng
           [1; 0.5; 0] [1; 1; 1] 1 1 tt = Some (d, g') /\ valid_dot 1 1 d)
  /\ (exists l g',
         McmcPainter.sample_line_birth_datadriven_cpp midpoint_rng
           [1; 0.5; 0] [1; 1; 1] 1 1 tt = Some (l, g') /\ valid_line 1 1 l).
Proof.
  intros dot line.
  apply (samplers_return_valid_primitives midpoint_rng 1 1
           [1; 0.5; 0] [1; 1; 1] dot line 3 1 0.6 0.1 0.08 tt).
  - exact midpoint_rng_in_support.
  - lia.
  - lia.
  - reflexivity.
  - reflexivity.
  - samples_in01.
  - samples_in01.
  - unfold valid_dot, valid_color, in01; simpl; lra.
  - unfold valid_line, valid_color, in01; simpl; lra.
Defined.

(** ** The seed pixel in the scenario of §8 *)

Lemma sqrt_2_bounds : 1 < sqrt 2 < 2.
Proof.
  split.
  - rewrite <- sqrt_1 at 1. apply sqrt_lt_1; lra.
  - replace 2 with (sqrt (2 * 2)) at 2 by (apply sqrt_square; lra).
    apply sqrt_lt_1; lra.
Qed.

Lemma red_residual :
  residual_magnitude red_target white_canvas 4 4 = Some (peak (sqrt 2)).
Proof.
  unfold residual_magnitude. run.
  unfold peak.
  repeat match goal with
  | |- context [sqrt ?e] =>
      first [ replace e with 0 by lra; rewrite sqrt_0
            | progress replace e with 2 by lra ]
  end.
  reflexivity.
Qed.

Lemma red_max : max_magnitude (peak (sqrt 2)) 4 4 = Some (sqrt 2).
Proof.
  pose proof sqrt_2_bounds.
  unfold max_magnitude, for_range.
  change (Z.to_nat (4 * 4 - 1 - 0 + 1)) with 16%nat.
  repeat (rewrite for_loop_S;
          cbv -[for_loop IZR Q2R Rplus Rminus Rmult Rdiv Ropp Rinv sqrt
                Rltb Rleb];
          rdecide).
  reflexivity.
Qed.

Lemma red_normalize :
  exists total_weight,
    normalize (peak (sqrt 2)) (sqrt 2) 4 4 = Some (peak 1, total_weight)
    /\ total_weight = 1.
Proof.
  pose proof sqrt_2_bounds.
  unfold normalize. run.
  replace (0 / sqrt 2) with 0 by (unfold Rdiv; ring).
  replace (sqrt 2 / sqrt 2) with 1 by (unfold Rdiv; rewrite Rinv_r; lra).
  eexists. split; [reflexivity | lra].
Qed.

Lemma red_crossing (r : R) :
  0 < r <= 1 -> first_crossing (peak 1) r 4 4 = Some 5%Z.
Proof.
  intros Hr. unfold first_crossing. run. rdecide. reflexivity.
Qed.

(** The threshold 0 is an end point of the interval, which [R::runif]
    does not return; there the running sum 0 of the first pixel already
    satisfies [cumsum >= r]. *)
Lemma red_crossing_at_zero : first_crossing (peak 1) 0 4 4 = Some 0%Z.
Proof.
  unfold first_crossing. run. rdecide. reflexivity.
Qed.

Lemma red_seed (G : Rng) (g : rng_state G) :
  exists idx,
    first_crossing (peak 1) (fst (runif G 0 1 g)) 4 4 = Some idx /\
    sample_seed G red_target white_canvas 4 4 g
    = Some ((IZR (Z.quot idx 4 + 1), IZR (Z.rem idx 4 + 1)),
            snd (runif G 0 1 g)).
Proof.
  pose proof sqrt_2_bounds.
  unfold sample_seed, mbind, lift, draw, ret.
  rewrite red_residual, red_max.
  replace (Rltb (sqrt 2) 1e-6) with false
    by (symmetry; apply Rltb_false; lra).
  destruct red_normalize as [tw [-> ->]].
  destruct (runif G 0 1 g) as [r g'] eqn:Er. cbn [fst snd].
  assert (Hc : exists idx, first_crossing (peak 1) r 4 4 = Some idx).
  { unfold first_crossing. run. (rcases; eauto). }
  destruct Hc as [idx Hc]. exists idx. rewrite Hc. split; reflexivity.
Qed.

Lemma red_seed_value (G : Rng) (g : rng_state G) :
  0 < fst (runif G 0 1 g) <= 1 ->
  sample_seed G red_target white_canvas 4 4 g
  = Some ((2, 2), snd (runif G 0 1 g)).
Proof.
  intros Hr.
  destruct (red_seed G g) as [idx [Hc ->]].
  rewrite red_crossing in Hc by exact Hr.
  inversion Hc. reflexivity.
Qed.

(** The dot born in the scenario is centred on that seed. *)
Lemma dot_birth_at_the_red_pixel (G : Rng) (g : rng_state G) :
  rng_in_support G -> 0 < fst (runif G 0 1 g) <= 1 ->
  exists d g',
    DotPainter.sample_dot_birth_datadriven_cpp G red_target white_canvas 4 4 g
    = Some (d, g') /\ dot_x d = 2 /\ dot_y d = 2.
Proof.
  intros HG Hr.
  destruct (sample_dot_birth_valid G red_target white_canvas 4 4 g HG)
    as (d & g' & E & _ & g1 & Es); try lia; try reflexivity.
  { unfold red_target. samples_in01. }
  rewrite red_seed_value in Es by exact Hr.
  inversion Es. exists d, g'. auto.
Qed.

(** C9.  In the scenario of §8 the only non-zero weight is the one of
    pixel (2,2) and the total weight is 1.  [R::runif(0, total_weight)]
    returns neither end point of its interval; for every generator whose
    uniform draws exclude the lower one, the first-crossing loop stops at
    pixel (2,2), which is the seed both birth samplers compute. *)
Theorem birth_seed_is_the_red_pixel (G : Rng) (g : rng_state G) :
  (forall a b g, a < b -> a < fst (runif G a b g) <= b) ->
  first_crossing (peak 1) (fst (runif G 0 1 g)) 4 4 = Some 5%Z
  /\ sample_seed G red_target white_canvas 4 4 g
     = Some ((2, 2), snd (runif G 0 1 g)).
Proof.
  intros Hu.
  assert (Hr : 0 < fst (runif G 0 1 g) <= 1) by (apply Hu; lra).
  split.
  - now apply red_crossing.
  - now apply red_seed_value.
Qed.

Lemma birth_seed_is_the_red_pixel_witness :
  first_crossing (peak 1) (fst (runif midpoint_rng 0 1 tt)) 4 4 = Some 5%Z
  /\ sample_seed midpoint_rng red_target white_canvas 4 4 tt
     = Some ((2, 2), snd (runif midpoint_rng 0 1 tt)).
Proof.
  apply (birth_seed_is_the_red_pixel midpoint_rng tt).
  intros a b g Hab. cbn. lra.
Defined.

(** * Further properties of the code *)

(** ** The objective of the line painter *)

(** X1.  On a rectangle within the canvas [sse_bbox_cpp] returns a value,
    the value is not negative, and it is 0 exactly when target and canvas
    agree on every sample of the rectangle. *)
Theorem sse_bbox_cpp_value (target canvas : NumericVector) (H W : Z)
        (xmin xmax ymin ymax : Z) :
  len target = (H * W * 3)%Z -> len canvas = (H * W * 3)%Z ->
  rect_in_canvas H W xmin xmax ymin ymax ->
  exists v,
    McmcPainter.sse_bbox_cpp target canvas H W xmin xmax ymin ymax = Some v /\
    0 <= v /\
    (v = 0 <->
     forall y x c, in_rect xmin xmax ymin ymax x y -> (0 <= c <= 2)%Z ->
                   sample target H W y x c = sample canvas H W y x c).
Proof.
  intros Lt Lc Hr. eexists. split; [now apply sse_bbox_cpp_exact|].
  split; [apply rect_sse_nonneg | apply rect_sse_zero_iff].
Qed.

Lemma sse_bbox_cpp_value_witness :
  exists v,
    McmcPainter.sse_bbox_cpp red_target white_canvas 4 4 1 4 1 4 = Some v /\
    0 <= v /\
    (v = 0 <->
     forall y x c, in_rect 1 4 1 4 x y -> (0 <= c <= 2)%Z ->
                   sample red_target 4 4 y x c = sample white_canvas 4 4 y x c).
Proof.
  apply (sse_bbox_cpp_value red_target white_canvas 4 4 1 4 1 4);
    [reflexivity | reflexivity | unfold rect_in_canvas; lia].
Defined.

(** X2.  The objective is additive: cutting a rectangle of the canvas
    between two columns, or between two rows, gives two rectangles whose
    values add up to the value of the whole. *)
Theorem sse_bbox_cpp_cut (target canvas : NumericVector) (H W : Z)
        (xmin xmid xmax ymin ymid ymax : Z) :
  len target = (H * W * 3)%Z -> len canvas = (H * W * 3)%Z ->
  rect_in_canvas H W xmin xmax ymin ymax ->
  (xmin - 1 <= xmid <= xmax)%Z -> (ymin - 1 <= ymid <= ymax)%Z ->
  exists whole left right top bottom,
    McmcPainter.sse_bbox_cpp target canvas H W xmin xmax ymin ymax
      = Some whole /\
    McmcPainter.sse_bbox_cpp target canvas H W xmin xmid ymin ymax
      = Some left /\
    McmcPainter.sse_bbox_cpp target canvas H W (xmid + 1) xmax ymin ymax
      = Some right /\
    McmcPainter.sse_bbox_cpp target canvas H W xmin xmax ymin ymid
      = Some top /\
    McmcPainter.sse_bbox_cpp target canvas H W xmin xmax (ymid + 1) ymax
      = Some bottom /\
    whole = left + right /\ whole = top + bottom.
Proof.
  intros Lt Lc (Hx1 & Hx2 & Hy1 & Hy2) Hxm Hym.
  exists (rect_sse target canvas H W xmin xmax ymin ymax),
    (rect_sse target canvas H W xmin xmid ymin ymax),
    (rect_sse target canvas H W (xmid + 1) xmax ymin ymax),
    (rect_sse target canvas H W xmin xmax ymin ymid),
    (rect_sse target canvas H W xmin xmax (ymid + 1) ymax).
  repeat split; try (apply sse_bbox_cpp_exact; auto; unfold rect_in_canvas; lia).
  - now apply rect_sse_split_columns.
  - now apply rect_sse_split_rows.
Qed.

Lemma sse_bbox_cpp_cut_witness :
  exists whole left right top bottom,
    McmcPainter.sse_bbox_cpp red_target white_canvas 4 4 1 4 1 4
      = Some whole /\
    McmcPainter.sse_bbox_cpp red_target white_canvas 4 4 1 2 1 4
      = Some left /\
    McmcPainter.sse_bbox_cpp red_target white_canvas 4 4 (2 + 1) 4 1 4
      = Some right /\
    McmcPainter.sse_bbox_cpp red_target white_canvas 4 4 1 4 1 2
      = Some top /\
    McmcPainter.sse_bbox_cpp red_target white_canvas 4 4 1 4 (2 + 1) 4
      = Some bottom /\
    whole = left + right /\ whole = top + bottom.
Proof.
  apply (sse_bbox_cpp_cut red_target white_canvas 4 4 1 2 4 1 2 4);
    [reflexivity | reflexivity | unfold rect_in_canvas; lia | lia | lia].
Defined.

(** X3.  An empty rectangle ([xmax < xmin] or [ymax < ymin]) has the
    value 0, wherever it lies and whatever the buffers hold: no sample is
    read. *)
Theorem sse_bbox_cpp_empty (target canvas : NumericVector) (H W : Z)
        (xmin xmax ymin ymax : Z) :
  (xmax < xmin \/ ymax < ymin)%Z ->
  McmcPainter.sse_bbox_cpp target canvas H W xmin xmax ymin ymax = Some 0.
Proof.
  intros [Hx | Hy]; unfold McmcPainter.sse_bbox_cpp.
  - rewrite (for_range_sum _ (fun _ => 0)).
    + f_equal. assert (E : sum_range ymin ymax (fun _ => 0) = 0).
      { apply sum_range_zero; [intros; lra | reflexivity]. }
      rewrite E. lra.
    + intros y a _. rewrite for_range_empty by lia. f_equal. lra.
  - now rewrite for_range_empty by lia.
Qed.

Lemma sse_bbox_cpp_empty_witness :
  McmcPainter.sse_bbox_cpp [] [] 4 4 9 8 1 4 = Some 0.
Proof.
  apply (sse_bbox_cpp_empty [] [] 4 4 9 8 1 4). left. lia.
Defined.

(** A loop faults as soon as one of its iterations does, under an
    invariant that the earlier iterations keep. *)
Lemma for_loop_fault {St : Type} (P : St -> Prop)
      (body : Z -> St -> option St) (n : nat) (i j : Z) (s : St) :
  P s ->
  (forall k t t', P t -> body k t = Some t' -> P t') ->
  (i <= j < i + Z.of_nat n)%Z ->
  (forall t, P t -> body j t = None) ->
  for_loop n i body s = None.
Proof.
  intros Hs Hpres Hj Hfault. revert i s Hs Hj.
  induction n as [|n IH]; intros i s Hs Hj; [lia|].
  rewrite for_loop_S.
  destruct (Z.eq_dec i j) as [->|Hne].
  - now rewrite Hfault.
  - destruct (body i s) as [t|] eqn:E; [|reflexivity].
    cbn [obind]. apply IH; [eapply Hpres; eauto | lia].
Qed.

Lemma for_range_fault {St : Type} (P : St -> Prop)
      (body : Z -> St -> option St) (lo hi j : Z) (s : St) :
  P s ->
  (forall k t t', P t -> body k t = Some t' -> P t') ->
  (lo <= j <= hi)%Z ->
  (forall t, P t -> body j t = None) ->
  for_range lo hi body s = None.
Proof.
  intros Hs Hpres Hj Hfault. unfold for_range.
  apply (for_loop_fault P body _ lo j); auto. lia.
Qed.

(** X4.  [sse_bbox_cpp] checks no bound: it returns a (non-negative)
    value when every sample index of the rectangle lies in both buffers,
    and it reads outside a buffer as soon as one index of the rectangle
    lies outside one of them. *)
Theorem sse_bbox_cpp_returns_iff_in_bounds (target canvas : NumericVector)
        (H W : Z) (xmin xmax ymin ymax : Z) :
  ((forall y x c, in_rect xmin xmax ymin ymax x y -> (0 <= c <= 2)%Z ->
      (0 <= McmcPainter.idx3 y x c H W < len target)%Z /\
      (McmcPainter.idx3 y x c H W < len canvas)%Z) ->
   exists v, McmcPainter.sse_bbox_cpp target canvas H W xmin xmax ymin ymax
             = Some v /\ 0 <= v)
  /\ ((exists y x c, in_rect xmin xmax ymin ymax x y /\ (0 <= c <= 2)%Z /\
         (McmcPainter.idx3 y x c H W < 0 \/
          len target <= McmcPainter.idx3 y x c H W \/
          len canvas <= McmcPainter.idx3 y x c H W)%Z) ->
      McmcPainter.sse_bbox_cpp target canvas H W xmin xmax ymin ymax = None).
Proof.
  unfold McmcPainter.sse_bbox_cpp. split.
  - intros Hin.
    apply (for_range_inv (fun a => 0 <= a)); [lra|].
    intros y a Hy Ha. apply (for_range_inv (fun a => 0 <= a)); [exact Ha|].
    intros x b Hx Hb. cbv zeta.
    destruct (Hin y x 0%Z) as [Ht0 Hc0]; [split; assumption | lia |].
    destruct (Hin y x 1%Z) as [Ht1 Hc1]; [split; assumption | lia |].
    destruct (Hin y x 2%Z) as [Ht2 Hc2]; [split; assumption | lia |].
    destruct (vget_Some target (McmcPainter.idx3 y x 0 H W)) as [t0 ->]; [lia|].
    destruct (vget_Some canvas (McmcPainter.idx3 y x 0 H W)) as [c0 ->]; [lia|].
    destruct (vget_Some target (McmcPainter.idx3 y x 1 H W)) as [t1 ->]; [lia|].
    destruct (vget_Some canvas (McmcPainter.idx3 y x 1 H W)) as [c1 ->]; [lia|].
    destruct (vget_Some target (McmcPainter.idx3 y x 2 H W)) as [t2 ->]; [lia|].
    destruct (vget_Some canvas (McmcPainter.idx3 y x 2 H W)) as [c2 ->]; [lia|].
    cbn [obind]. eexists. split; [reflexivity|].
    pose proof (sq_nonneg (t0 - c0)). pose proof (sq_nonneg (t1 - c1)).
    pose proof (sq_nonneg (t2 - c2)). lra.
  - intros (y & x & c & [Hx Hy] & Hc & Hout).
    apply (for_range_fault (fun _ => True) _ ymin ymax y); auto.
    intros a _.
    apply (for_range_fault (fun _ => True) _ xmin xmax x); auto.
    intros b _. cbv zeta.
    destruct (vget target (McmcPainter.idx3 y x 0 H W)) as [t0|] eqn:Et0;
      [|reflexivity].
    destruct (vget canvas (McmcPainter.idx3 y x 0 H W)) as [c0|] eqn:Ec0;
      [|reflexivity].
    destruct (vget target (McmcPainter.idx3 y x 1 H W)) as [t1|] eqn:Et1;
      [|reflexivity].
    destruct (vget canvas (McmcPainter.idx3 y x 1 H W)) as [c1|] eqn:Ec1;
      [|reflexivity].
    destruct (vget target (McmcPainter.idx3 y x 2 H W)) as [t2|] eqn:Et2;
      [|reflexivity].
    destruct (vget canvas (McmcPainter.idx3 y x 2 H W)) as [c2|] eqn:Ec2;
      [|reflexivity].
    exfalso.
    apply vget_inv in Et0, Ec0, Et1, Ec1, Et2, Ec2.
    assert (Ec : c = 0%Z \/ c = 1%Z \/ c = 2%Z) by lia.
    destruct Ec as [-> | [-> | ->]]; lia.
Qed.

Lemma sse_bbox_cpp_returns_iff_in_bounds_witness :
  (exists v, McmcPainter.sse_bbox_cpp [0; 0; 0] [1; 1; 1] 1 1 1 1 1 1
             = Some v /\ 0 <= v)
  /\ McmcPainter.sse_bbox_cpp [0; 0; 0] [1; 1; 1] 1 1 2 2 1 1 = None.
Proof.
  split.
  - apply (proj1 (sse_bbox_cpp_returns_iff_in_bounds
                    [0; 0; 0] [1; 1; 1] 1 1 1 1 1 1)).
    intros y x c Hr Hc. unfold in_rect in Hr.
    unfold McmcPainter.idx3, len. simpl. lia.
  - apply (proj2 (sse_bbox_cpp_returns_iff_in_bounds
                    [0; 0; 0] [1; 1; 1] 1 1 2 2 1 1)).
    exists 1%Z, 2%Z, 2%Z. unfold in_rect, McmcPainter.idx3, len. simpl. lia.
Defined.

(** ** The objective of the dot painter *)

Lemma sse_dots_pixel (target canvas : NumericVector) (H W y x : Z)
      (P : R -> Prop) (acc : R) :
  P acc ->
  (forall a t v idx, P a -> vget target idx = Some t ->
                     vget canvas idx = Some v -> P (a + (t - v) * (t - v))) ->
  exists acc',
    for_range 0 2 (fun c sse =>
      let idx := DotPainter.idx3 (y - 1) (x - 1) c H W in
      if ((idx <? 0) || (len target <=? idx) || (len canvas <=? idx))%Z
      then Some sse
      else t <- vget target idx ;; v <- vget canvas idx ;;
           let diff := t - v in Some (sse + diff * diff)) acc = Some acc' /\
    P acc'.
Proof.
  intros HP Hstep. apply for_range_inv; auto.
  intros c a _ Pa. cbv zeta.
  destruct ((DotPainter.idx3 (y - 1) (x - 1) c H W <? 0)
            || (len target <=? DotPainter.idx3 (y - 1) (x - 1) c H W)
            || (len canvas <=? DotPainter.idx3 (y - 1) (x - 1) c H W))%Z eqn:Eb;
    [eauto|].
  repeat rewrite orb_false_iff in Eb. destruct Eb as [[E1 E2] E3].
  apply Z.ltb_ge in E1. apply Z.leb_gt in E2. apply Z.leb_gt in E3.
  destruct (vget_Some target (DotPainter.idx3 (y - 1) (x - 1) c H W))
    as [t Et]; [lia|].
  destruct (vget_Some canvas (DotPainter.idx3 (y - 1) (x - 1) c H W))
    as [v Ev]; [lia|].
  rewrite Et, Ev. cbn [obind]. eexists. split; [reflexivity|]. eauto.
Qed.

Lemma sse_dots_inv (target canvas : NumericVector) (H W : Z)
      (xmin xmax ymin ymax : Z) (P : R -> Prop) :
  P 0 ->
  (forall a t v idx, P a -> vget target idx = Some t ->
                     vget canvas idx = Some v -> P (a + (t - v) * (t - v))) ->
  exists sse,
    DotPainter.sse_bbox_dots_cpp target canvas H W xmin xmax ymin ymax
    = Some sse /\ P sse.
Proof.
  intros H0 Hstep. unfold DotPainter.sse_bbox_dots_cpp.
  apply for_range_inv; auto.
  intros y a _ Pa. cbv zeta. apply for_range_inv; auto.
  intros x b _ Pb.
  destruct ((y - 1 <? 0) || (H <=? y - 1) || (x - 1 <? 0) || (W <=? x - 1))%Z;
    [eauto|].
  now apply sse_dots_pixel.
Qed.

(** X5.  [sse_bbox_dots_cpp] guards every index: for all buffers, sizes
    and rectangles it returns a value, the value is not negative, and a
    canvas scored against itself has the value 0. *)
Theorem sse_bbox_dots_cpp_nonneg_and_zero (target canvas : NumericVector)
        (H W : Z) (xmin xmax ymin ymax : Z) :
  (exists sse,
      DotPainter.sse_bbox_dots_cpp target canvas H W xmin xmax ymin ymax
      = Some sse /\ 0 <= sse)
  /\ DotPainter.sse_bbox_dots_cpp target target H W xmin xmax ymin ymax
     = Some 0.
Proof.
  split.
  - apply (sse_dots_inv target canvas H W xmin xmax ymin ymax (fun a => 0 <= a));
      [lra|].
    intros a t v idx Ha _ _. pose proof (sq_nonneg (t - v)). lra.
  - destruct (sse_dots_inv target target H W xmin xmax ymin ymax (fun a => a = 0))
      as [sse [E ->]]; auto.
    intros a t v idx -> Et Ev. assert (t = v) by congruence. subst. lra.
Qed.

Lemma sum_from_shift (n : nat) (i : Z) (f : Z -> R) :
  sum_from n i (fun j => f (j - 1)%Z) = sum_from n (i - 1) f.
Proof.
  revert i. induction n as [|n IH]; intros i; cbn [sum_from]; auto.
  rewrite IH. replace (i + 1 - 1)%Z with (i - 1 + 1)%Z by lia. reflexivity.
Qed.

Lemma sum_range_shift (lo hi : Z) (f : Z -> R) :
  sum_range lo hi (fun j => f (j - 1)%Z) = sum_range (lo - 1) (hi - 1) f.
Proof.
  unfold sum_range. rewrite sum_from_shift.
  replace (hi - 1 - (lo - 1) + 1)%Z with (hi - lo + 1)%Z by lia. reflexivity.
Qed.

Lemma dot_idx3_sample_index (y x c H W : Z) :
  DotPainter.idx3 y x c H W = sample_index H W y x c.
Proof. reflexivity. Qed.

(** X6.  [sse_bbox_dots_cpp] passes the 0-based [y_idx], [x_idx] to
    [idx3], which subtracts 1 again: on a rectangle of the canvas that
    starts at column 2 and row 2 or later, the value it returns is the sum
    of squared error of the rectangle moved one column left and one row
    up. *)
Theorem sse_bbox_dots_cpp_shifted (target canvas : NumericVector) (H W : Z)
        (xmin xmax ymin ymax : Z) :
  len target = (H * W * 3)%Z -> len canvas = (H * W * 3)%Z ->
  (2 <= xmin)%Z -> (xmax <= W)%Z -> (2 <= ymin)%Z -> (ymax <= H)%Z ->
  DotPainter.sse_bbox_dots_cpp target canvas H W xmin xmax ymin ymax
  = Some (rect_sse target canvas H W (xmin - 1) (xmax - 1) (ymin - 1) (ymax - 1)).
Proof.
  intros Lt Lc Hx1 Hx2 Hy1 Hy2.
  unfold DotPainter.sse_bbox_dots_cpp, rect_sse.
  rewrite (for_range_sum _ (fun y =>
             sum_range xmin xmax (fun x =>
               pixel_sse target canvas H W (y - 1) (x - 1)))).
  - f_equal. rewrite (sum_range_shift ymin ymax
      (fun y => sum_range xmin xmax (fun x => pixel_sse target canvas H W y (x - 1)))).
    rewrite Rplus_0_l. apply sum_range_ext. intros y _.
    apply (sum_range_shift xmin xmax (fun x => pixel_sse target canvas H W y x)).
  - intros y a Hy. cbv zeta.
    apply for_range_sum. intros x b Hx.
    destruct (Z.ltb_spec (y - 1) 0); try lia.
    destruct (Z.leb_spec H (y - 1)); try lia.
    destruct (Z.ltb_spec (x - 1) 0); try lia.
    destruct (Z.leb_spec W (x - 1)); try lia.
    cbn [orb]. unfold pixel_sse.
    apply for_range_sum. intros c d Hc. cbv zeta.
    rewrite dot_idx3_sample_index.
    pose proof (sample_index_bounds H W (y - 1) (x - 1) c
                  ltac:(lia) ltac:(lia) Hc) as B.
    destruct (Z.ltb_spec (sample_index H W (y - 1) (x - 1) c) 0); try lia.
    destruct (Z.leb_spec (len target) (sample_index H W (y - 1) (x - 1) c));
      try lia.
    destruct (Z.leb_spec (len canvas) (sample_index H W (y - 1) (x - 1) c));
      try lia.
    cbn [orb]. rewrite !vget_sample by lia. reflexivity.
Qed.

Lemma sse_bbox_dots_cpp_shifted_witness :
  DotPainter.sse_bbox_dots_cpp red_target white_canvas 4 4 2 4 2 4
  = Some (rect_sse red_target white_canvas 4 4 (2 - 1) (4 - 1) (2 - 1) (4 - 1)).
Proof.
  apply (sse_bbox_dots_cpp_shifted red_target white_canvas 4 4 2 4 2 4);
    reflexivity || lia.
Defined.

(** ** Loops that cannot fault *)

(** What one pixel of [composite_line_bbox_cpp] does: it never faults,
    keeps the length, and leaves the buffer alone when alpha is not
    positive or the pixel is not on the canvas. *)
Lemma composite_line_pixel_total (H W : Z) (x1 y1 x2 y2 w alpha : R)
      (col : Color) (y x : Z) (canvas : NumericVector) :
  exists canvas',
    McmcPainter.composite_line_pixel H W x1 y1 x2 y2 w alpha col y x canvas
    = Some canvas' /\
    len canvas' = len canvas /\
    (alpha <= 0 \/ ~ in_canvas H W x y -> canvas' = canvas).
Proof.
  unfold McmcPainter.composite_line_pixel. cbv zeta.
  destruct ((y - 1 <? 0) || (H <=? y - 1) || (x - 1 <? 0) || (W <=? x - 1))%Z
    eqn:Eb; [exists canvas; auto|].
  repeat rewrite orb_false_iff in Eb. destruct Eb as [[[B1 B2] B3] B4].
  apply Z.ltb_ge in B1, B3. apply Z.leb_gt in B2, B4.
  destruct (Rleb (McmcPainter.line_coverage w
                    (McmcPainter.line_d2 x1 y1 x2 y2 (IZR x - 0.5) (IZR y - 0.5)))
                 0 || Rleb alpha 0) eqn:Ec;
    [exists canvas; auto|].
  apply orb_false_iff in Ec. destruct Ec as [_ Ea]. apply Rleb_false in Ea.
  set (i0 := McmcPainter.idx3 (y - 1) (x - 1) 0 H W).
  set (i1 := McmcPainter.idx3 (y - 1) (x - 1) 1 H W).
  set (i2 := McmcPainter.idx3 (y - 1) (x - 1) 2 H W).
  destruct ((i0 <? 0) || (len canvas <=? i0) || (i1 <? 0) ||
            (len canvas <=? i1) || (i2 <? 0) || (len canvas <=? i2))%Z eqn:Ei;
    [exists canvas; auto|].
  repeat rewrite orb_false_iff in Ei.
  repeat match goal with
         | H : _ /\ _ |- _ => destruct H
         | H : (_ <? _)%Z = false |- _ => apply Z.ltb_ge in H
         | H : (_ <=? _)%Z = false |- _ => apply Z.leb_gt in H
         end.
  destruct (vget_Some canvas i0) as [inR ER]; [lia|].
  destruct (vget_Some canvas i1) as [inG EG]; [lia|].
  destruct (vget_Some canvas i2) as [inB EB]; [lia|].
  rewrite ER, EG, EB. cbn [obind].
  rewrite vset_Some by lia. cbn [obind].
  rewrite vset_Some by (rewrite len_upd; lia). cbn [obind].
  rewrite vset_Some by (rewrite !len_upd; lia).
  eexists. split; [reflexivity|]. split; [now rewrite !len_upd|].
  intros [Hal | Hout]; [lra|]. exfalso. apply Hout. unfold in_canvas. lia.
Qed.

Lemma dot_pixel_total (H W : Z) (x y radius alpha : R) (col : Color)
      (y0 x0 : Z) (canvas : NumericVector) :
  exists canvas',
    DotPainter.dot_pixel H W x y radius alpha col y0 x0 canvas = Some canvas' /\
    len canvas' = len canvas /\
    (alpha <= 0 \/ ~ in_canvas H W x0 y0 -> canvas' = canvas).
Proof.
  destruct (dot_pixel_cases H W x y radius alpha col y0 x0 canvas)
    as [E | (a & inR & inG & inB & Hc)].
  - exists canvas. auto.
  - cbv zeta in Hc.
    destruct Hc as (Hy & Hx & _ & _ & _ & _ & _ & Ha & _ & _ & _ & E).
    eexists. split; [exact E|]. split; [now rewrite !len_upd|].
    intros [Hal | Hout]; [lra|]. exfalso. apply Hout. unfold in_canvas. lia.
Qed.

Lemma dot_clear_pixel_len (H W y x : Z) (canvas : NumericVector) :
  exists out, DotPainter.clear_pixel H W y x canvas = Some out /\
              len out = len canvas.
Proof.
  unfold DotPainter.clear_pixel. cbv zeta.
  destruct ((y - 1 <? 0) || (H <=? y - 1) || (x - 1 <? 0) || (W <=? x - 1))%Z;
    [eauto|].
  set (i0 := DotPainter.idx3 (y - 1) (x - 1) 0 H W).
  set (i1 := DotPainter.idx3 (y - 1) (x - 1) 1 H W).
  set (i2 := DotPainter.idx3 (y - 1) (x - 1) 2 H W).
  destruct ((i0 <? 0) || (len canvas <=? i0) || (i1 <? 0) ||
            (len canvas <=? i1) || (i2 <? 0) || (len canvas <=? i2))%Z eqn:Ei;
    [eauto|].
  repeat rewrite orb_false_iff in Ei.
  repeat match goal with
         | H : _ /\ _ |- _ => destruct H
         | H : (_ <? _)%Z = false |- _ => apply Z.ltb_ge in H
         | H : (_ <=? _)%Z = false |- _ => apply Z.leb_gt in H
         end.
  rewrite vset_Some by lia. cbn [obind].
  rewrite vset_Some by (rewrite ?len_upd; lia). cbn [obind].
  rewrite vset_Some by (rewrite ?len_upd; lia).
  eexists. split; [reflexivity|]. now rewrite !len_upd.
Qed.

(** X7.  The loops that test every index before they use it never fault:
    for all buffers, canvas sizes, rectangles and primitives,
    [composite_dot_bbox_cpp], [composite_line_bbox_cpp],
    [re_render_bbox_from_dots_cpp] and [render_full_canvas_from_dots_cpp]
    return a buffer, and it has the length of the one they were given. *)
Theorem guarded_loops_total (canvas : NumericVector) (H W : Z)
      (x y radius alpha : R) (col : Color)
      (x1 y1 x2 y2 w : R) (dots : list Dot) (xmin xmax ymin ymax : Z) :
  (exists out,
      DotPainter.composite_dot_bbox_cpp canvas H W x y radius alpha col
        xmin xmax ymin ymax = Some out /\ len out = len canvas)
  /\ (exists out,
         McmcPainter.composite_line_bbox_cpp canvas H W x1 y1 x2 y2 w alpha col
           xmin xmax ymin ymax = Some out /\ len out = len canvas)
  /\ (exists out,
         DotPainter.re_render_bbox_from_dots_cpp canvas dots H W
           xmin xmax ymin ymax = Some out /\ len out = len canvas)
  /\ (exists out,
         DotPainter.render_full_canvas_from_dots_cpp canvas dots H W
         = Some out /\ len out = len canvas).
Proof.
  repeat split.
  - apply (dot_rect_inv (fun c => len c = len canvas)); auto.
    intros y0 x0 c c' _ _ Hc E. apply dot_pixel_len in E. congruence.
  - unfold McmcPainter.composite_line_bbox_cpp.
    apply (for_range_inv (fun c => len c = len canvas)); auto.
    intros yy c _ Hc. apply (for_range_inv (fun c => len c = len canvas)); auto.
    intros xx c' _ Hc'.
    destruct (composite_line_pixel_total H W x1 y1 x2 y2 w alpha col yy xx c')
      as (c2 & E & L & _).
    exists c2. split; auto. congruence.
  - unfold DotPainter.re_render_bbox_from_dots_cpp.
    destruct (for_range_inv (fun c => len c = len canvas)
                (fun y canvas => for_range xmin xmax (fun x canvas =>
                   DotPainter.clear_pixel H W y x canvas) canvas)
                ymin ymax canvas eq_refl) as [c0 [E0 L0]].
    { intros yy c _ Hc. apply (for_range_inv (fun c => len c = len canvas)); auto.
      intros xx c' _ Hc'.
      destruct (dot_clear_pixel_len H W yy xx c') as (c2 & E & L).
      exists c2. split; auto. congruence. }
    unfold DotPainter.clear_rect. rewrite E0. cbn [obind].
    apply (for_each_inv (fun c => len c = len canvas)); auto.
    intros d c _ Hc. unfold DotPainter.re_render_dot. cbv zeta.
    destruct (Rltb _ _ || Rltb _ _ || Rltb _ _ || Rltb _ _); [eauto|].
    apply (dot_rect_inv (fun c' => len c' = len canvas)); auto.
    intros y0 x0 ca cb _ _ Ha E. apply dot_pixel_len in E. congruence.
  - unfold DotPainter.render_full_canvas_from_dots_cpp.
    rewrite fill_white. cbn [obind].
    destruct (render_dots_total H W dots (repeat 1 (length canvas)))
      as (out & E & L).
    exists out. split; auto. rewrite L. unfold len. now rewrite repeat_length.
Qed.

(** X8.  Compositing a primitive whose alpha is not positive, or over a
    rectangle that has no pixel on the canvas, returns the canvas it was
    given, sample for sample. *)
Theorem compositing_no_op (canvas : NumericVector) (H W : Z)
      (x y radius alpha : R) (col : Color)
      (x1 y1 x2 y2 w : R) (xmin xmax ymin ymax : Z) :
  alpha <= 0 \/ (xmax < 1 \/ W < xmin \/ ymax < 1 \/ H < ymin)%Z ->
  DotPainter.composite_dot_bbox_cpp canvas H W x y radius alpha col
    xmin xmax ymin ymax = Some canvas
  /\ McmcPainter.composite_line_bbox_cpp canvas H W x1 y1 x2 y2 w alpha col
       xmin xmax ymin ymax = Some canvas.
Proof.
  intros Hno.
  assert (Hpix : forall yy xx, (ymin <= yy <= ymax)%Z -> (xmin <= xx <= xmax)%Z ->
                   alpha <= 0 \/ ~ in_canvas H W xx yy).
  { intros yy xx Hy Hx. destruct Hno as [Ha | Hout]; [now left|].
    right. unfold in_canvas. lia. }
  split.
  - destruct (dot_rect_inv (fun c => c = canvas) H W x y radius alpha col
                xmin xmax ymin ymax canvas eq_refl) as [out [E ->]]; auto.
    intros y0 x0 c c' Hy Hx -> E.
    destruct (dot_pixel_total H W x y radius alpha col y0 x0 canvas)
      as (c2 & E2 & _ & Hsame).
    rewrite E in E2. inversion E2. subst. apply Hsame. auto.
  - unfold McmcPainter.composite_line_bbox_cpp.
    destruct (for_range_inv (fun c => c = canvas)
                (fun yy canvas => for_range xmin xmax (fun xx canvas =>
                   McmcPainter.composite_line_pixel H W x1 y1 x2 y2 w alpha col
                     yy xx canvas) canvas)
                ymin ymax canvas eq_refl) as [out [E ->]]; auto.
    intros yy c Hy ->. apply (for_range_inv (fun c => c = canvas)); auto.
    intros xx c Hx ->.
    destruct (composite_line_pixel_total H W x1 y1 x2 y2 w alpha col yy xx canvas)
      as (c2 & E2 & _ & Hsame).
    exists c2. split; auto.
Qed.

Lemma compositing_no_op_witness :
  DotPainter.composite_dot_bbox_cpp [0; 0; 0] 1 1 0.5 0.5 1 0 (mkColor 1 1 1)
    1 1 1 1 = Some [0; 0; 0]
  /\ McmcPainter.composite_line_bbox_cpp [0; 0; 0] 1 1 0 0 1 1 1 0
       (mkColor 1 1 1) 1 1 1 1 = Some [0; 0; 0].
Proof.
  apply (compositing_no_op [0; 0; 0] 1 1 0.5 0.5 1 0 (mkColor 1 1 1)
           0 0 1 1 1 1 1 1 1).
  left. lra.
Defined.

(** ** The loops of the line painter *)

(** X9.  The full render of a line list never faults, whatever the
    lines: its loops are clipped to the canvas it allocates, and it
    returns [H*W*3] samples. *)
Theorem render_full_canvas_cpp_total (lines : list Line) (H W : Z) :
  (0 <= H)%Z -> (0 <= W)%Z ->
  exists out, McmcPainter.render_full_canvas_cpp lines H W = Some out /\
              len out = (H * W * 3)%Z.
Proof.
  intros HH HW. unfold McmcPainter.render_full_canvas_cpp. cbv zeta.
  apply (for_each_inv (fun c => len c = (H * W * 3)%Z)).
  - unfold len. rewrite repeat_length. nia.
  - intros l c _ Lc. unfold McmcPainter.render_line. cbv zeta.
    match goal with
    | |- exists t', McmcPainter.line_rect H W l ?a ?b ?c0 ?d c = Some t' /\ _ =>
        destruct (line_rect_spec H W l a b c0 d c) as (out & E & Lo & _);
        [unfold rect_in_canvas; lia | exact Lc | eauto]
    end.
Qed.

Lemma render_full_canvas_cpp_total_witness :
  exists out, McmcPainter.render_full_canvas_cpp [thin_line] 2 2 = Some out /\
              len out = (2 * 2 * 3)%Z.
Proof.
  apply (render_full_canvas_cpp_total [thin_line] 2 2); lia.
Defined.

(** One line of the incremental re-render, whatever its width: every
    sample outside the rectangle is kept. *)
Lemma re_render_line_frame (H W : Z) (xmin xmax ymin ymax : Z) (l : Line)
      (canvas : NumericVector) :
  rect_in_canvas H W xmin xmax ymin ymax ->
  len canvas = (H * W * 3)%Z ->
  exists out,
    McmcPainter.re_render_line H W xmin xmax ymin ymax l canvas = Some out /\
    len out = (H * W * 3)%Z /\
    forall y x c, in_canvas H W x y -> ~ in_rect xmin xmax ymin ymax x y ->
                  (0 <= c <= 2)%Z ->
                  sample out H W y x c = sample canvas H W y x c.
Proof.
  intros Hr L. unfold McmcPainter.re_render_line. cbv zeta.
  destruct (negb _); [|exists canvas; auto].
  destruct Hr as (Hx1 & Hx2 & Hy1 & Hy2).
  match goal with
  | |- exists t', McmcPainter.line_rect H W l ?a ?b ?c0 ?d canvas = Some t' /\ _ =>
      destruct (line_rect_spec H W l a b c0 d canvas) as (out & E & Lo & Ho);
      [unfold rect_in_canvas; lia | exact L |];
      exists out; split; [exact E|]; split; [exact Lo|];
      intros y x c Hin Hout Hc; rewrite Ho by auto;
      destruct (in_rectb a b c0 d x y) eqn:Eb; auto
  end.
  apply in_rectb_spec in Eb. exfalso. apply Hout. unfold in_rect in *. lia.
Qed.

(** X10.  The frame property of the incremental re-render of lines holds
    for lines of any width, alpha and colour: on a rectangle within the
    canvas it returns a buffer, and every sample of a pixel outside the
    rectangle is the one of the base canvas. *)
Theorem re_render_lines_frame (base_canvas : NumericVector) (lines : list Line)
      (xmin xmax ymin ymax H W : Z) :
  rect_in_canvas H W xmin xmax ymin ymax ->
  len base_canvas = (H * W * 3)%Z ->
  exists out,
    McmcPainter.re_render_bbox_from_lines_cpp base_canvas lines
      xmin xmax ymin ymax H W = Some out /\
    len out = (H * W * 3)%Z /\
    forall y x c, in_canvas H W x y -> ~ in_rect xmin xmax ymin ymax x y ->
                  (0 <= c <= 2)%Z ->
                  sample out H W y x c = sample base_canvas H W y x c.
Proof.
  intros Hr L. unfold McmcPainter.re_render_bbox_from_lines_cpp. cbv zeta.
  destruct (clear_rect_spec H W xmin xmax ymin ymax base_canvas Hr L)
    as (c0 & E0 & L0 & H0).
  rewrite E0. cbn [obind].
  destruct (for_each_inv
              (fun c => len c = (H * W * 3)%Z /\
                 forall y x ch, in_canvas H W x y ->
                   ~ in_rect xmin xmax ymin ymax x y -> (0 <= ch <= 2)%Z ->
                   sample c H W y x ch = sample base_canvas H W y x ch)
              (McmcPainter.re_render_line H W xmin xmax ymin ymax) lines c0)
    as (out & E & Lo & Ho).
  - split; auto. intros y x ch Hin Hout Hc. rewrite H0 by auto.
    destruct (in_rectb xmin xmax ymin ymax x y) eqn:Eb; auto.
    apply in_rectb_spec in Eb. contradiction.
  - intros l c _ [Lc Hc].
    destruct (re_render_line_frame H W xmin xmax ymin ymax l c Hr Lc)
      as (c' & E' & L' & H').
    exists c'. split; auto. split; auto.
    intros y x ch Hin Hout Hch. rewrite H' by auto. auto.
  - exists out. auto.
Qed.

Lemma re_render_lines_frame_witness :
  exists out,
    McmcPainter.re_render_bbox_from_lines_cpp white_canvas [thin_line]
      2 3 2 3 4 4 = Some out /\
    len out = (4 * 4 * 3)%Z /\
    forall y x c, in_canvas 4 4 x y -> ~ in_rect 2 3 2 3 x y ->
                  (0 <= c <= 2)%Z ->
                  sample out 4 4 y x c = sample white_canvas 4 4 y x c.
Proof.
  apply (re_render_lines_frame white_canvas [thin_line] 2 3 2 3 4 4);
    [unfold rect_in_canvas; lia | reflexivity].
Defined.

(** X11.  The incremental re-render of lines checks no bound: when one
    sample index of the rectangle lies outside the base canvas, resetting
    the rectangle to white writes outside the buffer. *)
Theorem re_render_lines_fault (base_canvas : NumericVector) (lines : list Line)
        (xmin xmax ymin ymax H W : Z) :
  (exists y x c, in_rect xmin xmax ymin ymax x y /\ (0 <= c <= 2)%Z /\
     (McmcPainter.idx3 y x c H W < 0 \/
      len base_canvas <= McmcPainter.idx3 y x c H W)%Z) ->
  McmcPainter.re_render_bbox_from_lines_cpp base_canvas lines
    xmin xmax ymin ymax H W = None.
Proof.
  intros (y & x & c & [Hx Hy] & Hc & Hout).
  unfold McmcPainter.re_render_bbox_from_lines_cpp. cbv zeta.
  assert (E : McmcPainter.clear_rect H W xmin xmax ymin ymax base_canvas = None).
  { unfold McmcPainter.clear_rect.
    assert (Hstep : forall (k : Z) (t t' : NumericVector),
              len t = len base_canvas ->
              vset t k 1 = Some t' -> len t' = len base_canvas).
    { intros k t t' Ht E. apply vset_inv in E. destruct E as [_ ->].
      now rewrite len_upd. }
    apply (for_range_fault (fun t => len t = len base_canvas) _ ymin ymax y);
      auto.
    { intros k t t' Ht. apply (for_range_preserves (fun t => len t = len base_canvas)); auto.
      intros k1 u u' Hu. apply (for_range_preserves (fun t => len t = len base_canvas)); auto.
      intros k2 v v'. apply Hstep. }
    intros t Ht.
    apply (for_range_fault (fun t => len t = len base_canvas) _ xmin xmax x);
      auto.
    { intros k1 u u' Hu. apply (for_range_preserves (fun t => len t = len base_canvas)); auto.
      intros k2 v v'. apply Hstep. }
    intros u Hu.
    apply (for_range_fault (fun t => len t = len base_canvas) _ 0 2 c); auto.
    { intros k2 v v'. apply Hstep. }
    intros v Hv. apply vset_None. lia. }
  now rewrite E.
Qed.

Lemma re_render_lines_fault_witness :
  McmcPainter.re_render_bbox_from_lines_cpp [0; 0; 0] [] 2 2 1 1 1 1 = None.
Proof.
  apply (re_render_lines_fault [0; 0; 0] [] 2 2 1 1 1 1).
  exists 1%Z, 2%Z, 2%Z. unfold in_rect, McmcPainter.idx3, len. simpl. lia.
Defined.

(** ** How the renders of lines compose *)

Lemma for_each_app {A St : Type} (l1 l2 : list A)
      (body : A -> St -> option St) (s : St) :
  for_each (l1 ++ l2) body s = (s' <- for_each l1 body s ;; for_each l2 body s').
Proof.
  revert s. induction l1 as [|e l1 IH]; intros s; cbn [for_each app obind]; auto.
  destruct (body e s) as [t|]; cbn [obind]; auto.
Qed.

(** X12.  Rendering is compositional: the full render of a list followed
    by one more line is that line composited, pixel by pixel and channel
    by channel, over the full render of the list. *)
Theorem render_lines_snoc (lines : list Line) (l : Line) (H W : Z) :
  (1 <= H)%Z -> (1 <= W)%Z ->
  Forall (fun l => 0 <= line_w l) lines -> 0 <= line_w l ->
  exists before after,
    McmcPainter.render_full_canvas_cpp lines H W = Some before /\
    McmcPainter.render_full_canvas_cpp (lines ++ [l]) H W = Some after /\
    forall y x c, in_canvas H W x y -> (0 <= c <= 2)%Z ->
      sample after H W y x c = line_over l x y c (sample before H W y x c).
Proof.
  intros HH HW Hls Hl.
  destruct (render_full_canvas_cpp_spec lines H W HH HW Hls)
    as (before & Eb & Lb & Hb).
  destruct (render_line_spec H W l before Hl Lb) as (after & Ea & La & Ha).
  exists before, after. split; auto. split; auto.
  unfold McmcPainter.render_full_canvas_cpp in *. cbv zeta in *.
  rewrite for_each_app, Eb. cbn [obind for_each]. now rewrite Ea.
Qed.

Lemma render_lines_snoc_witness :
  exists before after,
    McmcPainter.render_full_canvas_cpp [] 2 2 = Some before /\
    McmcPainter.render_full_canvas_cpp
      ([] ++ [mkLine 1 1 2 2 1 0.5 (mkColor 0 0 0)]) 2 2 = Some after /\
    forall y x c, in_canvas 2 2 x y -> (0 <= c <= 2)%Z ->
      sample after 2 2 y x c
      = line_over (mkLine 1 1 2 2 1 0.5 (mkColor 0 0 0)) x y c
          (sample before 2 2 y x c).
Proof.
  apply (render_lines_snoc [] (mkLine 1 1 2 2 1 0.5 (mkColor 0 0 0)) 2 2);
    [lia | lia | apply Forall_nil | simpl; lra].
Defined.

(** ** Buffers are determined by their samples *)

Lemma index_decompose (H W n : Z) :
  (1 <= H)%Z -> (1 <= W)%Z -> (0 <= n < H * W * 3)%Z ->
  exists y x c, in_canvas H W x y /\ (0 <= c <= 2)%Z /\
                sample_index H W y x c = n.
Proof.
  intros HH HW Hn.
  assert (HP : (0 < H * W)%Z) by nia.
  exists (n mod (H * W) mod H + 1)%Z, (n mod (H * W) / H + 1)%Z, (n / (H * W))%Z.
  pose proof (Z.mod_pos_bound n (H * W) HP) as Hm.
  pose proof (Z.mod_pos_bound (n mod (H * W)) H ltac:(lia)) as Hmy.
  pose proof (Z.div_pos (n mod (H * W)) H ltac:(lia) ltac:(lia)) as Hdx.
  assert (Hdx' : (n mod (H * W) / H < W)%Z)
    by (apply Z.div_lt_upper_bound; lia).
  pose proof (Z.div_pos n (H * W) ltac:(lia) HP) as Hc0.
  assert (Hc2 : (n / (H * W) < 3)%Z) by (apply Z.div_lt_upper_bound; lia).
  split; [unfold in_canvas; lia|]. split; [lia|].
  unfold sample_index.
  pose proof (Z.div_mod n (H * W) ltac:(lia)) as E1.
  pose proof (Z.div_mod (n mod (H * W)) H ltac:(lia)) as E2.
  rewrite <- (Z.mul_assoc (n / (H * W)) H W). nia.
Qed.

Lemma buffer_ext (H W : Z) (a b : NumericVector) :
  (1 <= H)%Z -> (1 <= W)%Z ->
  len a = (H * W * 3)%Z -> len b = (H * W * 3)%Z ->
  (forall y x c, in_canvas H W x y -> (0 <= c <= 2)%Z ->
                 sample a H W y x c = sample b H W y x c) ->
  a = b.
Proof.
  intros HH HW La Lb Hs. unfold len in *.
  apply (nth_ext a b 0 0); [lia|].
  intros n Hn.
  destruct (index_decompose H W (Z.of_nat n) HH HW ltac:(lia))
    as (y & x & c & Hin & Hc & E).
  specialize (Hs y x c Hin Hc). unfold sample in Hs. rewrite E in Hs.
  now rewrite Nat2Z.id in Hs.
Qed.

(** X13.  The incremental re-render of lines is idempotent: applied to
    its own result, with the same list and rectangle, it returns that
    result again. *)
Theorem re_render_lines_idempotent (base_canvas : NumericVector)
      (lines : list Line) (xmin xmax ymin ymax H W : Z) :
  (1 <= H)%Z -> (1 <= W)%Z ->
  Forall (fun l => 0 <= line_w l) lines ->
  rect_in_canvas H W xmin xmax ymin ymax ->
  len base_canvas = (H * W * 3)%Z ->
  exists out,
    McmcPainter.re_render_bbox_from_lines_cpp base_canvas lines
      xmin xmax ymin ymax H W = Some out /\
    McmcPainter.re_render_bbox_from_lines_cpp out lines
      xmin xmax ymin ymax H W = Some out.
Proof.
  intros HH HW Hw Hr L.
  destruct (re_render_bbox_from_lines_cpp_spec base_canvas lines
              xmin xmax ymin ymax H W Hw Hr L) as (out & E & Lo & Ho).
  destruct (re_render_bbox_from_lines_cpp_spec out lines
              xmin xmax ymin ymax H W Hw Hr Lo) as (out2 & E2 & Lo2 & Ho2).
  exists out. split; auto. rewrite E2. f_equal.
  apply (buffer_ext H W); auto.
  intros y x c Hin Hc. rewrite Ho2, Ho by auto.
  now destruct (in_rectb xmin xmax ymin ymax x y).
Qed.

Lemma re_render_lines_idempotent_witness :
  exists out,
    McmcPainter.re_render_bbox_from_lines_cpp white_canvas
      [mkLine 1 1 4 4 1 0.5 (mkColor 0 0 0)] 2 3 2 3 4 4 = Some out /\
    McmcPainter.re_render_bbox_from_lines_cpp out
      [mkLine 1 1 4 4 1 0.5 (mkColor 0 0 0)] 2 3 2 3 4 4 = Some out.
Proof.
  apply (re_render_lines_idempotent white_canvas
           [mkLine 1 1 4 4 1 0.5 (mkColor 0 0 0)] 2 3 2 3 4 4);
    [lia | lia | apply Forall_cons; [simpl; lra | apply Forall_nil]
    | unfold rect_in_canvas; lia | reflexivity].
Defined.

(** X14.  Re-rendering the rectangle of the whole canvas is the full
    render: the result does not depend on the base canvas. *)
Theorem re_render_whole_canvas (base_canvas : NumericVector)
      (lines : list Line) (H W : Z) :
  (1 <= H)%Z -> (1 <= W)%Z ->
  Forall (fun l => 0 <= line_w l) lines ->
  len base_canvas = (H * W * 3)%Z ->
  McmcPainter.re_render_bbox_from_lines_cpp base_canvas lines 1 W 1 H H W
  = McmcPainter.render_full_canvas_cpp lines H W.
Proof.
  intros HH HW Hw L.
  destruct (re_render_bbox_from_lines_cpp_spec base_canvas lines
              1 W 1 H H W Hw) as (inc & Ei & Li & Hi); auto.
  { unfold rect_in_canvas. lia. }
  destruct (render_full_canvas_cpp_spec lines H W HH HW Hw)
    as (full & Ef & Lf & Hf).
  rewrite Ei, Ef. f_equal.
  apply (buffer_ext H W); auto.
  intros y x c Hin Hc. rewrite Hi, Hf by auto.
  assert (Eb : in_rectb 1 W 1 H x y = true)
    by (apply in_rectb_spec; unfold in_rect, in_canvas in *; lia).
  now rewrite Eb.
Qed.

Lemma re_render_whole_canvas_witness :
  McmcPainter.re_render_bbox_from_lines_cpp white_canvas
    [mkLine 1 1 4 4 1 0.5 (mkColor 0 0 0)] 1 4 1 4 4 4
  = McmcPainter.render_full_canvas_cpp
      [mkLine 1 1 4 4 1 0.5 (mkColor 0 0 0)] 4 4.
Proof.
  apply (re_render_whole_canvas white_canvas
           [mkLine 1 1 4 4 1 0.5 (mkColor 0 0 0)] 4 4);
    [lia | lia | apply Forall_cons; [simpl; lra | apply Forall_nil]
    | reflexivity].
Defined.

(** ** Bounding boxes and coverage *)

Lemma clipped_interval (N : Z) (lo hi : R) :
  (1 <= N)%Z -> lo <= IZR N -> 1 <= hi -> lo <= hi ->
  (1 <= Z.max 1 (Zfloor lo) <= Z.min N (Zceil hi) /\
   Z.min N (Zceil hi) <= N)%Z.
Proof.
  intros HN Hlo Hhi Hle.
  pose proof (Zfloor_bound lo) as [Fl _].
  pose proof (Zceil_bound hi) as [_ Ch].
  assert (Zfloor lo <= N)%Z by (apply le_IZR; lra).
  assert (1 <= Zceil hi)%Z by (apply le_IZR; lra).
  assert (Zfloor lo <= Zceil hi)%Z by (apply le_IZR; lra).
  lia.
Qed.

Lemma IZR_ge_1 (N : Z) (v : R) : 1 <= v <= IZR N -> (1 <= N)%Z.
Proof. intros [H1 H2]. apply le_IZR. lra. Qed.

(** X15.  The bounding box of a valid dot, and the one of a valid line
    for any padding that is not negative, is a non-empty rectangle of the
    canvas: [1 <= xmin <= xmax <= W] and [1 <= ymin <= ymax <= H]. *)
Theorem bbox_of_valid_primitive (W H : Z) (d : Dot) (l : Line) (pad : Z) :
  valid_dot W H d -> valid_line W H l -> (0 <= pad)%Z ->
  let bd := DotPainter.dot_bbox_cpp (dot_x d) (dot_y d) (dot_radius d) W H in
  let bl := McmcPainter.line_bbox_cpp (line_x1 l) (line_y1 l) (line_x2 l)
              (line_y2 l) (line_w l) W H pad in
  (1 <= xmin bd <= xmax bd /\ xmax bd <= W /\
   1 <= ymin bd <= ymax bd /\ ymax bd <= H)%Z
  /\ (1 <= xmin bl <= xmax bl /\ xmax bl <= W /\
      1 <= ymin bl <= ymax bl /\ ymax bl <= H)%Z.
Proof.
  intros (Hx & Hy & Hr & _) (Hx1 & Hy1 & Hx2 & Hy2 & Hw & _) Hp bd bl.
  assert (HW : (1 <= W)%Z) by (eapply IZR_ge_1; eauto).
  assert (HH : (1 <= H)%Z) by (eapply IZR_ge_1; eauto).
  assert (0 <= IZR pad) by (apply (IZR_le 0); lia).
  pose proof (Rmin_l (line_x1 l) (line_x2 l)).
  pose proof (Rmax_l (line_x1 l) (line_x2 l)).
  pose proof (Rmin_l (line_y1 l) (line_y2 l)).
  pose proof (Rmax_l (line_y1 l) (line_y2 l)).
  unfold bd, bl, DotPainter.dot_bbox_cpp, McmcPainter.line_bbox_cpp.
  cbn [xmin xmax ymin ymax].
  split.
  - pose proof (clipped_interval W (dot_x d - dot_radius d)
                  (dot_x d + dot_radius d) HW ltac:(lra) ltac:(lra) ltac:(lra)).
    pose proof (clipped_interval H (dot_y d - dot_radius d)
                  (dot_y d + dot_radius d) HH ltac:(lra) ltac:(lra) ltac:(lra)).
    lia.
  - pose proof (clipped_interval W
                  (Rmin (line_x1 l) (line_x2 l) - (line_w l / 2 + IZR pad))
                  (Rmax (line_x1 l) (line_x2 l) + (line_w l / 2 + IZR pad))
                  HW ltac:(lra) ltac:(lra) ltac:(lra)).
    pose proof (clipped_interval H
                  (Rmin (line_y1 l) (line_y2 l) - (line_w l / 2 + IZR pad))
                  (Rmax (line_y1 l) (line_y2 l) + (line_w l / 2 + IZR pad))
                  HH ltac:(lra) ltac:(lra) ltac:(lra)).
    lia.
Qed.

Lemma bbox_of_valid_primitive_witness :
  let bd := DotPainter.dot_bbox_cpp 5 5 2 10 10 in
  let bl := McmcPainter.line_bbox_cpp 2 2 4 4 1 10 10 2 in
  (1 <= xmin bd <= xmax bd /\ xmax bd <= 10 /\
   1 <= ymin bd <= ymax bd /\ ymax bd <= 10)%Z
  /\ (1 <= xmin bl <= xmax bl /\ xmax bl <= 10 /\
      1 <= ymin bl <= ymax bl /\ ymax bl <= 10)%Z.
Proof.
  apply (bbox_of_valid_primitive 10 10 (mkDot 5 5 2 0.5 (mkColor 0 0 0))
           (mkLine 2 2 4 4 1 0.5 (mkColor 0 0 0)) 2).
  - unfold valid_dot, valid_color, in01; simpl; lra.
  - unfold valid_line, valid_color, in01; simpl; lra.
  - lia.
Defined.

(** X16.  A line whose two end points coincide is a point: the squared
    distance of a pixel centre to it is the squared distance to that
    point (the [1e-12] added to the denominator keeps the projection
    defined). *)
Theorem line_d2_degenerate (x y px py : R) :
  McmcPainter.line_d2 x y x y px py = (px - x) * (px - x) + (py - y) * (py - y).
Proof.
  unfold McmcPainter.line_d2. cbv zeta.
  replace (((px - x) * (x - x) + (py - y) * (y - y)) /
           ((x - x) * (x - x) + (y - y) * (y - y) + 1e-12)) with 0
    by (unfold Rdiv; replace ((px - x) * (x - x) + (py - y) * (y - y))
          with 0 by ring; ring).
  rdecide. ring.
Qed.

Lemma div_le_div (a b r : R) : 0 < r -> a <= b -> a / r <= b / r.
Proof.
  intros Hr Hab. unfold Rdiv.
  apply Rmult_le_compat_r; [|exact Hab].
  left. now apply Rinv_0_lt_compat.
Qed.

Lemma dot_coverage_monotone (radius d2 d2' : R) :
  0 <= d2 <= d2' ->
  DotPainter.dot_coverage radius d2' <= DotPainter.dot_coverage radius d2.
Proof.
  intros [H0 Hle].
  pose proof (dot_coverage_range radius d2 H0) as R1.
  pose proof (dot_coverage_range radius d2' ltac:(lra)) as R2.
  revert R1 R2. unfold DotPainter.dot_coverage. cbv zeta.
  destruct (Rltb (radius * radius) d2') eqn:E1; [intros; lra|].
  destruct (Rltb (radius * radius) d2) eqn:E2;
    [apply Rltb_true in E2; apply Rltb_false in E1; lra|].
  destruct (Rltb ((radius - 1) * (radius - 1)) d2) eqn:E3.
  - apply Rltb_true in E3. apply Rltb_false in E1, E2.
    replace (Rltb ((radius - 1) * (radius - 1)) d2') with true
      by (symmetry; apply Rltb_true; lra).
    assert (Hr : 0 < radius) by nra.
    assert (Hs : sqrt d2 <= sqrt d2') by (apply sqrt_le_1; lra).
    pose proof (div_le_div _ _ radius Hr Hs).
    rcases; intros; lra.
  - intros R1 R2. lra.
Qed.

Lemma line_coverage_monotone (w d2 d2' : R) :
  -1 <= w -> 0 <= d2 <= d2' ->
  McmcPainter.line_coverage w d2' <= McmcPainter.line_coverage w d2.
Proof.
  intros Hw [H0 Hle].
  pose proof (line_coverage_range w d2 Hw H0) as R1.
  pose proof (line_coverage_range w d2' Hw ltac:(lra)) as R2.
  revert R1 R2. unfold McmcPainter.line_coverage. cbv zeta.
  assert (Hs : sqrt d2 <= sqrt d2') by (apply sqrt_le_1; lra).
  destruct (Rleb (0.5 * w - 0.5) 0) eqn:Einr.
  - destruct (Rltb d2' ((0.5 * w + 0.5) * (0.5 * w + 0.5))) eqn:E1;
      [|intros; lra].
    apply Rltb_true in E1.
    replace (Rltb d2 ((0.5 * w + 0.5) * (0.5 * w + 0.5))) with true
      by (symmetry; apply Rltb_true; lra).
    assert (Ho : 0 < 0.5 * w + 0.5) by nra.
    pose proof (div_le_div _ _ (0.5 * w + 0.5) Ho Hs).
    rcases; intros; lra.
  - apply Rleb_false in Einr.
    replace (Rltb 0 (0.5 * w - 0.5)) with true
      by (symmetry; apply Rltb_true; lra).
    replace (0.5 * w + 0.5 - (0.5 * w - 0.5)) with 1 by lra.
    destruct (Rleb d2 ((0.5 * w - 0.5) * (0.5 * w - 0.5))) eqn:E1;
      [intros; lra|].
    apply Rleb_false in E1.
    replace (Rleb d2' ((0.5 * w - 0.5) * (0.5 * w - 0.5))) with false
      by (symmetry; apply Rleb_false; lra).
    destruct (Rleb ((0.5 * w + 0.5) * (0.5 * w + 0.5)) d2') eqn:E2;
      [intros; lra|].
    apply Rleb_false in E2.
    replace (Rleb ((0.5 * w + 0.5) * (0.5 * w + 0.5)) d2) with false
      by (symmetry; apply Rleb_false; lra).
    intros. lra.
Qed.

(** X17.  Coverage never grows with the distance: for a dot of any
    radius, and for a line of width at least -1, a pixel centre that is
    farther from the primitive is covered no more than a nearer one. *)
Theorem coverage_falls_with_distance (radius w d2 d2' : R) :
  -1 <= w -> 0 <= d2 <= d2' ->
  DotPainter.dot_coverage radius d2' <= DotPainter.dot_coverage radius d2
  /\ McmcPainter.line_coverage w d2' <= McmcPainter.line_coverage w d2.
Proof.
  intros Hw Hd. split.
  - now apply dot_coverage_monotone.
  - now apply line_coverage_monotone.
Qed.

Lemma coverage_falls_with_distance_witness :
  DotPainter.dot_coverage 2 4 <= DotPainter.dot_coverage 2 1
  /\ McmcPainter.line_coverage 1 4 <= McmcPainter.line_coverage 1 1.
Proof.
  apply (coverage_falls_with_distance 2 1 1 4); lra.
Defined.

(** X18.  The soft edge of a dot of radius above 1 starts below
    [1/radius]: the coverage of a pixel is either 1 or less than
    [1/radius], and takes no value in between. *)
Theorem dot_coverage_gap (radius d2 : R) :
  1 < radius -> 0 <= d2 ->
  DotPainter.dot_coverage radius d2 = 1 \/
  DotPainter.dot_coverage radius d2 < / radius.
Proof.
  intros Hr Hd.
  assert (Hi : 0 < / radius) by (apply Rinv_0_lt_compat; lra).
  unfold DotPainter.dot_coverage. cbv zeta.
  destruct (Rltb (radius * radius) d2) eqn:E1; [right; lra|].
  destruct (Rltb ((radius - 1) * (radius - 1)) d2) eqn:E2; [|now left].
  right. apply Rltb_true in E2. apply Rltb_false in E1.
  assert (Hs : radius - 1 < sqrt d2).
  { rewrite <- (sqrt_square (radius - 1)) by lra. apply sqrt_lt_1; nra. }
  assert (Hq : (radius - 1) / radius < sqrt d2 / radius).
  { unfold Rdiv. apply Rmult_lt_compat_r; auto. }
  assert (Hk : (radius - 1) / radius = 1 - / radius).
  { unfold Rdiv. rewrite Rmult_minus_distr_r, Rinv_r by lra. lra. }
  rcases; lra.
Qed.

Lemma dot_coverage_gap_witness :
  DotPainter.dot_coverage 2 1 = 1 \/ DotPainter.dot_coverage 2 1 < / 2.
Proof.
  apply (dot_coverage_gap 2 1); lra.
Defined.

(** ** The seed pixel of a birth *)

Lemma vget_nth (v : NumericVector) (i : Z) (a : R) :
  vget v i = Some a -> nth (Z.to_nat i) v 0 = a.
Proof.
  unfold vget. destruct (Z.ltb_spec i 0); try discriminate.
  intros E. now apply nth_error_nth.
Qed.

Lemma sum_from_S_front (n : nat) (i j : Z) (f : Z -> R) :
  (i < j)%Z ->
  sum_from (Z.to_nat (j - i)) i f
  = f i + sum_from (Z.to_nat (j - (i + 1))) (i + 1) f.
Proof.
  intros Hij.
  replace (Z.to_nat (j - i)) with (S (Z.to_nat (j - (i + 1)))) by lia.
  reflexivity.
Qed.

Lemma crossing_loop_spec (mag_sq : NumericVector) (r : R) (n : nat) (i : Z)
      (cumsum : R) :
  (0 <= i)%Z -> (i + Z.of_nat n <= len mag_sq)%Z ->
  let f := fun k => nth (Z.to_nat k) mag_sq 0 in
  let P := fun j => cumsum + sum_from (Z.to_nat (j - i)) i f in
  exists idx, crossing_loop n i mag_sq r cumsum = Some idx /\
    ((i <= idx < i + Z.of_nat n)%Z /\
     (forall j, (i < j <= idx)%Z -> P j < r) /\ r <= P (idx + 1)%Z
     \/ idx = 0%Z /\ forall j, (i < j <= i + Z.of_nat n)%Z -> P j < r).
Proof.
  intros Hi Hn f. revert i cumsum Hi Hn.
  induction n as [|n IH]; intros i cumsum Hi Hn P.
  - exists 0%Z. split; [reflexivity|]. right. split; auto. intros j Hj. lia.
  - cbn [crossing_loop].
    destruct (vget_Some mag_sq i) as [m Em]; [lia|].
    rewrite Em. cbn [obind]. apply vget_nth in Em.
    assert (Pstep : forall j, (i < j)%Z ->
              P j = cumsum + m + sum_from (Z.to_nat (j - (i + 1))) (i + 1) f).
    { intros j Hj. unfold P. rewrite (sum_from_S_front n i j f Hj).
      unfold f at 1. rewrite Em. lra. }
    destruct (Rleb r (cumsum + m)) eqn:Er.
    + apply Rleb_true in Er. exists i. split; [reflexivity|]. left.
      split; [lia|]. split; [intros j Hj; lia|].
      rewrite Pstep by lia.
      replace (Z.to_nat (i + 1 - (i + 1))) with O by lia. cbn [sum_from]. lra.
    + apply Rleb_false in Er.
      destruct (IH (i + 1)%Z (cumsum + m) ltac:(lia) ltac:(lia))
        as [idx [E Hcase]].
      exists idx. split; [exact E|].
      assert (P1 : P (i + 1)%Z < r).
      { rewrite Pstep by lia.
        replace (Z.to_nat (i + 1 - (i + 1))) with O by lia.
        cbn [sum_from]. lra. }
      destruct Hcase as [(Hr & Hbelow & Hreach) | (Hz & Hbelow)].
      * left. split; [lia|]. split.
        -- intros j Hj. destruct (Z.eq_dec j (i + 1)) as [->|Hne]; auto.
           rewrite Pstep by lia. apply Hbelow. lia.
        -- rewrite Pstep by lia. exact Hreach.
      * right. split; auto.
        intros j Hj. destruct (Z.eq_dec j (i + 1)) as [->|Hne]; auto.
        rewrite Pstep by lia. apply Hbelow. lia.
Qed.

Lemma prefix_sum_from (v : NumericVector) (j : Z) :
  prefix_sum v j = 0 + sum_from (Z.to_nat (j - 0)) 0
                         (fun k => nth (Z.to_nat k) v 0).
Proof.
  unfold prefix_sum, sum_range.
  replace (Z.to_nat (j - 1 - 0 + 1)) with (Z.to_nat (j - 0)) by lia. lra.
Qed.

Lemma prefix_sum_0 (v : NumericVector) : prefix_sum v 0 = 0.
Proof. reflexivity. Qed.

Lemma prefix_sum_succ (v : NumericVector) (k : Z) :
  (0 <= k)%Z ->
  prefix_sum v (k + 1) = prefix_sum v k + nth (Z.to_nat k) v 0.
Proof.
  intros Hk. unfold prefix_sum.
  rewrite (sum_range_split 0 (k - 1) (k + 1 - 1)) by lia.
  f_equal. unfold sum_range.
  replace (Z.to_nat (k + 1 - 1 - (k - 1 + 1) + 1)) with 1%nat by lia.
  cbn [sum_from]. replace (k - 1 + 1)%Z with k by lia. lra.
Qed.

(** With a threshold in (0, total] the loop stops at the first index
    whose running sum reaches it. *)
Lemma first_crossing_reaches (mag_sq : NumericVector) (r : R)
        (H W : Z) :
  len mag_sq = (H * W)%Z ->
  0 < r <= prefix_sum mag_sq (H * W) ->
  exists idx,
    first_crossing mag_sq r H W = Some idx /\ (0 <= idx < H * W)%Z /\
    prefix_sum mag_sq idx < r <= prefix_sum mag_sq (idx + 1) /\
    0 < nth (Z.to_nat idx) mag_sq 0.
Proof.
  intros Lm [Hr0 Hr1]. unfold first_crossing.
  assert (Hn : (0 <= H * W)%Z) by (unfold len in Lm; lia).
  destruct (crossing_loop_spec mag_sq r (Z.to_nat (H * W)) 0 0
              ltac:(lia) ltac:(lia)) as [idx [E Hcase]].
  cbv zeta in Hcase. exists idx. split; [exact E|].
  destruct Hcase as [(Hr & Hbelow & Hreach) | (Hz & Hbelow)].
  - rewrite <- prefix_sum_from in Hreach.
    assert (Hlt : prefix_sum mag_sq idx < r).
    { destruct (Z.eq_dec idx 0) as [->|Hne]; [rewrite prefix_sum_0; lra|].
      rewrite prefix_sum_from. apply Hbelow. lia. }
    split; [lia|]. split; [lra|].
    rewrite prefix_sum_succ in Hreach by lia. lra.
  - exfalso.
    destruct (Z.eq_dec (H * W) 0) as [E0|Hne].
    + rewrite E0, prefix_sum_0 in Hr1. lra.
    + specialize (Hbelow (H * W)%Z ltac:(lia)).
      rewrite <- prefix_sum_from in Hbelow. lra.
Qed.

(** When no running sum reaches the threshold the loop ends without a
    [break] and [idx] keeps its initial value. *)
Lemma first_crossing_no_crossing (mag_sq : NumericVector) (r : R)
        (H W : Z) :
  len mag_sq = (H * W)%Z ->
  (forall j, (0 < j <= H * W)%Z -> prefix_sum mag_sq j < r) ->
  first_crossing mag_sq r H W = Some 0%Z.
Proof.
  intros Lm Hall. unfold first_crossing.
  assert (Hn : (0 <= H * W)%Z) by (unfold len in Lm; lia).
  destruct (crossing_loop_spec mag_sq r (Z.to_nat (H * W)) 0 0
              ltac:(lia) ltac:(lia)) as [idx [E Hcase]].
  cbv zeta in Hcase. rewrite E.
  destruct Hcase as [(Hr & Hbelow & Hreach) | (Hz & Hbelow)].
  - rewrite <- prefix_sum_from in Hreach.
    specialize (Hall (idx + 1)%Z ltac:(lia)). lra.
  - now subst.
Qed.

(** X19.  The first-crossing loop is inverse-transform sampling: for a
    threshold [r > 0] it returns an index; when [r] is at most the total
    weight, that index [idx] is the one with
    [prefix_sum idx < r <= prefix_sum (idx + 1)], so its weight is
    positive; when no running sum reaches [r], it is index 0. *)
Theorem first_crossing_is_inverse_transform (mag_sq : NumericVector) (r : R)
        (H W : Z) :
  len mag_sq = (H * W)%Z -> 0 < r ->
  exists idx,
    first_crossing mag_sq r H W = Some idx /\
    (r <= prefix_sum mag_sq (H * W) ->
     (0 <= idx < H * W)%Z /\
     prefix_sum mag_sq idx < r <= prefix_sum mag_sq (idx + 1) /\
     0 < nth (Z.to_nat idx) mag_sq 0) /\
    ((forall j, (0 < j <= H * W)%Z -> prefix_sum mag_sq j < r) ->
     idx = 0%Z).
Proof.
  intros Lm Hr.
  destruct (Rle_dec r (prefix_sum mag_sq (H * W))) as [Hle | Hgt].
  - destruct (first_crossing_reaches mag_sq r H W Lm (conj Hr Hle))
      as (idx & E & Hidx & Hbetween & Hpos).
    exists idx. split; [exact E|]. split; [auto|].
    intros Hall. specialize (Hall (idx + 1)%Z ltac:(lia)). lra.
  - unfold first_crossing.
    destruct (crossing_loop_range (Z.to_nat (H * W)) 0 mag_sq r 0)
      as [idx [E _]]; [lia | unfold len in *; lia |].
    exists idx. split; [exact E|]. split; [intros Hle; lra|].
    intros Hall.
    pose proof (first_crossing_no_crossing mag_sq r H W Lm Hall) as E0.
    unfold first_crossing in E0. congruence.
Qed.

Lemma first_crossing_is_inverse_transform_witness :
  exists idx,
    first_crossing (peak 1) 0.5 4 4 = Some idx /\
    (0.5 <= prefix_sum (peak 1) (4 * 4) ->
     (0 <= idx < 4 * 4)%Z /\
     prefix_sum (peak 1) idx < 0.5 <= prefix_sum (peak 1) (idx + 1) /\
     0 < nth (Z.to_nat idx) (peak 1) 0) /\
    ((forall j, (0 < j <= 4 * 4)%Z -> prefix_sum (peak 1) j < 0.5) ->
     idx = 0%Z).
Proof.
  apply (first_crossing_is_inverse_transform (peak 1) 0.5 4 4);
    [reflexivity | lra].
Defined.

(** X20.  The pixel decoded from the index the loop returns
    ([y0 = idx % H + 1], [x0 = idx / H + 1]) is a pixel of the canvas, and
    it is the pixel whose red sample [idx3] places at that index: the
    weight that was drawn is the weight of the seed. *)
Theorem seed_pixel_round_trip (H W idx : Z) :
  (1 <= H)%Z -> (0 <= idx < H * W)%Z ->
  let y0 := (Z.rem idx H + 1)%Z in
  let x0 := (Z.quot idx H + 1)%Z in
  in_canvas H W x0 y0 /\
  McmcPainter.idx3 y0 x0 0 H W = idx /\ DotPainter.idx3 y0 x0 0 H W = idx.
Proof.
  intros HH Hidx y0 x0.
  destruct (pixel_of_index H W idx HH Hidx) as [Hq Hr].
  split; [split; assumption|].
  unfold McmcPainter.idx3, DotPainter.idx3, y0, x0. cbv zeta.
  pose proof (Z.quot_rem' idx H). split; lia.
Qed.

Lemma seed_pixel_round_trip_witness :
  let y0 := (Z.rem 5 4 + 1)%Z in
  let x0 := (Z.quot 5 4 + 1)%Z in
  in_canvas 4 4 x0 y0 /\
  McmcPainter.idx3 y0 x0 0 4 4 = 5%Z /\ DotPainter.idx3 y0 x0 0 4 4 = 5%Z.
Proof.
  apply (seed_pixel_round_trip 4 4 5); lia.
Defined.

Lemma nth_vsub (a b : NumericVector) (i : nat) :
  (i < length a)%nat -> length a = length b ->
  nth i (vsub a b) 0 = nth i a 0 - nth i b 0.
Proof.
  unfold vsub. revert b i.
  induction a as [|x a IH]; intros [|y b] i Hi E; simpl in *; try lia.
  destruct i as [|i]; simpl; auto. apply IH; lia.
Qed.

Lemma vget_exact (v : NumericVector) (i : Z) :
  (0 <= i < len v)%Z -> vget v i = Some (nth (Z.to_nat i) v 0).
Proof.
  intros Hi. destruct (vget_Some v i Hi) as [a E].
  rewrite E. f_equal. symmetry. now apply vget_nth.
Qed.

Lemma nth_upd (v : NumericVector) (i j : Z) (a : R) :
  (0 <= i < len v)%Z -> (0 <= j)%Z ->
  nth (Z.to_nat j) (upd (Z.to_nat i) a v) 0
  = if (j =? i)%Z then a else nth (Z.to_nat j) v 0.
Proof.
  intros Hi Hj. destruct (Z.eqb_spec j i) as [->|Hne].
  - apply nth_upd_eq. unfold len in Hi. lia.
  - apply nth_upd_ne. lia.
Qed.

(** The magnitude the loop stores for the pixel of index [i]. *)
Lemma residual_index (target canvas : NumericVector) (H W y x c : Z) :
  len target = (H * W * 3)%Z -> len canvas = (H * W * 3)%Z ->
  in_canvas H W x y -> (0 <= c <= 2)%Z ->
  nth (Z.to_nat (sample_index H W y x 0 + c * H * W))
      (vsub target canvas) 0
  = sample target H W y x c - sample canvas H W y x c.
Proof.
  intros Lt Lc [Hx Hy] Hc.
  replace (sample_index H W y x 0 + c * H * W)%Z
    with (sample_index H W y x c) by (unfold sample_index; lia).
  pose proof (sample_index_bounds H W y x c Hy Hx Hc) as Hb.
  unfold sample. apply nth_vsub; unfold len in *; lia.
Qed.

Lemma residual_magnitude_spec (target canvas : NumericVector) (H W : Z) :
  (1 <= W)%Z -> (1 <= H)%Z ->
  len target = (H * W * 3)%Z -> len canvas = (H * W * 3)%Z ->
  exists mag_sq,
    residual_magnitude target canvas H W = Some mag_sq /\
    len mag_sq = (H * W)%Z /\
    forall y x, in_canvas H W x y ->
      nth (Z.to_nat (sample_index H W y x 0)) mag_sq 0
      = sqrt (pixel_sse target canvas H W y x).
Proof.
  intros HW HH Lt Lc. unfold residual_magnitude.
  assert (LE : len (vsub target canvas) = (H * W * 3)%Z)
    by (rewrite len_vsub; congruence).
  assert (HP : (1 <= H * W)%Z) by nia.
  destruct (for_range_total
              (fun j mag => len mag = (H * W)%Z /\
                 forall y x, in_canvas H W x y ->
                   (sample_index H W y x 0 < j)%Z ->
                   nth (Z.to_nat (sample_index H W y x 0)) mag 0
                   = sqrt (pixel_sse target canvas H W y x))
              (fun i mag_sq =>
                 d0 <- vget (vsub target canvas) (i + 0 * H * W)%Z ;;
                 d1 <- vget (vsub target canvas) (i + 1 * H * W)%Z ;;
                 d2 <- vget (vsub target canvas) (i + 2 * H * W)%Z ;;
                 let sum := 0 + d0 * d0 + d1 * d1 + d2 * d2 in
                 vset mag_sq i (sqrt sum))
              0 (H * W - 1) (repeat 0 (Z.to_nat (H * W))))
    as [mag [E [Lm Hm]]].
  - split; [rewrite len_repeat; lia|].
    intros y x [Hx Hy] Hlt.
    pose proof (sample_index_bounds H W y x 0 Hy Hx ltac:(lia)). lia.
  - intros i mag Hi [Lm Hm].
    rewrite !vget_exact by (rewrite LE; apply channel_index_bounds; lia).
    cbn [obind]. cbv zeta. rewrite vset_Some by lia.
    eexists. split; [reflexivity|]. split; [now rewrite len_upd|].
    intros y x Hxy Hlt.
    pose proof Hxy as [Hx Hy].
    pose proof (sample_index_bounds H W y x 0 Hy Hx ltac:(lia)) as Hb.
    rewrite nth_upd by lia.
    destruct (Z.eqb_spec (sample_index H W y x 0) i) as [Ei|Hne].
    + subst i. rewrite !residual_index by (auto; lia).
      unfold pixel_sse. rewrite sum_range_0_2. f_equal. lra.
    + apply Hm; auto. lia.
  - exists mag. split; [exact E|]. split; [exact Lm|].
    intros y x Hxy. apply Hm; auto.
    pose proof Hxy as [Hx Hy].
    pose proof (sample_index_bounds H W y x 0 Hy Hx ltac:(lia)).
    unfold sample_index in *. nia.
Qed.

Lemma max_magnitude_spec (mag_sq : NumericVector) (H W : Z) :
  len mag_sq = (H * W)%Z ->
  exists max_mag,
    max_magnitude mag_sq H W = Some max_mag /\
    (forall i, (0 <= i < H * W)%Z -> nth (Z.to_nat i) mag_sq 0 <= max_mag) /\
    (max_mag = 0 \/
     exists i, (0 <= i < H * W)%Z /\ max_mag = nth (Z.to_nat i) mag_sq 0).
Proof.
  intros Lm. unfold max_magnitude.
  destruct (for_range_total
              (fun j mx =>
                 (forall i, (0 <= i < j)%Z -> nth (Z.to_nat i) mag_sq 0 <= mx) /\
                 (mx = 0 \/
                  exists i, (0 <= i < j)%Z /\ mx = nth (Z.to_nat i) mag_sq 0))
              (fun i max_mag => m <- vget mag_sq i ;;
                 Some (if Rltb max_mag m then m else max_mag))
              0 (H * W - 1) 0) as [mx [E [Hle Hat]]].
  - split; [intros i Hi; lia | now left].
  - intros j mx Hj [Hle Hat].
    rewrite vget_exact by lia. cbn [obind].
    eexists. split; [reflexivity|].
    destruct (Rltb mx (nth (Z.to_nat j) mag_sq 0)) eqn:Eb.
    + apply Rltb_true in Eb. split.
      * intros i Hi. destruct (Z.eq_dec i j) as [->|Hne]; [lra|].
        specialize (Hle i ltac:(lia)). lra.
      * right. exists j. split; [lia | reflexivity].
    + apply Rltb_false in Eb. split.
      * intros i Hi. destruct (Z.eq_dec i j) as [->|Hne]; [lra|].
        apply Hle. lia.
      * destruct Hat as [Hz | [i [Hi Ei]]]; [now left|].
        right. exists i. split; [lia | exact Ei].
  - exists mx. split; [exact E|].
    assert (Hn : (0 <= H * W)%Z) by (unfold len in Lm; lia).
    replace (Z.max 0 (H * W - 1 + 1)) with (H * W)%Z in * by lia.
    split; auto.
Qed.

Lemma prefix_sum_ext (a b : NumericVector) (k : Z) :
  (forall i, (0 <= i < k)%Z -> nth (Z.to_nat i) a 0 = nth (Z.to_nat i) b 0) ->
  prefix_sum a k = prefix_sum b k.
Proof.
  intros Hab. unfold prefix_sum. apply sum_range_ext.
  intros j Hj. apply Hab. lia.
Qed.

Lemma normalize_spec (mag_sq : NumericVector) (max_mag : R) (H W : Z) :
  len mag_sq = (H * W)%Z ->
  exists mag' total_weight,
    normalize mag_sq max_mag H W = Some (mag', total_weight) /\
    len mag' = (H * W)%Z /\
    (forall i, (0 <= i < H * W)%Z ->
               nth (Z.to_nat i) mag' 0 = nth (Z.to_nat i) mag_sq 0 / max_mag) /\
    total_weight = prefix_sum mag' (H * W).
Proof.
  intros Lm. unfold normalize.
  assert (Hn : (0 <= H * W)%Z) by (unfold len in Lm; lia).
  destruct (for_range_total
              (fun j (st : NumericVector * R) =>
                 len (fst st) = (H * W)%Z /\
                 (forall i, (0 <= i < j)%Z ->
                    nth (Z.to_nat i) (fst st) 0
                    = nth (Z.to_nat i) mag_sq 0 / max_mag) /\
                 (forall i, (j <= i)%Z ->
                    nth (Z.to_nat i) (fst st) 0 = nth (Z.to_nat i) mag_sq 0) /\
                 snd st = prefix_sum (fst st) j)
              (fun i st =>
                 let '(mag_sq, total_weight) := st in
                 m <- vget mag_sq i ;;
                 mag_sq <- vset mag_sq i (m / max_mag) ;;
                 m <- vget mag_sq i ;;
                 Some (mag_sq, total_weight + m))
              0 (H * W - 1) (mag_sq, 0))
    as [[mag' tw] [E (L' & Hdone & _ & Htw)]].
  - cbn [fst snd]. split; [exact Lm|]. split; [intros i Hi; lia|].
    split; [reflexivity|]. now rewrite prefix_sum_0.
  - intros j [mag tw] Hj (Lmag & Hdone & Htodo & Htw). cbn [fst snd] in *.
    rewrite vget_exact by lia. cbn [obind].
    rewrite vset_Some by lia. cbn [obind].
    rewrite vget_upd_eq by lia. cbn [obind].
    eexists. split; [reflexivity|]. cbn [fst snd].
    split; [now rewrite len_upd|].
    split; [|split].
    + intros i Hi. rewrite nth_upd by lia.
      destruct (Z.eqb_spec i j) as [->|Hne].
      * rewrite Htodo by lia. reflexivity.
      * apply Hdone. lia.
    + intros i Hi. rewrite nth_upd by lia.
      destruct (Z.eqb_spec i j) as [->|Hne]; [lia|]. apply Htodo. lia.
    + rewrite prefix_sum_succ by lia.
      rewrite (nth_upd mag j j) by lia. rewrite Z.eqb_refl.
      rewrite Htw. f_equal. apply prefix_sum_ext.
      intros i Hi. rewrite nth_upd by lia.
      destruct (Z.eqb_spec i j) as [->|Hne]; [lia | reflexivity].
  - cbn [fst snd] in *.
    replace (Z.max 0 (H * W - 1 + 1)) with (H * W)%Z in * by lia.
    exists mag', tw. auto.
Qed.

Lemma prefix_sum_lower (v : NumericVector) (k i : Z) :
  (forall j, (0 <= j < k)%Z -> 0 <= nth (Z.to_nat j) v 0) ->
  (0 <= i < k)%Z -> nth (Z.to_nat i) v 0 <= prefix_sum v k.
Proof.
  intros Hv Hi. unfold prefix_sum.
  rewrite (sum_range_split 0 (i - 1) (k - 1)) by lia.
  rewrite (sum_range_split (i - 1 + 1) i (k - 1)) by lia.
  assert (0 <= sum_range 0 (i - 1) (fun i0 => nth (Z.to_nat i0) v 0))
    by (apply sum_range_nonneg; intros; apply Hv; lia).
  assert (0 <= sum_range (i + 1) (k - 1) (fun i0 => nth (Z.to_nat i0) v 0))
    by (apply sum_range_nonneg; intros; apply Hv; lia).
  replace (i - 1 + 1)%Z with i by lia.
  unfold sum_range at 2. replace (Z.to_nat (i - i + 1)) with 1%nat by lia.
  cbn [sum_from]. lra.
Qed.

Lemma index_of_pixel (H W i : Z) :
  (1 <= H)%Z -> (0 <= i < H * W)%Z ->
  in_canvas H W (Z.quot i H + 1) (Z.rem i H + 1) /\
  sample_index H W (Z.rem i H + 1) (Z.quot i H + 1) 0 = i.
Proof.
  intros HH Hi. destruct (pixel_of_index H W i HH Hi) as [Hq Hr].
  split; [split; assumption|].
  unfold sample_index. pose proof (Z.quot_rem' i H). lia.
Qed.

(** X21.  A data-driven birth is seeded where the painting is wrong: when
    some pixel has a residual magnitude of at least [1e-6] and uniform
    draws lie in [(a, b]], the seed is the centre coordinate pair of a
    pixel of the canvas at which canvas and target differ. *)
Theorem seed_lies_on_a_differing_pixel (G : Rng)
        (target canvas : NumericVector) (H W : Z) (g : rng_state G) :
  (forall a b g, a < b -> a < fst (runif G a b g) <= b) ->
  (1 <= W)%Z -> (1 <= H)%Z ->
  len target = (H * W * 3)%Z -> len canvas = (H * W * 3)%Z ->
  (exists y x, in_canvas H W x y /\
               1e-6 <= sqrt (pixel_sse target canvas H W y x)) ->
  exists x y g',
    sample_seed G target canvas H W g = Some ((IZR x, IZR y), g') /\
    in_canvas H W x y /\ 0 < pixel_sse target canvas H W y x.
Proof.
  intros Hu HW HH Lt Lc (yb & xb & Hb & Hbig).
  unfold sample_seed, mbind, lift, draw, ret.
  destruct (residual_magnitude_spec target canvas H W HW HH Lt Lc)
    as (mag & -> & Lm & Hmag).
  destruct (max_magnitude_spec mag H W Lm) as (mx & -> & Hle & _).
  assert (Hmx : 1e-6 <= mx).
  { pose proof Hb as [Hbx Hby].
    pose proof (sample_index_bounds H W yb xb 0 Hby Hbx ltac:(lia)).
    specialize (Hle (sample_index H W yb xb 0)).
    rewrite Hmag in Hle by exact Hb.
    assert (sample_index H W yb xb 0 < H * W)%Z
      by (unfold sample_index in *; nia).
    specialize (Hle ltac:(lia)). lra. }
  replace (Rltb mx 1e-6) with false by (symmetry; apply Rltb_false; lra).
  destruct (normalize_spec mag mx H W Lm) as (mag' & tw & -> & Lm' & Hn & ->).
  assert (Hi : 0 < / mx) by (apply Rinv_0_lt_compat; lra).
  assert (Hw : forall i, (0 <= i < H * W)%Z ->
             nth (Z.to_nat i) mag' 0
             = sqrt (pixel_sse target canvas H W (Z.rem i H + 1)
                       (Z.quot i H + 1)) / mx).
  { intros i Hir. rewrite Hn by exact Hir.
    destruct (index_of_pixel H W i HH Hir) as [Hc Ei].
    rewrite <- Ei at 1. now rewrite Hmag. }
  assert (Hpos : forall i, (0 <= i < H * W)%Z -> 0 <= nth (Z.to_nat i) mag' 0).
  { intros i Hir. rewrite Hw by exact Hir.
    unfold Rdiv. apply Rmult_le_pos; [apply sqrt_pos | lra]. }
  assert (Htot : 0 < prefix_sum mag' (H * W)).
  { pose proof Hb as [Hbx Hby].
    pose proof (sample_index_bounds H W yb xb 0 Hby Hbx ltac:(lia)).
    assert (Hr : (0 <= sample_index H W yb xb 0 < H * W)%Z)
      by (unfold sample_index in *; nia).
    pose proof (prefix_sum_lower mag' (H * W) _ Hpos Hr) as Hlow.
    rewrite Hn, Hmag in Hlow by auto.
    assert (0 < sqrt (pixel_sse target canvas H W yb xb) / mx)
      by (unfold Rdiv; apply Rmult_lt_0_compat; lra).
    lra. }
  pose proof (Hu 0 (prefix_sum mag' (H * W)) g Htot) as Hr.
  destruct (runif G 0 (prefix_sum mag' (H * W)) g) as [r g'].
  cbn [fst] in Hr.
  destruct (first_crossing_reaches mag' r H W Lm' Hr)
    as (idx & -> & Hidx & _ & Hwt).
  exists (Z.quot idx H + 1)%Z, (Z.rem idx H + 1)%Z, g'.
  split; [reflexivity|].
  destruct (index_of_pixel H W idx HH Hidx) as [Hc _].
  split; [exact Hc|].
  rewrite Hw in Hwt by exact Hidx.
  pose proof (pixel_sse_nonneg target canvas H W (Z.rem idx H + 1)
                (Z.quot idx H + 1)) as Hnn.
  destruct Hnn as [Hlt | Hz]; [exact Hlt|].
  rewrite <- Hz, sqrt_0 in Hwt. unfold Rdiv in Hwt. lra.
Qed.

Lemma red_pixel_residual :
  1e-6 <= sqrt (pixel_sse red_target white_canvas 4 4 2 2).
Proof.
  assert (E : pixel_sse red_target white_canvas 4 4 2 2 = 2) by (run; lra).
  rewrite E. pose proof sqrt_2_bounds. lra.
Qed.

Lemma seed_lies_on_a_differing_pixel_witness :
  exists x y g',
    sample_seed midpoint_rng red_target white_canvas 4 4 tt
    = Some ((IZR x, IZR y), g') /\
    in_canvas 4 4 x y /\ 0 < pixel_sse red_target white_canvas 4 4 y x.
Proof.
  apply (seed_lies_on_a_differing_pixel midpoint_rng
           red_target white_canvas 4 4 tt).
  - intros a b g Hab. cbn. lra.
  - lia.
  - lia.
  - reflexivity.
  - reflexivity.
  - exists 2%Z, 2%Z. split; [unfold in_canvas; lia | exact red_pixel_residual].
Defined.

(** X22.  When every pixel has a residual magnitude below [1e-6] (a
    canvas that already equals the target, for one) nothing is weighted:
    the seed is two uniform draws, [runif(1, W)] then [runif(1, H)]. *)
Theorem seed_is_uniform_without_residual (G : Rng)
        (target canvas : NumericVector) (H W : Z) (g : rng_state G) :
  (1 <= W)%Z -> (1 <= H)%Z ->
  len target = (H * W * 3)%Z -> len canvas = (H * W * 3)%Z ->
  (forall y x, in_canvas H W x y ->
               sqrt (pixel_sse target canvas H W y x) < 1e-6) ->
  sample_seed G target canvas H W g
  = Some ((fst (runif G 1 (IZR W) g),
           fst (runif G 1 (IZR H) (snd (runif G 1 (IZR W) g)))),
          snd (runif G 1 (IZR H) (snd (runif G 1 (IZR W) g)))).
Proof.
  intros HW HH Lt Lc Hsmall.
  unfold sample_seed, mbind, lift, draw, ret.
  destruct (residual_magnitude_spec target canvas H W HW HH Lt Lc)
    as (mag & -> & Lm & Hmag).
  destruct (max_magnitude_spec mag H W Lm) as (mx & -> & _ & Hat).
  assert (Hmx : mx < 1e-6).
  { destruct Hat as [-> | (i & Hi & ->)]; [lra|].
    destruct (index_of_pixel H W i HH Hi) as [Hc Ei].
    rewrite <- Ei, Hmag by exact Hc. now apply Hsmall. }
  replace (Rltb mx 1e-6) with true by (symmetry; apply Rltb_true; lra).
  destruct (runif G 1 (IZR W) g) as [x0 g1]. cbn [fst snd].
  destruct (runif G 1 (IZR H) g1) as [y0 g2]. reflexivity.
Qed.

Lemma pixel_sse_same (target : NumericVector) (H W y x : Z) :
  pixel_sse target target H W y x = 0.
Proof.
  unfold pixel_sse. rewrite sum_range_0_2. lra.
Qed.

Lemma seed_is_uniform_without_residual_witness :
  sample_seed midpoint_rng white_canvas white_canvas 4 4 tt
  = Some ((fst (runif midpoint_rng 1 (IZR 4) tt),
           fst (runif midpoint_rng 1 (IZR 4)
                  (snd (runif midpoint_rng 1 (IZR 4) tt)))),
          snd (runif midpoint_rng 1 (IZR 4)
                 (snd (runif midpoint_rng 1 (IZR 4) tt)))).
Proof.
  apply (seed_is_uniform_without_residual midpoint_rng
           white_canvas white_canvas 4 4 tt);
    [lia | lia | reflexivity | reflexivity |].
  intros y x _. rewrite pixel_sse_same, sqrt_0. lra.
Defined.

(** ** Births and jitter *)

Lemma sum_range_snoc (lo hi : Z) (f : Z -> R) :
  (lo <= hi + 1)%Z ->
  sum_range lo (hi + 1) f = sum_range lo hi f + f (hi + 1)%Z.
Proof.
  intros Hle. rewrite (sum_range_split lo hi (hi + 1)) by lia.
  f_equal. unfold sum_range.
  replace (Z.to_nat (hi + 1 - (hi + 1) + 1)) with 1%nat by lia.
  cbn [sum_from]. lra.
Qed.

(** X23.  The colour of a born line is a mean of exactly [nprobe]
    samples: every probe is clamped to the canvas before it is tested, so
    each of the [nprobe] iterations reads the target, [count] ends at
    [nprobe], and the three sums are the sums of the target over the
    probed pixels. *)
Theorem probe_colors_is_a_sum_of_nprobe_samples
        (target : NumericVector) (H W : Z) (x1 y1 x2 y2 : R) (nprobe : Z) :
  (1 <= W)%Z -> (1 <= H)%Z -> len target = (H * W * 3)%Z ->
  (2 <= nprobe)%Z ->
  McmcPainter.probe_colors target H W x1 y1 x2 y2 nprobe
  = Some (probe_sum target H W x1 y1 x2 y2 nprobe 0,
          probe_sum target H W x1 y1 x2 y2 nprobe 1,
          probe_sum target H W x1 y1 x2 y2 nprobe 2, nprobe).
Proof.
  intros HW HH Lt Hn. unfold McmcPainter.probe_colors.
  set (f := fun c i =>
              sample target H W (probe_pixel H y1 y2 nprobe i)
                     (probe_pixel W x1 x2 nprobe i) c).
  destruct (for_range_total
              (fun j (st : R * R * R * Z) =>
                 st = (sum_range 0 (j - 1) (f 0%Z), sum_range 0 (j - 1) (f 1%Z),
                       sum_range 0 (j - 1) (f 2%Z), j))
              (fun i st =>
                 let '(s0, s1, s2, count) := st in
                 let t := IZR i / IZR (nprobe - 1) in
                 let px := Z.min W (Z.max 1 (round (x1 + t * (x2 - x1)))) in
                 let py := Z.min H (Z.max 1 (round (y1 + t * (y2 - y1)))) in
                 if ((1 <=? px) && (px <=? W) && (1 <=? py) && (py <=? H))%Z
                 then
                   t0 <- vget target (McmcPainter.idx3 py px 0 H W) ;;
                   t1 <- vget target (McmcPainter.idx3 py px 1 H W) ;;
                   t2 <- vget target (McmcPainter.idx3 py px 2 H W) ;;
                   Some (s0 + t0, s1 + t1, s2 + t2, (count + 1)%Z)
                 else Some st)
              0 (nprobe - 1) (0, 0, 0, 0%Z)) as [st [E Hst]].
  - reflexivity.
  - intros i st Hi ->. cbv zeta.
    fold (probe_pixel W x1 x2 nprobe i). fold (probe_pixel H y1 y2 nprobe i).
    assert (Hpx : (1 <= probe_pixel W x1 x2 nprobe i <= W)%Z)
      by (apply clamp_Z_range; lia).
    assert (Hpy : (1 <= probe_pixel H y1 y2 nprobe i <= H)%Z)
      by (apply clamp_Z_range; lia).
    replace ((1 <=? probe_pixel W x1 x2 nprobe i)%Z &&
             (probe_pixel W x1 x2 nprobe i <=? W)%Z &&
             (1 <=? probe_pixel H y1 y2 nprobe i)%Z &&
             (probe_pixel H y1 y2 nprobe i <=? H)%Z) with true
      by (symmetry; repeat (apply andb_true_iff; split); apply Z.leb_le; lia).
    rewrite !mcmc_idx3_sample_index.
    rewrite !vget_sample by (rewrite Lt; apply sample_index_bounds; lia).
    cbn [obind]. eexists. split; [reflexivity|].
    replace (i + 1 - 1)%Z with (i - 1 + 1)%Z by lia.
    rewrite !sum_range_snoc by lia.
    replace (i - 1 + 1)%Z with i by lia. reflexivity.
  - etransitivity; [exact E|]. rewrite Hst.
    replace (Z.max 0 (nprobe - 1 + 1)) with nprobe by lia.
    reflexivity.
Qed.

Lemma probe_colors_is_a_sum_of_nprobe_samples_witness :
  McmcPainter.probe_colors [1; 0.5; 0] 1 1 1 1 1 1 20
  = Some (probe_sum [1; 0.5; 0] 1 1 1 1 1 1 20 0,
          probe_sum [1; 0.5; 0] 1 1 1 1 1 1 20 1,
          probe_sum [1; 0.5; 0] 1 1 1 1 1 1 20 2, 20%Z).
Proof.
  apply (probe_colors_is_a_sum_of_nprobe_samples [1; 0.5; 0] 1 1 1 1 1 1 20);
    reflexivity || lia.
Defined.

Lemma clamp_fixed (lo hi v : R) :
  lo <= v <= hi -> Rmax lo (Rmin hi (v + 0)) = v.
Proof.
  intros Hv. unfold Rmax, Rmin. repeat destruct (Rle_dec _ _); lra.
Qed.

Lemma clamp_fixed' (lo hi v : R) :
  lo <= v <= hi -> Rmin hi (Rmax lo (v + 0)) = v.
Proof.
  intros Hv. unfold Rmax, Rmin. repeat destruct (Rle_dec _ _); lra.
Qed.

Lemma floor_fixed (lo v : R) : lo <= v -> Rmax lo (v + 0) = v.
Proof.
  intros Hv. unfold Rmax. destruct (Rle_dec _ _); lra.
Qed.

Ltac draw_zero Hn :=
  match goal with
  | |- context [rnorm ?G 0 ?s ?g] =>
      let n := fresh "n" in
      let g' := fresh "g" in
      let E := fresh "E" in
      pose proof (Hn s g) as E;
      destruct (rnorm G 0 s g) as [n g']; cbn [fst] in E; subst n
  end.

(** X24.  Jitter clamps to the domain of a valid primitive and to no
    less: when every normal draw is 0, a valid dot with alpha in
    [0.001, 0.999], and a valid line with such an alpha and a width of at
    least 0.2, come back unchanged. *)
Theorem jitter_without_noise_is_identity (G : Rng) (dot : Dot) (line : Line)
        (W H : Z) (s_xy s_r s_a s_c : R) (g : rng_state G) :
  (forall sd g, fst (rnorm G 0 sd g) = 0) ->
  valid_dot W H dot -> 0.001 <= dot_alpha dot <= 0.999 ->
  valid_line W H line -> 0.001 <= line_alpha line <= 0.999 ->
  0.2 <= line_w line ->
  (exists g', DotPainter.jitter_dot_cpp G dot W H s_xy s_r s_a s_c g
              = Some (dot, g'))
  /\ (exists g', McmcPainter.jitter_line_cpp G line W H s_xy s_r s_a s_c g
                 = Some (line, g')).
Proof.
  intros Hn (Hx & Hy & Hr & _ & Hc0 & Hc1 & Hc2) Ha
         (Hx1 & Hy1 & Hx2 & Hy2 & _ & _ & Hl0 & Hl1 & Hl2) Hla Hw.
  unfold in01 in *. split.
  - unfold DotPainter.jitter_dot_cpp, mbind, draw, ret.
    repeat draw_zero Hn. eexists. f_equal. f_equal.
    destruct dot as [x y r a [c0 c1 c2]]. cbn in *.
    rewrite !clamp_fixed, !clamp_fixed', floor_fixed by lra. reflexivity.
  - unfold McmcPainter.jitter_line_cpp, mbind, draw, ret.
    repeat draw_zero Hn. eexists. f_equal. f_equal.
    destruct line as [x1 y1 x2 y2 w a [c0 c1 c2]]. cbn in *.
    rewrite !clamp_fixed, !clamp_fixed', floor_fixed by lra. reflexivity.
Qed.

Lemma jitter_without_noise_is_identity_witness :
  (exists g', DotPainter.jitter_dot_cpp midpoint_rng
                (mkDot 1 1 1 0.5 (mkColor 0 0 0)) 1 1 3 1 0.1 0.08 tt
              = Some (mkDot 1 1 1 0.5 (mkColor 0 0 0), g'))
  /\ (exists g', McmcPainter.jitter_line_cpp midpoint_rng
                   (mkLine 1 1 1 1 1 0.5 (mkColor 0 0 0)) 1 1 3 1 0.1 0.08 tt
                 = Some (mkLine 1 1 1 1 1 0.5 (mkColor 0 0 0), g')).
Proof.
  apply (jitter_without_noise_is_identity midpoint_rng
           (mkDot 1 1 1 0.5 (mkColor 0 0 0))
           (mkLine 1 1 1 1 1 0.5 (mkColor 0 0 0)) 1 1 3 1 0.1 0.08 tt).
  - intros sd g. reflexivity.
  - unfold valid_dot, valid_color, in01; simpl; lra.
  - simpl; lra.
  - unfold valid_line, valid_color, in01; simpl; lra.
  - simpl; lra.
  - simpl; lra.
Defined.

Lemma seed_channel_reads (G : Rng) (target : NumericVector)
      (H W y x c : Z) (g : rng_state G) :
  len target = (H * W * 3)%Z -> in_canvas H W x y -> (0 <= c <= 2)%Z ->
  DotPainter.seed_channel G target H W y x c g
  = Some (sample target H W y x c, g).
Proof.
  intros Lt [Hx Hy] Hc. unfold DotPainter.seed_channel. cbv zeta.
  rewrite dot_idx3_sample_index.
  pose proof (sample_index_bounds H W y x c Hy Hx Hc) as Hb.
  replace ((0 <=? sample_index H W y x c)%Z &&
           (sample_index H W y x c <? len target)%Z) with true
    by (symmetry; apply andb_true_iff; split;
        [apply Z.leb_le | apply Z.ltb_lt]; lia).
  unfold lift. rewrite vget_sample by lia. reflexivity.
Qed.

Lemma seed_channel_total (G : Rng) (target : NumericVector)
      (H W y x c : Z) (g : rng_state G) :
  exists v g', DotPainter.seed_channel G target H W y x c g = Some (v, g').
Proof.
  unfold DotPainter.seed_channel. cbv zeta.
  destruct ((0 <=? DotPainter.idx3 y x c H W)%Z &&
            (DotPainter.idx3 y x c H W <? len target)%Z) eqn:Eb.
  - apply andb_true_iff in Eb. destruct Eb as [E1 E2].
    apply Z.leb_le in E1. apply Z.ltb_lt in E2.
    destruct (vget_Some target (DotPainter.idx3 y x c H W)) as [v Ev]; [lia|].
    unfold lift. rewrite Ev. eauto.
  - unfold draw. destruct (runif G 0 1 g) as [u g']. eauto.
Qed.

(** X25.  The colour of a born dot is read one pixel off: the 0-based
    indices of the seed are passed to [idx3], so a dot seeded at column 2
    and row 2 or later takes the colour of the target at the pixel one
    column left and one row up of its seed. *)
Theorem dot_birth_colour_is_read_one_pixel_off (G : Rng)
        (target canvas : NumericVector) (H W : Z) (g : rng_state G) :
  rng_in_support G -> (1 <= W)%Z -> (1 <= H)%Z ->
  len target = (H * W * 3)%Z -> len canvas = (H * W * 3)%Z ->
  exists d g',
    DotPainter.sample_dot_birth_datadriven_cpp G target canvas H W g
    = Some (d, g') /\
    ((2 <= trunc (dot_x d))%Z -> (2 <= trunc (dot_y d))%Z ->
     forall c, (0 <= c <= 2)%Z ->
       channel (dot_col d) c
       = sample target H W (trunc (dot_y d) - 1) (trunc (dot_x d) - 1) c).
Proof.
  intros HG HW HH Lt Lc.
  destruct (sample_seed_valid G target canvas H W g HG HW HH Lt Lc)
    as (x0 & y0 & g1 & Eseed & Hx & Hy).
  unfold DotPainter.sample_dot_birth_datadriven_cpp.
  unfold mbind at 1. rewrite Eseed.
  unfold mbind at 1, draw at 1. destruct (rnorm G 0 1.5 g1) as [n gn].
  unfold mbind at 1, draw at 1. destruct (rbeta G 2 2 gn) as [alpha ga].
  pose proof (trunc_range x0 W Hx) as Tx.
  pose proof (trunc_range y0 H Hy) as Ty.
  replace ((0 <=? trunc x0 - 1)%Z && (trunc x0 - 1 <? W)%Z &&
           (0 <=? trunc y0 - 1)%Z && (trunc y0 - 1 <? H)%Z) with true.
  2:{ symmetry. repeat (apply andb_true_iff; split);
      try apply Z.leb_le; try apply Z.ltb_lt; lia. }
  unfold mbind.
  destruct (seed_channel_total G target H W (trunc y0 - 1) (trunc x0 - 1) 0 ga)
    as (c0 & g0 & E0). rewrite E0.
  destruct (seed_channel_total G target H W (trunc y0 - 1) (trunc x0 - 1) 1 g0)
    as (c1 & g2 & E1). rewrite E1.
  destruct (seed_channel_total G target H W (trunc y0 - 1) (trunc x0 - 1) 2 g2)
    as (c2 & g3 & E2). rewrite E2.
  unfold ret. eexists; eexists; split; [reflexivity|].
  cbn [dot_x dot_y dot_col]. intros Hx2 Hy2 c Hcr.
  assert (Hc : in_canvas H W (trunc x0 - 1) (trunc y0 - 1))
    by (unfold in_canvas; lia).
  rewrite seed_channel_reads in E0, E1, E2 by (auto; lia).
  inversion E0; inversion E1; inversion E2; subst.
  assert (Ec : c = 0%Z \/ c = 1%Z \/ c = 2%Z) by lia.
  destruct Ec as [-> | [-> | ->]]; reflexivity.
Qed.

Lemma dot_birth_colour_is_read_one_pixel_off_witness :
  exists d g',
    DotPainter.sample_dot_birth_datadriven_cpp midpoint_rng
      red_target white_canvas 4 4 tt = Some (d, g') /\
    ((2 <= trunc (dot_x d))%Z -> (2 <= trunc (dot_y d))%Z ->
     forall c, (0 <= c <= 2)%Z ->
       channel (dot_col d) c
       = sample red_target 4 4 (trunc (dot_y d) - 1) (trunc (dot_x d) - 1) c).
Proof.
  apply (dot_birth_colour_is_read_one_pixel_off midpoint_rng
           red_target white_canvas 4 4 tt);
    [exact midpoint_rng_in_support | lia | lia | reflexivity | reflexivity].
Defined.

(** ** The compositors write one pixel off *)

Lemma for_loop_reindex {St : Type} (body : Z -> St -> option St)
      (n : nat) (i : Z) (s : St) :
  for_loop n i body s = for_loop n (i - 1) (fun k => body (k + 1)%Z) s.
Proof.
  revert i s. induction n as [|n IH]; intros i s; [reflexivity|].
  rewrite !for_loop_S.
  replace (i - 1 + 1)%Z with i by lia.
  destruct (body i s) as [t|]; cbn [obind]; [|reflexivity].
  rewrite IH. replace (i + 1 - 1)%Z with i by lia. reflexivity.
Qed.

Lemma for_range_reindex {St : Type} (body : Z -> St -> option St)
      (lo hi : Z) (s : St) :
  for_range lo hi body s
  = for_range (lo - 1) (hi - 1) (fun k => body (k + 1)%Z) s.
Proof.
  unfold for_range. rewrite for_loop_reindex.
  replace (hi - 1 - (lo - 1) + 1)%Z with (hi - lo + 1)%Z by lia. reflexivity.
Qed.

Lemma for_loop_ext {St : Type} (body body' : Z -> St -> option St)
      (n : nat) (i : Z) (s : St) :
  (forall k t, body k t = body' k t) ->
  for_loop n i body s = for_loop n i body' s.
Proof.
  intros Hb. revert i s. induction n as [|n IH]; intros i s; [reflexivity|].
  rewrite !for_loop_S, Hb.
  destruct (body' i s) as [t|]; cbn [obind]; auto.
Qed.

Lemma for_range_ext {St : Type} (body body' : Z -> St -> option St)
      (lo hi : Z) (s : St) :
  (forall k t, body k t = body' k t) ->
  for_range lo hi body s = for_range lo hi body' s.
Proof. intros Hb. unfold for_range. now apply for_loop_ext. Qed.

Lemma rect_reindex {St : Type} (body : Z -> Z -> St -> option St)
      (xmin xmax ymin ymax : Z) (s : St) :
  for_range ymin ymax (fun y c =>
    for_range xmin xmax (fun x c => body y x c) c) s
  = for_range (ymin - 1) (ymax - 1) (fun y c =>
      for_range (xmin - 1) (xmax - 1) (fun x c =>
        body (y + 1)%Z (x + 1)%Z c) c) s.
Proof.
  rewrite for_range_reindex. apply for_range_ext.
  intros y t. apply for_range_reindex.
Qed.

(** Three samples of one pixel are read, then written. *)
Lemma blend_pixel (H W y x : Z) (g : Z -> R -> R) (canvas : NumericVector) :
  in_canvas H W x y -> len canvas = (H * W * 3)%Z ->
  let out :=
    upd (Z.to_nat (sample_index H W y x 2)) (g 2%Z (sample canvas H W y x 2))
      (upd (Z.to_nat (sample_index H W y x 1)) (g 1%Z (sample canvas H W y x 1))
        (upd (Z.to_nat (sample_index H W y x 0))
             (g 0%Z (sample canvas H W y x 0)) canvas)) in
  len out = (H * W * 3)%Z /\
  (forall c, (0 <= c <= 2)%Z ->
             sample out H W y x c = g c (sample canvas H W y x c)) /\
  (forall y' x' c, in_canvas H W x' y' -> (0 <= c <= 2)%Z ->
                   (y', x') <> (y, x) ->
                   sample out H W y' x' c = sample canvas H W y' x' c).
Proof.
  intros Hin L out. unfold out. split; [now rewrite !len_upd|]. split.
  - intros c Hc.
    rewrite !sample_upd by (rewrite ?len_upd; auto; lia).
    rewrite !Z.eqb_refl. cbn [andb].
    assert (Hcc : c = 0%Z \/ c = 1%Z \/ c = 2%Z) by lia.
    destruct Hcc as [-> | [-> | ->]]; reflexivity.
  - intros y' x' c Hin' Hc Hne.
    rewrite !sample_upd by (rewrite ?len_upd; auto; lia).
    destruct (Z.eqb_spec y' y); destruct (Z.eqb_spec x' x);
      cbn [andb]; try reflexivity.
    subst. congruence.
Qed.

Lemma three_writes (H W y x : Z) (a0 a1 a2 : R) (canvas : NumericVector) :
  in_canvas H W x y -> len canvas = (H * W * 3)%Z ->
  (c1 <- vset canvas (sample_index H W y x 0) a0 ;;
   c2 <- vset c1 (sample_index H W y x 1) a1 ;;
   vset c2 (sample_index H W y x 2) a2)
  = Some (upd (Z.to_nat (sample_index H W y x 2)) a2
           (upd (Z.to_nat (sample_index H W y x 1)) a1
             (upd (Z.to_nat (sample_index H W y x 0)) a0 canvas))).
Proof.
  intros [Hx Hy] L.
  pose proof (sample_index_bounds H W y x 0 Hy Hx ltac:(lia)).
  pose proof (sample_index_bounds H W y x 1 Hy Hx ltac:(lia)).
  pose proof (sample_index_bounds H W y x 2 Hy Hx ltac:(lia)).
  rewrite vset_Some by lia. cbn [obind].
  rewrite vset_Some by (rewrite ?len_upd; lia). cbn [obind].
  rewrite vset_Some by (rewrite ?len_upd; lia). reflexivity.
Qed.

Lemma index_tests_pass (H W y x : Z) (canvas : NumericVector) :
  in_canvas H W x y -> len canvas = (H * W * 3)%Z ->
  ((sample_index H W y x 0 <? 0) || (len canvas <=? sample_index H W y x 0) ||
   (sample_index H W y x 1 <? 0) || (len canvas <=? sample_index H W y x 1) ||
   (sample_index H W y x 2 <? 0) || (len canvas <=? sample_index H W y x 2))%Z
  = false.
Proof.
  intros [Hx Hy] L.
  pose proof (sample_index_bounds H W y x 0 Hy Hx ltac:(lia)).
  pose proof (sample_index_bounds H W y x 1 Hy Hx ltac:(lia)).
  pose proof (sample_index_bounds H W y x 2 Hy Hx ltac:(lia)).
  repeat (apply orb_false_iff; split);
    try (apply Z.ltb_ge; lia); apply Z.leb_gt; lia.
Qed.

Lemma composite_line_pixel_map (H W : Z) (l : Line) (y x : Z) :
  (1 <= x <= W - 1)%Z -> (1 <= y <= H - 1)%Z ->
  pixel_map H W
    (McmcPainter.composite_line_pixel H W (line_x1 l) (line_y1 l) (line_x2 l)
       (line_y2 l) (line_w l) (line_alpha l) (line_col l) (y + 1) (x + 1))
    (fun c v => line_over l (x + 1) (y + 1) c v) y x.
Proof.
  intros Hx Hy canvas L.
  assert (Hin : in_canvas H W x y) by (unfold in_canvas; lia).
  unfold McmcPainter.composite_line_pixel, line_over. cbv zeta.
  fold (line_coverage_at l (x + 1) (y + 1)).
  replace (y + 1 - 1)%Z with y by lia. replace (x + 1 - 1)%Z with x by lia.
  replace ((y <? 0) || (H <=? y) || (x <? 0) || (W <=? x))%Z with false
    by (symmetry; repeat (apply orb_false_iff; split);
        try (apply Z.ltb_ge; lia); apply Z.leb_gt; lia).
  destruct (Rltb 0 (line_coverage_at l (x + 1) (y + 1))) eqn:Ec;
    [apply Rltb_true in Ec | apply Rltb_false in Ec].
  2:{ replace (Rleb (line_coverage_at l (x + 1) (y + 1)) 0) with true
        by (symmetry; apply Rleb_true; lra).
      cbn [orb andb]. exists canvas. repeat split; auto. }
  replace (Rleb (line_coverage_at l (x + 1) (y + 1)) 0) with false
    by (symmetry; apply Rleb_false; lra).
  destruct (Rltb 0 (line_alpha l)) eqn:Ea;
    [apply Rltb_true in Ea | apply Rltb_false in Ea].
  2:{ replace (Rleb (line_alpha l) 0) with true
        by (symmetry; apply Rleb_true; lra).
      cbn [orb andb]. exists canvas. repeat split; auto. }
  replace (Rleb (line_alpha l) 0) with false
    by (symmetry; apply Rleb_false; lra).
  cbn [orb andb].
  rewrite !mcmc_idx3_sample_index.
  rewrite index_tests_pass by auto.
  pose proof Hin as [Hx' Hy'].
  rewrite !vget_sample
    by (rewrite L; apply sample_index_bounds; auto; lia).
  cbn [obind]. rewrite three_writes by auto.
  set (a := McmcPainter.clamp01
              (line_coverage_at l (x + 1) (y + 1) * line_alpha l)).
  eexists. split; [reflexivity|].
  apply (blend_pixel H W y x
           (fun c v => a * channel (line_col l) c + (1 - a) * v) canvas Hin L).
Qed.

Lemma dot_pixel_map (H W : Z) (d : Dot) (y x : Z) :
  (1 <= x <= W - 1)%Z -> (1 <= y <= H - 1)%Z ->
  pixel_map H W
    (DotPainter.dot_pixel H W (dot_x d) (dot_y d) (dot_radius d)
       (dot_alpha d) (dot_col d) (y + 1) (x + 1))
    (fun c v => dot_over d (x + 1) (y + 1) c v) y x.
Proof.
  intros Hx Hy canvas L.
  assert (Hin : in_canvas H W x y) by (unfold in_canvas; lia).
  unfold DotPainter.dot_pixel, dot_over. cbv zeta.
  fold (dot_coverage_at d (x + 1) (y + 1)).
  replace (y + 1 - 1)%Z with y by lia. replace (x + 1 - 1)%Z with x by lia.
  replace ((y <? 0) || (H <=? y) || (x <? 0) || (W <=? x))%Z with false
    by (symmetry; repeat (apply orb_false_iff; split);
        try (apply Z.ltb_ge; lia); apply Z.leb_gt; lia).
  destruct (Rltb 0 (dot_coverage_at d (x + 1) (y + 1))) eqn:Ec;
    [apply Rltb_true in Ec | apply Rltb_false in Ec].
  2:{ replace (Rleb (dot_coverage_at d (x + 1) (y + 1)) 0) with true
        by (symmetry; apply Rleb_true; lra).
      cbn [orb andb]. exists canvas. repeat split; auto. }
  replace (Rleb (dot_coverage_at d (x + 1) (y + 1)) 0) with false
    by (symmetry; apply Rleb_false; lra).
  destruct (Rltb 0 (dot_alpha d)) eqn:Ea;
    [apply Rltb_true in Ea | apply Rltb_false in Ea].
  2:{ replace (Rleb (dot_alpha d) 0) with true
        by (symmetry; apply Rleb_true; lra).
      cbn [orb andb]. exists canvas. repeat split; auto. }
  replace (Rleb (dot_alpha d) 0) with false
    by (symmetry; apply Rleb_false; lra).
  cbn [orb andb].
  rewrite !dot_idx3_sample_index.
  rewrite index_tests_pass by auto.
  pose proof Hin as [Hx' Hy'].
  rewrite !vget_sample
    by (rewrite L; apply sample_index_bounds; auto; lia).
  cbn [obind]. rewrite three_writes by auto.
  set (a := DotPainter.clamp01
              (dot_coverage_at d (x + 1) (y + 1) * dot_alpha d)).
  eexists. split; [reflexivity|].
  apply (blend_pixel H W y x
           (fun c v => v + a * (channel (dot_col d) c - v)) canvas Hin L).
Qed.

(** X29.  Both compositors pass the 0-based [y0], [x0] to [idx3], which
    subtracts 1 again.  On a rectangle of the canvas that starts at
    column 2 and row 2 or later they return a canvas in which the
    primitive, with the coverage and the blend of pixel [(x + 1, y + 1)],
    is composited over pixel [(x, y)] of the rectangle moved one column
    left and one row up, and every other pixel is kept. *)
Theorem compositors_write_one_pixel_off (canvas : NumericVector) (H W : Z)
        (d : Dot) (l : Line) (xmin xmax ymin ymax : Z) :
  len canvas = (H * W * 3)%Z ->
  (2 <= xmin)%Z -> (xmax <= W)%Z -> (2 <= ymin)%Z -> (ymax <= H)%Z ->
  (exists out,
      DotPainter.composite_dot_bbox_cpp canvas H W (dot_x d) (dot_y d)
        (dot_radius d) (dot_alpha d) (dot_col d) xmin xmax ymin ymax
      = Some out /\
      forall y x c, in_canvas H W x y -> (0 <= c <= 2)%Z ->
        sample out H W y x c
        = if in_rectb (xmin - 1) (xmax - 1) (ymin - 1) (ymax - 1) x y
          then dot_over d (x + 1) (y + 1) c (sample canvas H W y x c)
          else sample canvas H W y x c)
  /\ (exists out,
         McmcPainter.composite_line_bbox_cpp canvas H W (line_x1 l) (line_y1 l)
           (line_x2 l) (line_y2 l) (line_w l) (line_alpha l) (line_col l)
           xmin xmax ymin ymax = Some out /\
         forall y x c, in_canvas H W x y -> (0 <= c <= 2)%Z ->
           sample out H W y x c
           = if in_rectb (xmin - 1) (xmax - 1) (ymin - 1) (ymax - 1) x y
             then line_over l (x + 1) (y + 1) c (sample canvas H W y x c)
             else sample canvas H W y x c).
Proof.
  intros L Hx1 Hx2 Hy1 Hy2.
  assert (Hr : rect_in_canvas H W (xmin - 1) (xmax - 1) (ymin - 1) (ymax - 1))
    by (unfold rect_in_canvas; lia).
  split.
  - unfold DotPainter.composite_dot_bbox_cpp, DotPainter.dot_rect.
    rewrite (rect_reindex
               (fun y0 x0 c => DotPainter.dot_pixel H W (dot_x d) (dot_y d)
                                 (dot_radius d) (dot_alpha d) (dot_col d)
                                 y0 x0 c)).
    destruct (rect_loop H W
                (fun y x c => DotPainter.dot_pixel H W (dot_x d) (dot_y d)
                                (dot_radius d) (dot_alpha d) (dot_col d)
                                (y + 1) (x + 1) c)
                (fun y x c v => dot_over d (x + 1) (y + 1) c v)
                (xmin - 1) (xmax - 1) (ymin - 1) (ymax - 1) canvas Hr)
      as (out & E & _ & Ho); auto.
    { intros y x Hy Hx. apply dot_pixel_map; lia. }
    exists out. split; [exact E | exact Ho].
  - unfold McmcPainter.composite_line_bbox_cpp.
    rewrite (rect_reindex
               (fun y0 x0 c =>
                  McmcPainter.composite_line_pixel H W (line_x1 l) (line_y1 l)
                    (line_x2 l) (line_y2 l) (line_w l) (line_alpha l)
                    (line_col l) y0 x0 c)).
    destruct (rect_loop H W
                (fun y x c =>
                   McmcPainter.composite_line_pixel H W (line_x1 l) (line_y1 l)
                     (line_x2 l) (line_y2 l) (line_w l) (line_alpha l)
                     (line_col l) (y + 1) (x + 1) c)
                (fun y x c v => line_over l (x + 1) (y + 1) c v)
                (xmin - 1) (xmax - 1) (ymin - 1) (ymax - 1) canvas Hr)
      as (out & E & _ & Ho); auto.
    { intros y x Hy Hx. apply composite_line_pixel_map; lia. }
    exists out. split; [exact E | exact Ho].
Qed.

Lemma compositors_write_one_pixel_off_witness :
  (exists out,
      DotPainter.composite_dot_bbox_cpp white_canvas 4 4 2 2 1 0.5
        (mkColor 0 0 0) 2 3 2 3 = Some out /\
      forall y x c, in_canvas 4 4 x y -> (0 <= c <= 2)%Z ->
        sample out 4 4 y x c
        = if in_rectb (2 - 1) (3 - 1) (2 - 1) (3 - 1) x y
          then dot_over (mkDot 2 2 1 0.5 (mkColor 0 0 0)) (x + 1) (y + 1) c
                 (sample white_canvas 4 4 y x c)
          else sample white_canvas 4 4 y x c)
  /\ (exists out,
         McmcPainter.composite_line_bbox_cpp white_canvas 4 4 1 1 4 4 1 0.5
           (mkColor 0 0 0) 2 3 2 3 = Some out /\
         forall y x c, in_canvas 4 4 x y -> (0 <= c <= 2)%Z ->
           sample out 4 4 y x c
           = if in_rectb (2 - 1) (3 - 1) (2 - 1) (3 - 1) x y
             then line_over (mkLine 1 1 4 4 1 0.5 (mkColor 0 0 0))
                    (x + 1) (y + 1) c (sample white_canvas 4 4 y x c)
             else sample white_canvas 4 4 y x c).
Proof.
  apply (compositors_write_one_pixel_off white_canvas 4 4
           (mkDot 2 2 1 0.5 (mkColor 0 0 0))
           (mkLine 1 1 4 4 1 0.5 (mkColor 0 0 0)) 2 3 2 3);
    reflexivity || lia.
Defined.

(** ** The interval [0,1], for lines *)

(** X28.  The line painter keeps samples in [0,1]: with widths of at least
    -1 the coverage is at most 1 and [clamp01] is never asked to clamp
    from above, so from a canvas with samples in [0,1], a rectangle within
    the canvas and lines of such a width, an alpha strictly between 0 and
    1 and colours in [0,1], the three rendering operations return a
    canvas whose samples are all in [0,1]. *)
Theorem line_painter_keeps_unit_interval
        (canvas : NumericVector) (H W : Z) (l : Line) (lines : list Line)
        (xmin xmax ymin ymax : Z) :
  (1 <= H)%Z -> (1 <= W)%Z ->
  all_samples in01 canvas -> len canvas = (H * W * 3)%Z ->
  rect_in_canvas H W xmin xmax ymin ymax ->
  tame_line l -> Forall tame_line lines ->
  (exists out,
      McmcPainter.composite_line_bbox_cpp canvas H W (line_x1 l) (line_y1 l)
        (line_x2 l) (line_y2 l) (line_w l) (line_alpha l) (line_col l)
        xmin xmax ymin ymax = Some out /\ all_samples in01 out)
  /\ (exists out,
         McmcPainter.re_render_bbox_from_lines_cpp canvas lines
           xmin xmax ymin ymax H W = Some out /\ all_samples in01 out)
  /\ (exists out,
         McmcPainter.render_full_canvas_cpp lines H W = Some out /\
         all_samples in01 out).
Proof.
  intros HH HW Hc L Hr Hl Hls.
  pose proof (fun out => line_operations_keep_unit_interval canvas out H W
                           l lines xmin xmax ymin ymax Hc Hl Hls) as Keep.
  repeat split.
  - destruct (for_range_inv (fun _ : NumericVector => True)
                (fun y c => for_range xmin xmax (fun x c =>
                   McmcPainter.composite_line_pixel H W (line_x1 l) (line_y1 l)
                     (line_x2 l) (line_y2 l) (line_w l) (line_alpha l)
                     (line_col l) y x c) c)
                ymin ymax canvas I) as [out [E _]].
    { intros y c _ _. apply (for_range_inv (fun _ => True)); auto.
      intros x c' _ _.
      destruct (composite_line_pixel_total H W (line_x1 l) (line_y1 l)
                  (line_x2 l) (line_y2 l) (line_w l) (line_alpha l)
                  (line_col l) y x c') as (c2 & E2 & _).
      eauto. }
    exists out. split; [exact E|]. apply (proj1 (Keep out)). exact E.
  - unfold McmcPainter.re_render_bbox_from_lines_cpp in *. cbv zeta in *.
    destruct (clear_rect_spec H W xmin xmax ymin ymax canvas Hr L)
      as (c0 & E0 & L0 & _).
    rewrite E0 in *. cbn [obind] in *.
    destruct (for_each_inv (fun c => len c = (H * W * 3)%Z)
                (McmcPainter.re_render_line H W xmin xmax ymin ymax)
                lines c0 L0) as (out & E & _).
    { intros e c _ Lc.
      destruct (re_render_line_frame H W xmin xmax ymin ymax e c Hr Lc)
        as (c' & E' & L' & _).
      eauto. }
    exists out. split; [exact E|]. apply (proj1 (proj2 (Keep out))). exact E.
  - unfold McmcPainter.render_full_canvas_cpp in *. cbv zeta in *.
    destruct (for_each_inv (fun c => len c = (H * W * 3)%Z)
                (McmcPainter.render_line H W) lines
                (repeat 1 (Z.to_nat (H * W * 3)))) as (out & E & _).
    { rewrite len_repeat. nia. }
    { intros e c _ Lc. unfold McmcPainter.render_line. cbv zeta.
      match goal with
      | |- exists t', McmcPainter.line_rect H W e ?a ?b ?c0 ?d c = Some t' /\ _ =>
          destruct (line_rect_spec H W e a b c0 d c) as (o & Eo & Lo & _);
          [unfold rect_in_canvas; lia | exact Lc | eauto]
      end. }
    exists out. split; [exact E|]. apply (proj2 (proj2 (Keep out))). exact E.
Qed.

Lemma line_painter_keeps_unit_interval_witness :
  (exists out,
      McmcPainter.composite_line_bbox_cpp [1; 1; 1] 1 1 0 0 1 1 1 0.5
        (mkColor 0 0 0) 1 1 1 1 = Some out /\ all_samples in01 out)
  /\ (exists out,
         McmcPainter.re_render_bbox_from_lines_cpp [1; 1; 1]
           [mkLine 0 0 1 1 1 0.5 (mkColor 0 0 0)] 1 1 1 1 1 1 = Some out /\
         all_samples in01 out)
  /\ (exists out,
         McmcPainter.render_full_canvas_cpp
           [mkLine 0 0 1 1 1 0.5 (mkColor 0 0 0)] 1 1 = Some out /\
         all_samples in01 out).
Proof.
  apply (line_painter_keeps_unit_interval [1; 1; 1] 1 1
           (mkLine 0 0 1 1 1 0.5 (mkColor 0 0 0))
           [mkLine 0 0 1 1 1 0.5 (mkColor 0 0 0)] 1 1 1 1).
  - lia.
  - lia.
  - samples_in01.
  - reflexivity.
  - unfold rect_in_canvas; lia.
  - unfold tame_line, valid_color, in01; simpl; lra.
  - apply Forall_cons;
      [unfold tame_line, valid_color, in01; simpl; lra | apply Forall_nil].
Defined.

(** ** The interval [0,1], for every primitive *)

(** The lines of the data model are among those whose blend factor stays
    in [0,1]; the line of width -3 is not one of them. *)
Lemma valid_line_is_tame (W H : Z) (l : Line) : valid_line W H l -> tame_line l.
Proof.
  intros (_ & _ & _ & _ & Hw & Ha & Hc). unfold tame_line.
  split; [lra|]. split; assumption.
Qed.

Lemma thin_line_is_not_valid (W H : Z) : ~ valid_line W H thin_line.
Proof.
  intros (_ & _ & _ & _ & Hw & _). cbn in Hw. lra.
Qed.

(** C5.  From a canvas of [H*W*3] samples in [0,1], with primitives whose
    alpha is strictly between 0 and 1 and whose colour channels are in
    [0,1] (for a line, with a width of at least -1, which every line of
    the data model has), each of the six compositing and rendering
    operations returns a canvas, and every sample of it is in [0,1]. *)
Theorem rendering_keeps_unit_interval
        (canvas : NumericVector) (H W : Z) (d : Dot) (dots : list Dot)
        (l : Line) (lines : list Line) (xmin xmax ymin ymax : Z) :
  (1 <= H)%Z -> (1 <= W)%Z ->
  all_samples in01 canvas -> len canvas = (H * W * 3)%Z ->
  rect_in_canvas H W xmin xmax ymin ymax ->
  0 < dot_alpha d < 1 -> valid_color (dot_col d) ->
  Forall (fun d => 0 < dot_alpha d < 1 /\ valid_color (dot_col d)) dots ->
  tame_line l -> Forall tame_line lines ->
  (exists out,
      DotPainter.composite_dot_bbox_cpp canvas H W (dot_x d) (dot_y d)
        (dot_radius d) (dot_alpha d) (dot_col d) xmin xmax ymin ymax
      = Some out /\ all_samples in01 out)
  /\ (exists out,
         DotPainter.re_render_bbox_from_dots_cpp canvas dots H W
           xmin xmax ymin ymax = Some out /\ all_samples in01 out)
  /\ (exists out,
         DotPainter.render_full_canvas_from_dots_cpp canvas dots H W
         = Some out /\ all_samples in01 out)
  /\ (exists out,
         McmcPainter.composite_line_bbox_cpp canvas H W (line_x1 l) (line_y1 l)
           (line_x2 l) (line_y2 l) (line_w l) (line_alpha l) (line_col l)
           xmin xmax ymin ymax = Some out /\ all_samples in01 out)
  /\ (exists out,
         McmcPainter.re_render_bbox_from_lines_cpp canvas lines
           xmin xmax ymin ymax H W = Some out /\ all_samples in01 out)
  /\ (exists out,
         McmcPainter.render_full_canvas_cpp lines H W = Some out /\
         all_samples in01 out).
Proof.
  intros HH HW Hc L Hr _ Hd Hds Hl Hls.
  pose proof (fun out => line_operations_keep_unit_interval canvas out H W
                           l lines xmin xmax ymin ymax Hc Hl Hls) as Keep.
  rewrite Forall_forall in Hds.
  repeat split.
  - now apply dot_rect_in01.
  - unfold DotPainter.re_render_bbox_from_dots_cpp.
    destruct (for_range_inv (all_samples in01)
                (fun y canvas => for_range xmin xmax (fun x canvas =>
                   DotPainter.clear_pixel H W y x canvas) canvas)
                ymin ymax canvas Hc) as [c0 [E0 H0]].
    { intros y c _ Hcc. apply for_range_inv; auto.
      intros x c' _ Hc'. now apply dot_clear_pixel_in01. }
    unfold DotPainter.clear_rect. rewrite E0. cbn [obind].
    apply for_each_inv; auto.
    intros e c Hin Hcc. unfold DotPainter.re_render_dot. cbv zeta.
    destruct (Rltb _ _ || Rltb _ _ || Rltb _ _ || Rltb _ _); [eauto|].
    apply dot_rect_in01; auto. now apply Hds.
  - unfold DotPainter.render_full_canvas_from_dots_cpp.
    rewrite fill_white. cbn [obind].
    apply for_each_inv.
    + unfold all_samples. apply Forall_forall. intros v Hv.
      apply repeat_spec in Hv. subst. unfold in01. lra.
    + intros e c Hin Hcc. unfold DotPainter.render_dot. cbv zeta.
      apply dot_rect_in01; auto. now apply Hds.
  - destruct (for_range_inv (fun _ : NumericVector => True)
                (fun y c => for_range xmin xmax (fun x c =>
                   McmcPainter.composite_line_pixel H W (line_x1 l) (line_y1 l)
                     (line_x2 l) (line_y2 l) (line_w l) (line_alpha l)
                     (line_col l) y x c) c)
                ymin ymax canvas I) as [out [E _]].
    { intros y c _ _. apply (for_range_inv (fun _ => True)); auto.
      intros x c' _ _.
      destruct (composite_line_pixel_total H W (line_x1 l) (line_y1 l)
                  (line_x2 l) (line_y2 l) (line_w l) (line_alpha l)
                  (line_col l) y x c') as (c2 & E2 & _).
      eauto. }
    exists out. split; [exact E|]. apply (proj1 (Keep out)). exact E.
  - unfold McmcPainter.re_render_bbox_from_lines_cpp in *. cbv zeta in *.
    destruct (clear_rect_spec H W xmin xmax ymin ymax canvas Hr L)
      as (c0 & E0 & L0 & _).
    rewrite E0 in *. cbn [obind] in *.
    destruct (for_each_inv (fun c => len c = (H * W * 3)%Z)
                (McmcPainter.re_render_line H W xmin xmax ymin ymax)
                lines c0 L0) as (out & E & _).
    { intros e c _ Lc.
      destruct (re_render_line_frame H W xmin xmax ymin ymax e c Hr Lc)
        as (c' & E' & L' & _).
      eauto. }
    exists out. split; [exact E|]. apply (proj1 (proj2 (Keep out))). exact E.
  - unfold McmcPainter.render_full_canvas_cpp in *. cbv zeta in *.
    destruct (for_each_inv (fun c => len c = (H * W * 3)%Z)
                (McmcPainter.render_line H W) lines
                (repeat 1 (Z.to_nat (H * W * 3)))) as (out & E & _).
    { rewrite len_repeat. nia. }
    { intros e c _ Lc. unfold McmcPainter.render_line. cbv zeta.
      match goal with
      | |- exists t', McmcPainter.line_rect H W e ?a ?b ?c0 ?d c = Some t' /\ _ =>
          destruct (line_rect_spec H W e a b c0 d c) as (o & Eo & Lo & _);
          [unfold rect_in_canvas; lia | exact Lc | eauto]
      end. }
    exists out. split; [exact E|]. apply (proj2 (proj2 (Keep out))). exact E.
Qed.

Lemma rendering_keeps_unit_interval_witness :
  let canvas := [1; 0.5; 0; 1; 1; 0.5; 0; 1; 1; 0.5; 0; 1] in
  let d := mkDot 1.5 1.5 1 0.5 (mkColor 0 0 0) in
  let l := mkLine 1 1 2 2 1 0.5 (mkColor 0 0 0) in
  (exists out,
      DotPainter.composite_dot_bbox_cpp canvas 2 2 (dot_x d) (dot_y d)
        (dot_radius d) (dot_alpha d) (dot_col d) 2 2 2 2
      = Some out /\ all_samples in01 out)
  /\ (exists out,
         DotPainter.re_render_bbox_from_dots_cpp canvas [d] 2 2 2 2 2 2
         = Some out /\ all_samples in01 out)
  /\ (exists out,
         DotPainter.render_full_canvas_from_dots_cpp canvas [d] 2 2
         = Some out /\ all_samples in01 out)
  /\ (exists out,
         McmcPainter.composite_line_bbox_cpp canvas 2 2 (line_x1 l) (line_y1 l)
           (line_x2 l) (line_y2 l) (line_w l) (line_alpha l) (line_col l)
           2 2 2 2 = Some out /\ all_samples in01 out)
  /\ (exists out,
         McmcPainter.re_render_bbox_from_lines_cpp canvas [l] 2 2 2 2 2 2
         = Some out /\ all_samples in01 out)
  /\ (exists out,
         McmcPainter.render_full_canvas_cpp [l] 2 2 = Some out /\
         all_samples in01 out).
Proof.
  intros canvas d l.
  apply (rendering_keeps_unit_interval canvas 2 2 d [d] l [l] 2 2 2 2).
  - lia.
  - lia.
  - unfold canvas. samples_in01.
  - reflexivity.
  - unfold rect_in_canvas. lia.
  - simpl. lra.
  - unfold valid_color, in01. simpl. lra.
  - apply Forall_cons; [|apply Forall_nil].
    unfold valid_color, in01. simpl. lra.
  - unfold tame_line, valid_color, in01. simpl. lra.
  - apply Forall_cons; [|apply Forall_nil].
    unfold tame_line, valid_color, in01. simpl. lra.
Defined.
